(** * Elemental: distributed Hermitian rank-k update and companions

    A shallow embedding of
      - [src/BLAS/Level3/Herk/HerkUN.cpp]  (HerkUN, HerkUNUpdate,
        HerkUNUpdateKernel),
      - [src/optimization/solvers/LP/affine/IPM/IPF.cpp] (the loop control of
        the dense sequential IPF),
      - [src/matrices-C.cpp] (the Cauchy-like C wrappers and the wrappers
        that take vectors),
      - [src/blas_like/level1/Adjoint/PartialColFilter.cpp],
      - [src/blas_like/level3/Trr2k/TNTT.hpp] (Trr2kTNTT),
      - [include/El/lapack-like/props/Inertia.hpp] (Inertia),
      - [tests/blas-like/Her2k.cpp] (the grid set up by the driver),
    together with a model of the redistribution protocol of the design
    document, and the properties proved about them. *)

From Stdlib Require Import Arith Lia List Bool ZArith Ring Sorted.
Import ListNotations.

Set Implicit Arguments.

(** ** Results of a call

    A routine either returns, or throws (the payload is what was written to
    [cerr] before the bare [exception()] left the routine), or the model ran
    out of fuel, which stands for a run that has not returned yet. *)

Inductive Message : Type :=
| MsgSameGrid
| MsgNonconformalHerkUN (aH aW cH cW : nat)
| MsgNonconformalHerkUNUpdate (mcH mcW mrH mrW cH cW : nat)
| MsgMisalignedHerkUNUpdate (mcAlign mrAlign cColAlign cRowAlign : nat).

Inductive Outcome (A : Type) : Type :=
| Ok (a : A)
| Throw (cerr : list Message)
| OutOfFuel.

Arguments Throw {A} cerr.
Arguments OutOfFuel {A}.

Definition bind {A B : Type} (m : Outcome A) (k : A -> Outcome B) : Outcome B :=
  match m with
  | Ok a => k a
  | Throw c => Throw c
  | OutOfFuel => OutOfFuel
  end.

Notation "x <- m ;; k" := (bind m (fun x => k))
  (at level 61, m at next level, right associativity).

(** ** Process grid and distributed matrices *)

(** The grid object as one process sees it: its identity, its shape and the
    rank of the calling process in the column-major ordering. *)
Record Grid : Type := mkGrid {
  GridId : nat;
  GridHeight : nat;
  GridWidth : nat;
  VCRank : nat
}.

Definition grid_eqb (g h : Grid) : bool :=
  (GridId g =? GridId h) && (GridHeight g =? GridHeight h) &&
  (GridWidth g =? GridWidth h) && (VCRank g =? VCRank h).

Lemma grid_eqb_eq (g h : Grid) : grid_eqb g h = true <-> g = h.
Proof.
  unfold grid_eqb; destruct g, h; simpl.
  rewrite !andb_true_iff, !Nat.eqb_eq.
  split; [intros [[[-> ->] ->] ->]; reflexivity | intros H; inversion H; auto].
Qed.

Lemma grid_eqb_refl (g : Grid) : grid_eqb g g = true.
Proof. apply grid_eqb_eq; reflexivity. Qed.

(** The three distributions of a dimension that HerkUN uses: over a process
    column ([MC]), over a process row ([MR]), or replicated ([Star]). *)
Inductive Dist : Type := MC | MR | Star.

Definition stride (g : Grid) (d : Dist) : nat :=
  match d with
  | MC => GridHeight g
  | MR => GridWidth g
  | Star => 1
  end.

(** Modelled from the spec (section 3): "a process owns global row i under
    distribution grid-row with alignment a iff i mod r == (gridRow + a) mod
    r, and similarly for columns".  [n] is the extent of the grid along the
    dimension, [p] the coordinate of the process there. *)
Definition owns_index (n a p i : nat) : bool := i mod n =? (p + a) mod n.

(** [DistMatrix<T,ColDist,RowDist>], seen globally.  A matrix is a window
    ([RowOff], [ColOff], [Height], [Width]) on a storage [S]: views made by
    the partitioning routines share the storage of their parent.  [S] is a
    key of the store for matrices of the caller, and the contents themselves
    for the temporaries a routine owns. *)
Record DistMatrix (S : Type) : Type := mkDistMatrix {
  ColDist : Dist;
  RowDist : Dist;
  GetGrid : Grid;
  Height : nat;
  Width : nat;
  ColAlignment : nat;
  RowAlignment : nat;
  RowOff : nat;
  ColOff : nat;
  Storage : S
}.

(** The alignment of a window that starts [o] indices into a dimension of
    alignment [a]: the one under which a process owns index [i] of the window
    exactly when it owns index [o + i] of the parent (see [view_owns]). *)
Definition view_alignment (n a o : nat) : nat := (a + (n - o mod n)) mod n.

(** Modelled from the spec: [DistMatrix::View] is not among the verified
    sources; a view is a non-owning window sharing the buffer of its parent,
    and each process holds of it what it holds of that part of the parent. *)
Definition View {S : Type} (A : DistMatrix S) (i j h w : nat) : DistMatrix S :=
  {| ColDist := ColDist A;
     RowDist := RowDist A;
     GetGrid := GetGrid A;
     Height := h;
     Width := w;
     ColAlignment :=
       view_alignment (stride (GetGrid A) (ColDist A)) (ColAlignment A) i;
     RowAlignment :=
       view_alignment (stride (GetGrid A) (RowDist A)) (RowAlignment A) j;
     RowOff := RowOff A + i;
     ColOff := ColOff A + j;
     Storage := Storage A |}.

(** Modelled from the spec: [LockedPartitionDown(A, AT, AB, heightAT)], not
    among the verified sources: the first [heightAT] rows and the rest. *)
Definition LockedPartitionDown {S : Type} (A : DistMatrix S) (heightAT : nat)
  : DistMatrix S * DistMatrix S :=
  let hT := Nat.min heightAT (Height A) in
  (View A 0 0 hT (Width A), View A hT 0 (Height A - hT) (Width A)).

(** Modelled from the spec: [PartitionDownDiagonal(A, ATL, ATR, ABL, ABR, n)],
    not among the verified sources: the four quadrants around the leading
    [n] x [n] block. *)
Definition PartitionDownDiagonal {S : Type} (A : DistMatrix S) (diagATL : nat)
  : (DistMatrix S * DistMatrix S) * (DistMatrix S * DistMatrix S) :=
  let n := Nat.min diagATL (Nat.min (Height A) (Width A)) in
  ((View A 0 0 n n, View A 0 n n (Width A - n)),
   (View A n 0 (Height A - n) n, View A n n (Height A - n) (Width A - n))).

(** Modelled from the spec: [LockedPartitionRight(A, AL, AR)] with its default
    width 0 for [AL]; not among the verified sources. *)
Definition LockedPartitionRight {S : Type} (A : DistMatrix S)
  : DistMatrix S * DistMatrix S :=
  (View A 0 0 (Height A) 0, View A 0 0 (Height A) (Width A)).

(** Modelled from the spec: [LockedRepartitionRight(AL, AR, A0, A1, A2)],
    not among the verified sources: [A1] is the next panel of [AR], of width
    the block size or what is left of [AR]. *)
Definition LockedRepartitionRight {S : Type} (Blocksize : nat)
  (AL AR : DistMatrix S) : DistMatrix S * DistMatrix S * DistMatrix S :=
  let b := Nat.min Blocksize (Width AR) in
  (AL, View AR 0 0 (Height AR) b, View AR 0 b (Height AR) (Width AR - b)).

(** Modelled from the spec: [SlideLockedPartitionRight(AL, AR, A0, A1, A2)],
    not among the verified sources: [AL] becomes [A0 A1] and [AR] is [A2]. *)
Definition SlideLockedPartitionRight {S : Type} (A0 A1 A2 : DistMatrix S)
  : DistMatrix S * DistMatrix S :=
  (View A0 0 0 (Height A0) (Width A0 + Width A1), A2).

(** Modelled from the spec: [AlignWith], for a [MC,*] or [MR,*] matrix aligned
    with a [MC,MR] one: the alignment of the distributed dimension it shares
    with [C] is set to that of [C]. *)
Definition AlignWith {S S' : Type} (X : DistMatrix S) (C : DistMatrix S')
  : DistMatrix S :=
  let pick (d : Dist) (old : nat) :=
    if match d, ColDist C with MC, MC | MR, MR => true | _, _ => false end
    then ColAlignment C
    else if match d, RowDist C with MC, MC | MR, MR => true | _, _ => false end
    then RowAlignment C
    else old in
  {| ColDist := ColDist X;
     RowDist := RowDist X;
     GetGrid := GetGrid X;
     Height := Height X;
     Width := Width X;
     ColAlignment := pick (ColDist X) (ColAlignment X);
     RowAlignment := pick (RowDist X) (RowAlignment X);
     RowOff := RowOff X;
     ColOff := ColOff X;
     Storage := Storage X |}.

(** Modelled from the spec: [ResizeTo], not among the verified sources. *)
Definition ResizeTo {S : Type} (X : DistMatrix S) (h w : nat) : DistMatrix S :=
  {| ColDist := ColDist X;
     RowDist := RowDist X;
     GetGrid := GetGrid X;
     Height := h;
     Width := w;
     ColAlignment := ColAlignment X;
     RowAlignment := RowAlignment X;
     RowOff := RowOff X;
     ColOff := ColOff X;
     Storage := Storage X |}.

(** Is the position [(I, J)] of the buffer inside the window of [C]? *)
Definition inside {S : Type} (C : DistMatrix S) (I J : nat) : bool :=
  (RowOff C <=? I) && (I <? RowOff C + Height C) &&
  (ColOff C <=? J) && (J <? ColOff C + Width C).

Lemma inside_iff {S : Type} (M : DistMatrix S) (I J : nat) :
  inside M I J = true <->
  (RowOff M <= I < RowOff M + Height M /\ ColOff M <= J < ColOff M + Width M).
Proof.
  unfold inside.
  rewrite !andb_true_iff, !Nat.leb_le, !Nat.ltb_lt. tauto.
Qed.

Lemma inside_true {S : Type} (M : DistMatrix S) (I J : nat) :
  RowOff M <= I < RowOff M + Height M ->
  ColOff M <= J < ColOff M + Width M ->
  inside M I J = true.
Proof. intros; apply inside_iff; auto. Qed.

Lemma inside_false {S : Type} (M : DistMatrix S) (I J : nat) :
  (I < RowOff M \/ RowOff M + Height M <= I \/
   J < ColOff M \/ ColOff M + Width M <= J) ->
  inside M I J = false.
Proof.
  intros H. destruct (inside M I J) eqn:E; [|reflexivity].
  apply inside_iff in E. lia.
Qed.

(** ** Ownership of indices *)

Lemma mod_eq_iff (n x y : nat) :
  0 < n -> (x mod n = y mod n <-> exists u v, x + u * n = y + v * n).
Proof.
  intros Hn. split.
  - intros E. exists (y / n), (x / n).
    pose proof (Nat.div_mod_eq x n) as Hx.
    pose proof (Nat.div_mod_eq y n) as Hy. rewrite E in Hx.
    clear E. set (qx := x / n) in *. set (qy := y / n) in *.
    set (ry := y mod n) in *. clearbody qx qy ry. subst x y. ring.
  - intros (u & v & E).
    rewrite <- (Nat.Div0.mod_add x u n), <- (Nat.Div0.mod_add y v n), E.
    reflexivity.
Qed.

(** The least index a process owns, and its [l]-th one: the global index of
    row (or column) [l] of its local matrix. *)
Definition first_owned (n a p : nat) : nat := (p + a) mod n.
Definition global_index (n a p l : nat) : nat := first_owned n a p + l * n.

Lemma owns_global_index (n a p l : nat) :
  owns_index n a p (global_index n a p l) = true.
Proof.
  unfold owns_index, global_index, first_owned.
  rewrite Nat.Div0.mod_add, Nat.Div0.mod_mod. apply Nat.eqb_refl.
Qed.

Lemma global_index_of_owned (n a p i : nat) :
  owns_index n a p i = true -> global_index n a p (i / n) = i.
Proof.
  unfold owns_index, global_index, first_owned. intros E.
  apply Nat.eqb_eq in E. rewrite <- E.
  pose proof (Nat.div_mod_eq i n). lia.
Qed.

(** Every index is owned at exactly one coordinate. *)
Lemma owner_unique (n a i : nat) :
  0 < n -> exists! p, p < n /\ owns_index n a p i = true.
Proof.
  intros Hn.
  exists ((i mod n + (n - a mod n)) mod n). split.
  - split; [apply Nat.mod_upper_bound; lia|].
    unfold owns_index. apply Nat.eqb_eq.
    rewrite Nat.Div0.add_mod_idemp_l.
    apply mod_eq_iff; [exact Hn|].
    pose proof (Nat.div_mod_eq i n). pose proof (Nat.div_mod_eq a n).
    pose proof (Nat.mod_upper_bound a n).
    exists (1 + a / n), (i / n). nia.
  - intros p' [Hp' E]. unfold owns_index in E. apply Nat.eqb_eq in E.
    rewrite <- (Nat.mod_small p' n Hp').
    apply mod_eq_iff; [exact Hn|].
    apply mod_eq_iff in E; [|exact Hn]. destruct E as (u & v & E).
    pose proof (Nat.div_mod_eq i n). pose proof (Nat.div_mod_eq a n).
    pose proof (Nat.mod_upper_bound a n).
    exists (i / n + u), (a / n + v + 1). nia.
Qed.

(** A process owns index [i] of a window exactly when it owns index [o + i]
    of the parent. *)
Lemma view_owns (n a o p i : nat) :
  0 < n ->
  owns_index n (view_alignment n a o) p i = owns_index n a p (o + i).
Proof.
  intros Hn. unfold owns_index, view_alignment.
  apply Bool.eq_iff_eq_true. rewrite !Nat.eqb_eq.
  rewrite Nat.Div0.add_mod_idemp_r.
  rewrite !mod_eq_iff by exact Hn.
  pose proof (Nat.div_mod_eq o n). pose proof (Nat.mod_upper_bound o n).
  split; intros (u & v & E).
  - exists u, (o / n + 1 + v). nia.
  - exists (1 + o / n + u), v. nia.
Qed.

(** ** The rank-k update, over an arbitrary scalar ring

    The routines are templates over the scalar type [T] ([float], [double]
    and their complex counterparts).  Exact arithmetic is a commutative ring
    with a conjugation, which is the identity for the real instances. *)

Section Herk.

Variable T : Type.
Variables (zero one : T) (add mul sub : T -> T -> T) (opp : T -> T).
Variable Conj : T -> T.
Hypothesis Tring : ring_theory zero one add mul sub opp (@eq T).

Add Ring T_ring : Tring.

(** Build configuration ([true] when compiled with [RELEASE] defined) and the
    global algorithmic block size [Blocksize()]. *)
Variable RELEASE : bool.
Variable Blocksize : nat.

(** What a freshly resized buffer holds before it is written. *)
Variable uninitialized : nat -> nat -> T.

Definition Buf : Type := nat -> nat -> T.

(** Entry [(i, j)] of a matrix stored in [b], in the coordinates of the view. *)
Definition entry {S : Type} (M : DistMatrix S) (b : Buf) (i j : nat) : T :=
  b (RowOff M + i) (ColOff M + j).

(** Entry [(i, j)] of a matrix that carries its own contents. *)
Definition Get (M : DistMatrix Buf) (i j : nat) : T := entry M (Storage M) i j.

(** Rewrite the entries of the window of [M] in [b]; [f i j old] is the new
    value of entry [(i, j)] of the view. *)
Definition modify {S : Type} (M : DistMatrix S) (f : nat -> nat -> T -> T)
  (b : Buf) : Buf :=
  fun I J =>
    if inside M I J then f (I - RowOff M) (J - ColOff M) (b I J) else b I J.

(** [f 0 + f 1 + ... + f (k-1)], accumulated in index order. *)
Fixpoint sum_n (k : nat) (f : nat -> T) : T :=
  match k with
  | O => zero
  | S k' => add (sum_n k' f) (f k')
  end.

(** *** The local BLAS-like operations

    These operations are not among the verified sources.  They act on the
    local matrices of every process; they are given here by their effect on
    the global entries, which [local_Gemm_is_global] relates to the local
    multiplies for operands aligned as the checks demand. *)

(** Modelled from the spec: [BLAS::Scal(beta, X)], X := beta X, on the
    buffer of [X]. *)
Definition Scal_buf {S : Type} (beta : T) (X : DistMatrix S) : Buf -> Buf :=
  modify X (fun _ _ x => mul beta x).

(** Modelled from the spec: [BLAS::Gemm(Normal, ConjugateTranspose, alpha, A,
    B, beta, C)], C := alpha A B^H + beta C, the local dense multiply; the
    contraction runs over the columns of [A]. *)
Definition Gemm_buf {S : Type} (alpha : T) (A B : DistMatrix Buf) (beta : T)
  (C : DistMatrix S) : Buf -> Buf :=
  modify C (fun i j c =>
    add (mul alpha (sum_n (Width A) (fun t => mul (Get A i t) (Conj (Get B j t)))))
        (mul beta c)).

(** Modelled from the spec: [MakeTrapezoidal(Left, Upper)]: the entries
    strictly below the diagonal are set to zero. *)
Definition MakeTrapezoidal_buf {S : Type} (X : DistMatrix S) : Buf -> Buf :=
  modify X (fun i j x => if j <? i then zero else x).

(** Modelled from the spec: [BLAS::Axpy(alpha, X, Y)], Y := alpha X + Y. *)
Definition Axpy_buf {S : Type} (alpha : T) (X : DistMatrix Buf)
  (Y : DistMatrix S) : Buf -> Buf :=
  modify Y (fun i j y => add (mul alpha (Get X i j)) y).

(** *** State: the store of the caller's matrices and the trace of calls *)

Inductive Routine : Type := RHerkUN | RHerkUNUpdate | RHerkUNUpdateKernel.

(** Where an operation writes: through a view of the caller's matrix held in
    the store, or into a temporary of the routine. *)
Inductive Target : Type :=
| InStore (C : DistMatrix nat)
| InTemp (D : DistMatrix Buf).

Inductive Event : Type :=
| EvEnter (r : Routine) (beta : T) (height : nat)
| EvScal (beta : T) (X : Target)
| EvGemm (alpha : T) (A B : DistMatrix Buf) (beta : T) (C : Target)
| EvMakeTrapezoidal (X : Target)
| EvAxpy (alpha : T) (X : DistMatrix Buf) (Y : Target).

Record State : Type := mkState {
  store : nat -> Buf;
  trace : list Event
}.

Definition emit (e : Event) (st : State) : State :=
  {| store := store st; trace := trace st ++ [e] |}.

(** Apply a buffer operation to the storage of [C]. *)
Definition update (C : DistMatrix nat) (op : Buf -> Buf) (st : State) : State :=
  {| store := fun id => if id =? Storage C then op (store st id) else store st id;
     trace := trace st |}.

(** Apply a buffer operation to a temporary. *)
Definition update_temp (D : DistMatrix Buf) (op : Buf -> Buf) : DistMatrix Buf :=
  {| ColDist := ColDist D;
     RowDist := RowDist D;
     GetGrid := GetGrid D;
     Height := Height D;
     Width := Width D;
     ColAlignment := ColAlignment D;
     RowAlignment := RowAlignment D;
     RowOff := RowOff D;
     ColOff := ColOff D;
     Storage := op (Storage D) |}.

Definition Scal (beta : T) (C : DistMatrix nat) (st : State) : State :=
  update C (Scal_buf beta C) (emit (EvScal beta (InStore C)) st).

Definition Gemm (alpha : T) (A B : DistMatrix Buf) (beta : T)
  (C : DistMatrix nat) (st : State) : State :=
  update C (Gemm_buf alpha A B beta C) (emit (EvGemm alpha A B beta (InStore C)) st).

Definition Gemm_temp (alpha : T) (A B : DistMatrix Buf) (beta : T)
  (D : DistMatrix Buf) (st : State) : DistMatrix Buf * State :=
  (update_temp D (Gemm_buf alpha A B beta D),
   emit (EvGemm alpha A B beta (InTemp D)) st).

Definition MakeTrapezoidal_temp (D : DistMatrix Buf) (st : State)
  : DistMatrix Buf * State :=
  (update_temp D (MakeTrapezoidal_buf D), emit (EvMakeTrapezoidal (InTemp D)) st).

Definition Axpy (alpha : T) (X : DistMatrix Buf) (Y : DistMatrix nat)
  (st : State) : State :=
  update Y (Axpy_buf alpha X Y) (emit (EvAxpy alpha X (InStore Y)) st).

(** A matrix declared over a grid and not yet sized: [DistMatrix<T,U,V> X(grid)]. *)
Definition declare (U V : Dist) (g : Grid) : DistMatrix Buf :=
  {| ColDist := U; RowDist := V; GetGrid := g; Height := 0; Width := 0;
     ColAlignment := 0; RowAlignment := 0; RowOff := 0; ColOff := 0;
     Storage := uninitialized |}.

(** Modelled from the spec: the redistribution [X = A] (design document, 4.2):
    [X] takes the shape of [A] and, for every global index, the value [A] has
    there; [X] keeps its own distribution and alignments. *)
Definition Assign {S : Type} (X : DistMatrix Buf) (A : DistMatrix S) (a : Buf)
  : DistMatrix Buf :=
  {| ColDist := ColDist X;
     RowDist := RowDist X;
     GetGrid := GetGrid X;
     Height := Height A;
     Width := Width A;
     ColAlignment := ColAlignment X;
     RowAlignment := RowAlignment X;
     RowOff := 0;
     ColOff := 0;
     Storage := fun i j => entry A a i j |}.

(** What the process with [VCRank() == 0] writes to [cerr]. *)
Definition report (g : Grid) (m : Message) : list Message :=
  if VCRank g =? 0 then [m] else [].

(** *** HerkUNUpdateKernel (HerkUN.cpp, lines 189-294) *)

(** The three checks under [#ifndef RELEASE] shared by [HerkUNUpdate] and
    [HerkUNUpdateKernel] (lines 100-140 and 200-240). *)
Definition update_checks (A_MC_Star A_MR_Star : DistMatrix Buf)
  (C : DistMatrix nat) : Outcome unit :=
  let grid := GetGrid C in
  if RELEASE then Ok tt
  else if negb (grid_eqb (GetGrid A_MC_Star) (GetGrid A_MR_Star)) ||
          negb (grid_eqb (GetGrid A_MR_Star) (GetGrid C))
  then Throw (report grid MsgSameGrid)
  else if negb (Height A_MC_Star =? Height C) ||
          negb (Height A_MR_Star =? Width C) ||
          negb (Height A_MC_Star =? Height A_MR_Star) ||
          negb (Width A_MC_Star =? Width A_MR_Star)
  then Throw (report grid
         (MsgNonconformalHerkUNUpdate (Height A_MC_Star) (Width A_MC_Star)
            (Height A_MR_Star) (Width A_MR_Star) (Height C) (Width C)))
  else if negb (ColAlignment A_MC_Star =? ColAlignment C) ||
          negb (ColAlignment A_MR_Star =? RowAlignment C)
  then Throw (report grid
         (MsgMisalignedHerkUNUpdate (ColAlignment A_MC_Star)
            (ColAlignment A_MR_Star) (ColAlignment C) (RowAlignment C)))
  else Ok tt.

Definition HerkUNUpdateKernel (alpha : T) (A_MC_Star A_MR_Star : DistMatrix Buf)
  (beta : T) (C : DistMatrix nat) (st : State) : Outcome State :=
  let st := emit (EvEnter RHerkUNUpdateKernel beta (Height C)) st in
  let grid := GetGrid C in
  _ <- update_checks A_MC_Star A_MR_Star C ;;
  let DTL := declare MC MR grid in
  let DBR := declare MC MR grid in
  let half := Height C / 2 in
  let st := Scal beta C st in
  let '(AT_MC_Star, AB_MC_Star) := LockedPartitionDown A_MC_Star half in
  let '(AT_MR_Star, AB_MR_Star) := LockedPartitionDown A_MR_Star half in
  let '((CTL, CTR), (CBL, CBR)) := PartitionDownDiagonal C half in
  let DTL := AlignWith DTL CTL in
  let DBR := AlignWith DBR CBR in
  let DTL := ResizeTo DTL (Height CTL) (Width CTL) in
  let DBR := ResizeTo DBR (Height CBR) (Width CBR) in
  let st := Gemm alpha AT_MC_Star AB_MR_Star one CTR st in
  let '(DTL, st) := Gemm_temp alpha AT_MC_Star AT_MR_Star zero DTL st in
  let '(DTL, st) := MakeTrapezoidal_temp DTL st in
  let st := Axpy one DTL CTL st in
  let '(DBR, st) := Gemm_temp alpha AB_MC_Star AB_MR_Star zero DBR st in
  let '(DBR, st) := MakeTrapezoidal_temp DBR st in
  let st := Axpy one DBR CBR st in
  Ok st.

(** *** HerkUNUpdate (HerkUN.cpp, lines 89-187) *)

Fixpoint HerkUNUpdate (fuel : nat) (alpha : T)
  (A_MC_Star A_MR_Star : DistMatrix Buf) (beta : T) (C : DistMatrix nat)
  (st : State) : Outcome State :=
  match fuel with
  | O => OutOfFuel
  | S fuel' =>
    let st := emit (EvEnter RHerkUNUpdate beta (Height C)) st in
    let grid := GetGrid C in
    _ <- update_checks A_MC_Star A_MR_Star C ;;
    if Height C <? 2 * GridWidth grid * Blocksize then
      HerkUNUpdateKernel alpha A_MC_Star A_MR_Star beta C st
    else
      let half := Height C / 2 in
      let '(AT_MC_Star, AB_MC_Star) := LockedPartitionDown A_MC_Star half in
      let '(AT_MR_Star, AB_MR_Star) := LockedPartitionDown A_MR_Star half in
      let '((CTL, CTR), (CBL, CBR)) := PartitionDownDiagonal C half in
      let st := Gemm alpha AT_MC_Star AB_MR_Star beta CTR st in
      st <- HerkUNUpdate fuel' alpha AT_MC_Star AT_MR_Star beta CTL st ;;
      HerkUNUpdate fuel' alpha AB_MC_Star AB_MR_Star beta CBR st
  end.

(** *** HerkUN (HerkUN.cpp, lines 23-87) *)

(** The checks of lines 33-52, compiled only without [RELEASE]. *)
Definition HerkUN_checks (A C : DistMatrix nat) : Outcome unit :=
  let grid := GetGrid A in
  if RELEASE then Ok tt
  else if negb (grid_eqb (GetGrid A) (GetGrid C))
  then Throw (report grid MsgSameGrid)
  else if negb (Height A =? Height C) || negb (Height A =? Width C)
  then Throw (report grid
         (MsgNonconformalHerkUN (Height A) (Width A) (Height C) (Width C)))
  else Ok tt.

(** The [while( AR.Width() > 0 )] loop of lines 64-83. *)
Fixpoint HerkUN_loop (fuel : nat) (alpha : T) (AL AR : DistMatrix nat)
  (C : DistMatrix nat) (st : State) : Outcome State :=
  if Width AR =? 0 then Ok st
  else
    match fuel with
    | O => OutOfFuel
    | S fuel' =>
      let grid := GetGrid AR in
      let '(A0, A1, A2) := LockedRepartitionRight Blocksize AL AR in
      let A1_MC_Star := AlignWith (declare MC Star grid) C in
      let A1_MR_Star := AlignWith (declare MR Star grid) C in
      let A1_MC_Star := Assign A1_MC_Star A1 (store st (Storage A1)) in
      let A1_MR_Star := Assign A1_MR_Star A1_MC_Star (Storage A1_MC_Star) in
      st <- HerkUNUpdate fuel alpha A1_MC_Star A1_MR_Star one C st ;;
      let '(AL, AR) := SlideLockedPartitionRight A0 A1 A2 in
      HerkUN_loop fuel' alpha AL AR C st
    end.

Definition HerkUN (fuel : nat) (alpha : T) (A : DistMatrix nat) (beta : T)
  (C : DistMatrix nat) (st : State) : Outcome State :=
  let st := emit (EvEnter RHerkUN beta (Height C)) st in
  _ <- HerkUN_checks A C ;;
  let st := Scal beta C st in
  let '(AL, AR) := LockedPartitionRight A in
  HerkUN_loop fuel alpha AL AR C st.

(** ** Elementary facts about windows, sums and the state *)

Lemma sum_n_ext (k : nat) (f g : nat -> T) :
  (forall t, t < k -> f t = g t) -> sum_n k f = sum_n k g.
Proof.
  induction k as [|k IH]; intros H; simpl; [reflexivity|].
  rewrite IH by (intros; apply H; lia). rewrite H by lia. reflexivity.
Qed.

Lemma sum_n_app (a b : nat) (f : nat -> T) :
  sum_n (a + b) f = add (sum_n a f) (sum_n b (fun t => f (a + t))).
Proof.
  induction b as [|b IH]; simpl.
  - rewrite Nat.add_0_r. ring.
  - rewrite Nat.add_succ_r. simpl. rewrite IH. ring.
Qed.

Lemma sum_n_zero (k : nat) (f : nat -> T) :
  (forall t, t < k -> f t = zero) -> sum_n k f = zero.
Proof.
  induction k as [|k IH]; intros H; simpl; [reflexivity|].
  rewrite IH by (intros; apply H; lia). rewrite H by lia. ring.
Qed.

Lemma store_emit (e : Event) (st : State) : store (emit e st) = store st.
Proof. reflexivity. Qed.

Lemma store_update_same (C : DistMatrix nat) (op : Buf -> Buf) (st : State) :
  store (update C op st) (Storage C) = op (store st (Storage C)).
Proof. simpl. rewrite Nat.eqb_refl. reflexivity. Qed.

Lemma store_update_other (C : DistMatrix nat) (op : Buf -> Buf) (st : State)
  (id : nat) :
  id <> Storage C -> store (update C op st) id = store st id.
Proof. intros H. simpl. apply Nat.eqb_neq in H. rewrite H. reflexivity. Qed.

Lemma modify_outside {S : Type} (M : DistMatrix S) f (b : Buf) (I J : nat) :
  inside M I J = false -> modify M f b I J = b I J.
Proof. intros H. unfold modify. rewrite H. reflexivity. Qed.

Lemma modify_inside {S : Type} (M : DistMatrix S) f (b : Buf) (I J : nat) :
  inside M I J = true ->
  modify M f b I J = f (I - RowOff M) (J - ColOff M) (b I J).
Proof. intros H. unfold modify. rewrite H. reflexivity. Qed.

(** The shape the update routines expect (what their checks test, and the
    distributions fixed by their types). *)
Record update_ready (A_MC_Star A_MR_Star : DistMatrix Buf) (C : DistMatrix nat)
  : Prop := {
  ur_grid_MC : GetGrid A_MC_Star = GetGrid C;
  ur_grid_MR : GetGrid A_MR_Star = GetGrid C;
  ur_dist_MC : ColDist A_MC_Star = MC;
  ur_dist_MR : ColDist A_MR_Star = MR;
  ur_dist_C : ColDist C = MC /\ RowDist C = MR;
  ur_height_MC : Height A_MC_Star = Height C;
  ur_height_MR : Height A_MR_Star = Height C;
  ur_square : Width C = Height C;
  ur_width : Width A_MC_Star = Width A_MR_Star;
  ur_align_MC : ColAlignment A_MC_Star = ColAlignment C;
  ur_align_MR : ColAlignment A_MR_Star = RowAlignment C
}.

Lemma update_checks_ok A_MC_Star A_MR_Star C :
  update_ready A_MC_Star A_MR_Star C ->
  update_checks A_MC_Star A_MR_Star C = Ok tt.
Proof.
  intros [g1 g2 _ _ _ h1 h2 sq w a1 a2].
  unfold update_checks. destruct RELEASE; [reflexivity|].
  rewrite g1, g2, !grid_eqb_refl. simpl.
  rewrite h1, h2, sq, w, a1, a2, !Nat.eqb_refl. reflexivity.
Qed.

(** The contribution of a panel to entry [(i, j)]. *)
Definition rank_k (alpha : T) (A B : DistMatrix Buf) (i j : nat) : T :=
  mul alpha (sum_n (Width A) (fun t => mul (Get A i t) (Conj (Get B j t)))).

Definition Centry (C : DistMatrix nat) (st : State) (i j : nat) : T :=
  entry C (store st (Storage C)) i j.


Lemma store_update_view (V : DistMatrix nat) (op : Buf -> Buf) (st : State)
  (id : nat) :
  Storage V = id -> store (update V op st) id = op (store st id).
Proof. intros <-. apply store_update_same. Qed.

Lemma modify_at {S : Type} (M : DistMatrix S) f (b : Buf) (I J i j : nat) :
  I = RowOff M + i -> J = ColOff M + j -> i < Height M -> j < Width M ->
  modify M f b I J = f i j (b I J).
Proof.
  intros -> -> Hi Hj. rewrite modify_inside by (apply inside_true; lia).
  f_equal; lia.
Qed.

Lemma Get_View (A : DistMatrix Buf) (r c h w i j : nat) :
  Get (View A r c h w) i j = Get A (r + i) (c + j).
Proof. unfold Get, entry; simpl. f_equal; lia. Qed.

Lemma rank_k_View alpha (A B : DistMatrix Buf) (r r' h h' i j : nat) :
  rank_k alpha (View A r 0 h (Width A)) (View B r' 0 h' (Width B)) i j =
  rank_k alpha A B (r + i) (r' + j).
Proof.
  unfold rank_k. simpl Width. f_equal. apply sum_n_ext; intros t _.
  rewrite !Get_View. reflexivity.
Qed.

(** A temporary filled by a multiply with [beta = 0] and then masked: what it
    held before does not matter. *)
Lemma temp_block alpha (A B D : DistMatrix Buf) (i j : nat) :
  RowOff D = 0 -> ColOff D = 0 -> i < Height D -> j < Width D ->
  Get (update_temp (update_temp D (Gemm_buf alpha A B zero D))
         (MakeTrapezoidal_buf (update_temp D (Gemm_buf alpha A B zero D)))) i j =
  if j <? i then zero else rank_k alpha A B i j.
Proof.
  intros Hr Hc Hi Hj. unfold Get, entry; simpl.
  unfold MakeTrapezoidal_buf.
  rewrite (@modify_at _ _ _ _ _ _ i j) by (simpl; lia).
  destruct (j <? i); [reflexivity|].
  unfold Gemm_buf.
  rewrite (@modify_at _ _ _ _ _ _ i j) by (simpl; lia).
  unfold rank_k. ring.
Qed.


Lemma Scal_buf_at {S : Type} beta (X : DistMatrix S) (b : Buf) (I J i j : nat) :
  I = RowOff X + i -> J = ColOff X + j -> i < Height X -> j < Width X ->
  Scal_buf beta X b I J = mul beta (b I J).
Proof. intros; unfold Scal_buf; rewrite (@modify_at _ _ _ _ _ _ i j); auto. Qed.

Lemma Gemm_buf_at {S : Type} alpha A B beta (C : DistMatrix S) (b : Buf)
  (I J i j : nat) :
  I = RowOff C + i -> J = ColOff C + j -> i < Height C -> j < Width C ->
  Gemm_buf alpha A B beta C b I J = add (rank_k alpha A B i j) (mul beta (b I J)).
Proof. intros; unfold Gemm_buf; rewrite (@modify_at _ _ _ _ _ _ i j); auto. Qed.

Lemma Axpy_buf_at {S : Type} alpha X (Y : DistMatrix S) (b : Buf)
  (I J i j : nat) :
  I = RowOff Y + i -> J = ColOff Y + j -> i < Height Y -> j < Width Y ->
  Axpy_buf alpha X Y b I J = add (mul alpha (Get X i j)) (b I J).
Proof. intros; unfold Axpy_buf; rewrite (@modify_at _ _ _ _ _ _ i j); auto. Qed.

Lemma Gemm_buf_outside {S : Type} alpha A B beta (C : DistMatrix S) (b : Buf)
  (I J : nat) :
  inside C I J = false -> Gemm_buf alpha A B beta C b I J = b I J.
Proof. apply modify_outside. Qed.

Lemma Axpy_buf_outside {S : Type} alpha X (Y : DistMatrix S) (b : Buf)
  (I J : nat) :
  inside Y I J = false -> Axpy_buf alpha X Y b I J = b I J.
Proof. apply modify_outside. Qed.

Lemma Scal_buf_outside {S : Type} beta (X : DistMatrix S) (b : Buf) (I J : nat) :
  inside X I J = false -> Scal_buf beta X b I J = b I J.
Proof. apply modify_outside. Qed.

Lemma kernel_spec alpha A_MC_Star A_MR_Star beta C st :
  update_ready A_MC_Star A_MR_Star C ->
  exists st',
    HerkUNUpdateKernel alpha A_MC_Star A_MR_Star beta C st = Ok st' /\
    (forall id, id <> Storage C -> store st' id = store st id) /\
    (forall I J, inside C I J = false ->
       store st' (Storage C) I J = store st (Storage C) I J) /\
    (forall i j, i < Height C -> j < Height C ->
       Centry C st' i j =
       if j <? i then mul beta (Centry C st i j)
       else add (rank_k alpha A_MC_Star A_MR_Star i j) (mul beta (Centry C st i j))).
Proof.
  intros R. unfold HerkUNUpdateKernel.
  rewrite (update_checks_ok R). cbn [bind]. cbv zeta.
  destruct R as [g1 g2 d1 d2 [d3 d4] h1 h2 sq w a1 a2].
  unfold LockedPartitionDown, PartitionDownDiagonal, Gemm_temp, MakeTrapezoidal_temp.
  rewrite h1, h2, sq.
  assert (Hh : Height C / 2 <= Height C) by (apply Nat.Div0.div_le_upper_bound; lia).
  rewrite !Nat.min_id, !(Nat.min_l _ _ Hh).
  set (h := Height C / 2) in *. set (m := Height C) in *.
  match goal with
  | |- context [Axpy one ?D (View C 0 0 h h)] => set (DTL := D)
  end.
  match goal with
  | |- context [Axpy one ?D (View C h h (m - h) (m - h))] => set (DBR := D)
  end.
  assert (HDTL : forall i j, i < h -> j < h ->
            Get DTL i j = if j <? i then zero
                          else rank_k alpha A_MC_Star A_MR_Star i j).
  { intros i j Hi Hj. unfold DTL. rewrite temp_block by (simpl; lia).
    rewrite rank_k_View. reflexivity. }
  assert (HDBR : forall i j, i < m - h -> j < m - h ->
            Get DBR i j = if j <? i then zero
                          else rank_k alpha A_MC_Star A_MR_Star (h + i) (h + j)).
  { intros i j Hi Hj. unfold DBR. rewrite temp_block by (simpl; lia).
    rewrite rank_k_View. reflexivity. }
  clearbody DTL DBR.
  eexists; split; [reflexivity|].
  unfold Axpy, Gemm, Scal.
  split; [|split].
  - intros id Hid.
    repeat (rewrite store_emit || rewrite store_update_other by (simpl; exact Hid)).
    reflexivity.
  - intros I J HIJ.
    repeat (rewrite store_emit || rewrite store_update_view by reflexivity).
    apply Bool.not_true_iff_false in HIJ. rewrite inside_iff in HIJ.
    unfold Axpy_buf, Gemm_buf, Scal_buf.
    rewrite !modify_outside; [reflexivity | apply inside_false; simpl; lia ..].
  - intros i j Hi Hj. unfold Centry, entry.
    repeat (rewrite store_emit || rewrite store_update_view by reflexivity).
    destruct (Nat.ltb_spec i h) as [Hih|Hih];
      destruct (Nat.ltb_spec j h) as [Hjh|Hjh].
    + rewrite Axpy_buf_outside by (apply inside_false; simpl; lia).
      rewrite (@Axpy_buf_at _ _ _ _ _ _ _ i j) by (simpl; lia).
      rewrite Gemm_buf_outside by (apply inside_false; simpl; lia).
      rewrite (@Scal_buf_at _ _ _ _ _ _ i j) by (simpl; lia).
      rewrite HDTL by lia. destruct (j <? i); ring.
    + rewrite Axpy_buf_outside by (apply inside_false; simpl; lia).
      rewrite Axpy_buf_outside by (apply inside_false; simpl; lia).
      rewrite (@Gemm_buf_at _ _ _ _ _ _ _ _ _ i (j - h)) by (simpl; lia).
      rewrite (@Scal_buf_at _ _ _ _ _ _ i j) by (simpl; lia).
      rewrite rank_k_View.
      replace (h + (j - h)) with j by lia.
      destruct (Nat.ltb_spec j i); [lia|]. simpl. ring.
    + rewrite Axpy_buf_outside by (apply inside_false; simpl; lia).
      rewrite Axpy_buf_outside by (apply inside_false; simpl; lia).
      rewrite Gemm_buf_outside by (apply inside_false; simpl; lia).
      rewrite (@Scal_buf_at _ _ _ _ _ _ i j) by (simpl; lia).
      destruct (Nat.ltb_spec j i); [reflexivity|lia].
    + rewrite (@Axpy_buf_at _ _ _ _ _ _ _ (i - h) (j - h)) by (simpl; lia).
      rewrite Axpy_buf_outside by (apply inside_false; simpl; lia).
      rewrite Gemm_buf_outside by (apply inside_false; simpl; lia).
      rewrite (@Scal_buf_at _ _ _ _ _ _ i j) by (simpl; lia).
      rewrite HDBR by lia.
      replace (h + (i - h)) with i by lia.
      replace (h + (j - h)) with j by lia.
      destruct (Nat.ltb_spec (j - h) (i - h));
        destruct (Nat.ltb_spec j i); try lia; ring.
Qed.


Lemma Centry_View (C : DistMatrix nat) (st : State) (r c h w i j : nat) :
  Centry (View C r c h w) st i j = Centry C st (r + i) (c + j).
Proof. unfold Centry, entry; simpl. f_equal; lia. Qed.

Lemma update_ready_top A_MC_Star A_MR_Star C (h : nat) :
  update_ready A_MC_Star A_MR_Star C ->
  update_ready (View A_MC_Star 0 0 h (Width A_MC_Star))
               (View A_MR_Star 0 0 h (Width A_MR_Star))
               (View C 0 0 h h).
Proof.
  intros [g1 g2 d1 d2 [d3 d4] h1 h2 sq w a1 a2].
  constructor; simpl; auto; congruence.
Qed.

Lemma update_ready_bottom A_MC_Star A_MR_Star C (h n : nat) :
  update_ready A_MC_Star A_MR_Star C ->
  update_ready (View A_MC_Star h 0 n (Width A_MC_Star))
               (View A_MR_Star h 0 n (Width A_MR_Star))
               (View C h h n n).
Proof.
  intros [g1 g2 d1 d2 [d3 d4] h1 h2 sq w a1 a2].
  constructor; simpl; auto; congruence.
Qed.

Lemma HerkUNUpdate_S fuel alpha A_MC_Star A_MR_Star beta C st :
  HerkUNUpdate (S fuel) alpha A_MC_Star A_MR_Star beta C st =
  let st := emit (EvEnter RHerkUNUpdate beta (Height C)) st in
  _ <- update_checks A_MC_Star A_MR_Star C ;;
  if Height C <? 2 * GridWidth (GetGrid C) * Blocksize then
    HerkUNUpdateKernel alpha A_MC_Star A_MR_Star beta C st
  else
    let half := Height C / 2 in
    let '(AT_MC_Star, AB_MC_Star) := LockedPartitionDown A_MC_Star half in
    let '(AT_MR_Star, AB_MR_Star) := LockedPartitionDown A_MR_Star half in
    let '((CTL, CTR), (CBL, CBR)) := PartitionDownDiagonal C half in
    let st := Gemm alpha AT_MC_Star AB_MR_Star beta CTR st in
    st <- HerkUNUpdate fuel alpha AT_MC_Star AT_MR_Star beta CTL st ;;
    HerkUNUpdate fuel alpha AB_MC_Star AB_MR_Star beta CBR st.
Proof. reflexivity. Qed.

Lemma update_spec (fuel : nat) :
  forall alpha A_MC_Star A_MR_Star beta C st,
  0 < Blocksize -> 0 < GridWidth (GetGrid C) ->
  update_ready A_MC_Star A_MR_Star C ->
  Height C < fuel ->
  exists st',
    HerkUNUpdate fuel alpha A_MC_Star A_MR_Star beta C st = Ok st' /\
    (forall id, id <> Storage C -> store st' id = store st id) /\
    (forall I J, inside C I J = false ->
       store st' (Storage C) I J = store st (Storage C) I J) /\
    (forall i j, i <= j -> j < Height C ->
       Centry C st' i j =
       add (rank_k alpha A_MC_Star A_MR_Star i j) (mul beta (Centry C st i j))) /\
    (forall i j, j < i -> i < Height C ->
       Centry C st' i j = Centry C st i j \/
       Centry C st' i j = mul beta (Centry C st i j)).
Proof.
  induction fuel as [|fuel IH]; intros alpha A_MC_Star A_MR_Star beta C st
    Hnb Hgw R Hfuel; [lia|].
  rewrite HerkUNUpdate_S. cbv zeta. rewrite (update_checks_ok R). cbn [bind].
  destruct (Nat.ltb_spec (Height C) (2 * GridWidth (GetGrid C) * Blocksize))
    as [Hsmall|Hbig].
  - destruct (kernel_spec alpha beta
                (emit (EvEnter RHerkUNUpdate beta (Height C)) st) R)
      as (st' & E & F1 & F2 & F3).
    exists st'. split; [exact E|]. split; [exact F1|]. split; [exact F2|].
    split.
    + intros i j Hij Hj. rewrite F3 by lia.
      destruct (Nat.ltb_spec j i); [lia|]. reflexivity.
    + intros i j Hij Hi. right. rewrite F3 by lia.
      destruct (Nat.ltb_spec j i); [|lia]. reflexivity.
  - pose proof R as [g1 g2 d1 d2 [d3 d4] h1 h2 sq w a1 a2].
    unfold LockedPartitionDown, PartitionDownDiagonal.
    rewrite h1, h2, sq.
    assert (Hm : 2 <= Height C) by nia.
    assert (Hh : Height C / 2 <= Height C)
      by (apply Nat.Div0.div_le_upper_bound; lia).
    assert (Hh0 : 0 < Height C / 2) by (apply Nat.div_str_pos; lia).
    assert (Hh1 : Height C / 2 < Height C) by (apply Nat.div_lt; lia).
    rewrite !Nat.min_id, !(Nat.min_l _ _ Hh).
    set (h := Height C / 2) in *. set (m := Height C) in *.
    set (st1 := Gemm alpha _ _ beta _ _).
    destruct (IH alpha (View A_MC_Star 0 0 h (Width A_MC_Star))
                 (View A_MR_Star 0 0 h (Width A_MR_Star)) beta
                 (View C 0 0 h h) st1)
      as (st2 & E2 & F21 & F22 & F23 & F24);
      [exact Hnb | exact Hgw | apply update_ready_top; exact R | simpl; lia |].
    rewrite E2. cbn [bind].
    destruct (IH alpha (View A_MC_Star h 0 (m - h) (Width A_MC_Star))
                 (View A_MR_Star h 0 (m - h) (Width A_MR_Star)) beta
                 (View C h h (m - h) (m - h)) st2)
      as (st3 & E3 & F31 & F32 & F33 & F34);
      [exact Hnb | exact Hgw | apply update_ready_bottom; exact R | simpl; lia |].
    rewrite E3. exists st3. split; [reflexivity|].
    simpl Storage in *. simpl Height in *.
    assert (S1 : forall id, id <> Storage C -> store st1 id = store st id).
    { intros id Hid. unfold st1, Gemm.
      rewrite store_update_other by (simpl; exact Hid). reflexivity. }
    assert (B1 : forall I J, store st1 (Storage C) I J =
              Gemm_buf alpha (View A_MC_Star 0 0 h (Width A_MC_Star))
                (View A_MR_Star h 0 (m - h) (Width A_MR_Star)) beta
                (View C 0 h h (m - h)) (store st (Storage C)) I J).
    { intros I J. unfold st1, Gemm.
      rewrite store_update_view by reflexivity. reflexivity. }
    clearbody st1.
    split; [|split; [|split]].
    + intros id Hid. rewrite F31, F21, S1 by exact Hid. reflexivity.
    + intros I J HIJ.
      apply Bool.not_true_iff_false in HIJ. rewrite inside_iff in HIJ.
      rewrite F32 by (apply inside_false; simpl; lia).
      rewrite F22 by (apply inside_false; simpl; lia).
      rewrite B1. apply Gemm_buf_outside. apply inside_false; simpl; lia.
    + intros i j Hij Hj. unfold Centry, entry.
      destruct (Nat.ltb_spec j h) as [Hjh|Hjh].
      * (* top-left *)
        rewrite F32 by (apply inside_false; simpl; lia).
        specialize (F23 i j Hij Hjh). rewrite rank_k_View in F23.
        unfold Centry, entry in F23; simpl in F23.
        rewrite !Nat.add_0_r in F23. rewrite F23.
        rewrite B1, Gemm_buf_outside by (apply inside_false; simpl; lia).
        reflexivity.
      * destruct (Nat.ltb_spec i h) as [Hih|Hih].
        -- (* top-right *)
           rewrite F32 by (apply inside_false; simpl; lia).
           rewrite F22 by (apply inside_false; simpl; lia).
           rewrite B1.
           rewrite (@Gemm_buf_at _ _ _ _ _ _ _ _ _ i (j - h)) by (simpl; lia).
           rewrite rank_k_View. replace (h + (j - h)) with j by lia.
           reflexivity.
        -- (* bottom-right *)
           assert (Hij' : i - h <= j - h) by lia.
           assert (Hj' : j - h < m - h) by lia.
           specialize (F33 (i - h) (j - h) Hij' Hj').
           rewrite rank_k_View in F33.
           replace (h + (i - h)) with i in F33 by lia.
           replace (h + (j - h)) with j in F33 by lia.
           unfold Centry, entry in F33; simpl in F33.
           replace (RowOff C + h + (i - h)) with (RowOff C + i) in F33 by lia.
           replace (ColOff C + h + (j - h)) with (ColOff C + j) in F33 by lia.
           rewrite F33.
           rewrite F22 by (apply inside_false; simpl; lia).
           rewrite B1, Gemm_buf_outside by (apply inside_false; simpl; lia).
           reflexivity.
    + intros i j Hji Hi. unfold Centry, entry.
      destruct (Nat.ltb_spec i h) as [Hih|Hih].
      * (* top-left *)
        rewrite F32 by (apply inside_false; simpl; lia).
        specialize (F24 i j Hji Hih).
        unfold Centry, entry in F24; simpl in F24.
        rewrite !Nat.add_0_r in F24.
        rewrite B1, Gemm_buf_outside in F24 by (apply inside_false; simpl; lia).
        exact F24.
      * destruct (Nat.ltb_spec j h) as [Hjh|Hjh].
        -- (* bottom-left: written by nothing on this path *)
           left.
           rewrite F32 by (apply inside_false; simpl; lia).
           rewrite F22 by (apply inside_false; simpl; lia).
           rewrite B1, Gemm_buf_outside by (apply inside_false; simpl; lia).
           reflexivity.
        -- (* bottom-right *)
           assert (Hji' : j - h < i - h) by lia.
           assert (Hi' : i - h < m - h) by lia.
           specialize (F34 (i - h) (j - h) Hji' Hi').
           unfold Centry, entry in F34; simpl in F34.
           replace (RowOff C + h + (i - h)) with (RowOff C + i) in F34 by lia.
           replace (ColOff C + h + (j - h)) with (ColOff C + j) in F34 by lia.
           rewrite F22 in F34 by (apply inside_false; simpl; lia).
           rewrite B1, Gemm_buf_outside in F34 by (apply inside_false; simpl; lia).
           exact F34.
Qed.

(** What [HerkUN] expects of its arguments: both are [MC,MR] matrices over
    one grid, conformal, and they do not share storage. *)
Record herk_ready (A C : DistMatrix nat) : Prop := {
  hr_grid : GetGrid A = GetGrid C;
  hr_dist_C : ColDist C = MC /\ RowDist C = MR;
  hr_height : Height A = Height C;
  hr_square : Width C = Height C;
  hr_noalias : Storage A <> Storage C
}.

Lemma herk_checks_ok (A C : DistMatrix nat) :
  GetGrid A = GetGrid C -> Height A = Height C -> Height A = Width C ->
  HerkUN_checks A C = Ok tt.
Proof.
  intros g h w. unfold HerkUN_checks. destruct RELEASE; [reflexivity|].
  rewrite g, grid_eqb_refl. simpl.
  rewrite <- w, <- h, !Nat.eqb_refl. reflexivity.
Qed.

(** The panel [A1] as redistributed into [A1[MC,*]] and [A1[MR,*]]. *)
Definition panel_MC (AR C : DistMatrix nat) (st : State) : DistMatrix Buf :=
  let A1 := View AR 0 0 (Height AR) (Nat.min Blocksize (Width AR)) in
  Assign (AlignWith (declare MC Star (GetGrid AR)) C) A1 (store st (Storage A1)).

Definition panel_MR (AR C : DistMatrix nat) (st : State) : DistMatrix Buf :=
  let A1_MC_Star := panel_MC AR C st in
  Assign (AlignWith (declare MR Star (GetGrid AR)) C) A1_MC_Star
         (Storage A1_MC_Star).

Lemma panel_ready (AR C : DistMatrix nat) (st : State) :
  herk_ready AR C -> update_ready (panel_MC AR C st) (panel_MR AR C st) C.
Proof.
  intros [g [d3 d4] h sq na].
  constructor; simpl; auto.
  - rewrite d3. reflexivity.
  - rewrite d3, d4. reflexivity.
Qed.

Lemma rank_k_panel alpha (AR C : DistMatrix nat) (st : State) (i j : nat) :
  rank_k alpha (panel_MC AR C st) (panel_MR AR C st) i j =
  mul alpha (sum_n (Nat.min Blocksize (Width AR))
    (fun t => mul (entry AR (store st (Storage AR)) i t)
                  (Conj (entry AR (store st (Storage AR)) j t)))).
Proof.
  unfold rank_k. simpl Width. f_equal. apply sum_n_ext; intros t _.
  unfold Get, panel_MR, panel_MC, Assign; repeat (unfold entry; simpl).
  rewrite ?Nat.add_0_r. reflexivity.
Qed.

Lemma HerkUN_loop_S fuel alpha AL AR C st :
  HerkUN_loop (S fuel) alpha AL AR C st =
  if Width AR =? 0 then Ok st
  else
    st <- HerkUNUpdate (S fuel) alpha (panel_MC AR C st) (panel_MR AR C st)
            one C st ;;
    HerkUN_loop fuel alpha
      (View AL 0 0 (Height AL)
         (Width AL + Nat.min Blocksize (Width AR)))
      (View AR 0 (Nat.min Blocksize (Width AR)) (Height AR)
         (Width AR - Nat.min Blocksize (Width AR))) C st.
Proof. reflexivity. Qed.

Lemma loop_spec (fuel : nat) :
  forall alpha AL AR C st,
  0 < Blocksize -> 0 < GridWidth (GetGrid C) ->
  herk_ready AR C ->
  Width AR + Height C < fuel ->
  exists st',
    HerkUN_loop fuel alpha AL AR C st = Ok st' /\
    (forall id, id <> Storage C -> store st' id = store st id) /\
    (forall I J, inside C I J = false ->
       store st' (Storage C) I J = store st (Storage C) I J) /\
    (forall i j, i <= j -> j < Height C ->
       Centry C st' i j =
       add (mul alpha (sum_n (Width AR)
              (fun t => mul (entry AR (store st (Storage AR)) i t)
                            (Conj (entry AR (store st (Storage AR)) j t)))))
           (Centry C st i j)) /\
    (forall i j, j < i -> i < Height C -> Centry C st' i j = Centry C st i j).
Proof.
  induction fuel as [|fuel IH]; intros alpha AL AR C st Hnb Hgw R Hfuel; [lia|].
  rewrite HerkUN_loop_S.
  destruct (Nat.eqb_spec (Width AR) 0) as [Hw|Hw].
  - exists st. split; [reflexivity|]. split; [reflexivity|].
    split; [reflexivity|]. split; [|reflexivity].
    intros i j _ _. rewrite Hw. simpl. ring.
  - destruct (@update_spec (S fuel) alpha (panel_MC AR C st) (panel_MR AR C st)
                one C st Hnb Hgw (panel_ready st R))
      as (st1 & E1 & F11 & F12 & F13 & F14); [lia|].
    rewrite E1. cbn [bind].
    set (b := Nat.min Blocksize (Width AR)) in *.
    assert (Hb : 0 < b <= Width AR) by (unfold b; lia).
    pose proof R as [g [d3 d4] h sq na].
    destruct (IH alpha (View AL 0 0 (Height AL) (Width AL + b))
                (View AR 0 b (Height AR) (Width AR - b)) C st1)
      as (st2 & E2 & F21 & F22 & F23 & F24);
      [exact Hnb | exact Hgw | constructor; simpl; auto | simpl; lia |].
    rewrite E2. exists st2. split; [reflexivity|].
    simpl Storage in *. simpl Width in *.
    split; [|split; [|split]].
    + intros id Hid. rewrite F21, F11 by exact Hid. reflexivity.
    + intros I J HIJ. rewrite F22, F12 by exact HIJ. reflexivity.
    + intros i j Hij Hj. rewrite F23, F13 by assumption.
      rewrite rank_k_panel. fold b.
      rewrite (F11 _ na).
      assert (Ex : forall r t, entry (View AR 0 b (Height AR) (Width AR - b))
                                 (store st (Storage AR)) r t =
                               entry AR (store st (Storage AR)) r (b + t)).
      { intros r t. unfold entry; simpl. f_equal; lia. }
      rewrite (@sum_n_ext (Width AR - b) _
                 (fun t => mul (entry AR (store st (Storage AR)) i (b + t))
                     (Conj (entry AR (store st (Storage AR)) j (b + t)))))
        by (intros t _; rewrite !Ex; reflexivity).
      set (F := fun t => mul (entry AR (store st (Storage AR)) i t)
                     (Conj (entry AR (store st (Storage AR)) j t))).
      assert (Hs : sum_n (Width AR) F =
                   add (sum_n b F) (sum_n (Width AR - b) (fun t => F (b + t)))).
      { rewrite <- sum_n_app. f_equal. lia. }
      rewrite Hs. unfold F. ring.
    + intros i j Hji Hi. rewrite F24 by assumption.
      destruct (F14 i j Hji Hi) as [-> | ->]; [reflexivity | ring].
Qed.

Lemma herk_spec (fuel : nat) alpha A beta C st :
  0 < Blocksize -> 0 < GridWidth (GetGrid C) ->
  herk_ready A C ->
  Width A + Height C < fuel ->
  exists st',
    HerkUN fuel alpha A beta C st = Ok st' /\
    (forall id, id <> Storage C -> store st' id = store st id) /\
    (forall I J, inside C I J = false ->
       store st' (Storage C) I J = store st (Storage C) I J) /\
    (forall i j, i <= j -> j < Height C ->
       Centry C st' i j =
       add (mul beta (Centry C st i j))
           (mul alpha (sum_n (Width A)
              (fun t => mul (entry A (store st (Storage A)) i t)
                            (Conj (entry A (store st (Storage A)) j t)))))) /\
    (forall i j, j < i -> i < Height C ->
       Centry C st' i j = mul beta (Centry C st i j)).
Proof.
  intros Hnb Hgw R Hfuel. pose proof R as [g [d3 d4] h sq na].
  unfold HerkUN. cbv zeta.
  rewrite herk_checks_ok by congruence. cbn [bind].
  unfold LockedPartitionRight.
  set (st0 := Scal beta C _).
  assert (R' : herk_ready (View A 0 0 (Height A) (Width A)) C)
    by (constructor; simpl; auto).
  destruct (@loop_spec fuel alpha (View A 0 0 (Height A) 0)
              (View A 0 0 (Height A) (Width A)) C st0 Hnb Hgw R')
    as (st' & E & F1 & F2 & F3 & F4); [simpl; lia|].
  exists st'. split; [exact E|].
  assert (S0 : forall id, id <> Storage C -> store st0 id = store st id).
  { intros id Hid. unfold st0, Scal.
    rewrite store_update_other by exact Hid. reflexivity. }
  assert (B0 : forall I J, store st0 (Storage C) I J =
                           Scal_buf beta C (store st (Storage C)) I J).
  { intros I J. unfold st0, Scal. rewrite store_update_same. reflexivity. }
  clearbody st0. simpl Storage in *. simpl Width in *.
  split; [|split; [|split]].
  - intros id Hid. rewrite F1, S0 by exact Hid. reflexivity.
  - intros I J HIJ. rewrite F2, B0 by exact HIJ.
    apply Scal_buf_outside; exact HIJ.
  - intros i j Hij Hj. rewrite F3 by assumption.
    rewrite (S0 _ na).
    unfold Centry at 1. unfold entry at 3. rewrite B0.
    rewrite (@Scal_buf_at _ _ _ _ _ _ i j) by lia.
    rewrite (@sum_n_ext (Width A) _
               (fun t => mul (entry A (store st (Storage A)) i t)
                             (Conj (entry A (store st (Storage A)) j t)))).
    + unfold Centry, entry. ring.
    + intros t _. unfold entry; simpl. rewrite !Nat.add_0_r. reflexivity.
  - intros i j Hji Hi. rewrite F4 by assumption.
    unfold Centry, entry. rewrite B0.
    apply (@Scal_buf_at _ _ _ _ _ _ i j); lia.
Qed.

(** ** The trace of calls *)

Definition target_shape (t : Target) : nat * nat :=
  match t with
  | InStore C => (Height C, Width C)
  | InTemp D => (Height D, Width D)
  end.

Definition in_store (t : Target) : bool :=
  match t with InStore _ => true | InTemp _ => false end.

(** The shape of an event: which operation, on a target of which size. *)
Inductive Shape : Type :=
| SEnter (r : Routine) (height : nat)
| SScal (inStore : bool) (h w : nat)
| SGemm (inStore : bool) (h w k : nat)
| SMakeTrapezoidal (inStore : bool) (h w : nat)
| SAxpy (inStore : bool) (h w : nat).

Definition shape (e : Event) : Shape :=
  match e with
  | EvEnter r _ m => SEnter r m
  | EvScal _ X => SScal (in_store X) (fst (target_shape X)) (snd (target_shape X))
  | EvGemm _ A _ _ C =>
      SGemm (in_store C) (fst (target_shape C)) (snd (target_shape C)) (Width A)
  | EvMakeTrapezoidal X =>
      SMakeTrapezoidal (in_store X) (fst (target_shape X)) (snd (target_shape X))
  | EvAxpy _ _ Y => SAxpy (in_store Y) (fst (target_shape Y)) (snd (target_shape Y))
  end.

(** The sizes of the products computed, in order. *)
Fixpoint gemm_shapes (tr : list Shape) : list (nat * nat) :=
  match tr with
  | [] => []
  | SGemm _ h w _ :: tr' => (h, w) :: gemm_shapes tr'
  | _ :: tr' => gemm_shapes tr'
  end.

(** How often the update routine and its kernel were entered. *)
Fixpoint entries (tr : list Shape) : nat * nat :=
  match tr with
  | [] => (0, 0)
  | SEnter RHerkUNUpdate _ :: tr' => (S (fst (entries tr')), snd (entries tr'))
  | SEnter RHerkUNUpdateKernel _ :: tr' => (fst (entries tr'), S (snd (entries tr')))
  | _ :: tr' => entries tr'
  end.

(** The factor by which an event multiplies what the caller's matrix holds:
    the [beta] handed to an update routine, the factor of a [Scal], the
    [beta] of a [Gemm] on a view of the caller's matrix. *)
Definition rescale (e : Event) : option T :=
  match e with
  | EvEnter RHerkUNUpdate b _ | EvEnter RHerkUNUpdateKernel b _ => Some b
  | EvScal b (InStore _) => Some b
  | EvGemm _ _ _ b (InStore _) => Some b
  | _ => None
  end.

Definition rescales_by (beta : T) (e : Event) : Prop :=
  forall b, rescale e = Some b -> b = beta \/ b = one.

Lemma trace_emit (e : Event) (st : State) : trace (emit e st) = trace st ++ [e].
Proof. reflexivity. Qed.

Lemma trace_update C op st : trace (update C op st) = trace st.
Proof. reflexivity. Qed.

(** The events of one run of the kernel. *)
Lemma kernel_trace alpha A_MC_Star A_MR_Star beta C st st' :
  HerkUNUpdateKernel alpha A_MC_Star A_MR_Star beta C st = Ok st' ->
  exists evs,
    trace st' = trace st ++ evs /\
    Forall (rescales_by beta) evs /\
    map shape evs =
      (let m := Height C in
       let n := Width C in
       let h := Nat.min (m / 2) (Nat.min m n) in
       let k := Width A_MC_Star in
       [ SEnter RHerkUNUpdateKernel m;
         SScal true m n;
         SGemm true h (n - h) k;
         SGemm false h h k;
         SMakeTrapezoidal false h h;
         SAxpy true h h;
         SGemm false (m - h) (n - h) k;
         SMakeTrapezoidal false (m - h) (n - h);
         SAxpy true (m - h) (n - h) ]).
Proof.
  unfold HerkUNUpdateKernel. cbv zeta.
  destruct (update_checks A_MC_Star A_MR_Star C) as [[]| |]; cbn [bind];
    [|discriminate..].
  intros E. injection E as <-.
  set (half := Height C / 2).
  unfold Axpy, Gemm, Scal, Gemm_temp, MakeTrapezoidal_temp,
    LockedPartitionDown, PartitionDownDiagonal.
  cbn iota beta.
  repeat (rewrite trace_update || rewrite trace_emit).
  rewrite <- !app_assoc.
  eexists; split; [reflexivity|]. split.
  - cbn [app].
    repeat (apply Forall_cons; [intros b Hb; simpl in Hb; inversion Hb; auto|]).
    apply Forall_nil.
  - reflexivity.
Qed.

Lemma update_trace (fuel : nat) :
  forall alpha A_MC_Star A_MR_Star beta C st st',
  HerkUNUpdate fuel alpha A_MC_Star A_MR_Star beta C st = Ok st' ->
  exists evs, trace st' = trace st ++ evs /\ Forall (rescales_by beta) evs.
Proof.
  induction fuel as [|fuel IH]; intros alpha A_MC_Star A_MR_Star beta C st st';
    [discriminate|].
  rewrite HerkUNUpdate_S. cbv zeta.
  destruct (update_checks A_MC_Star A_MR_Star C) as [[]| |]; cbn [bind];
    [|discriminate..].
  destruct (Height C <? 2 * GridWidth (GetGrid C) * Blocksize).
  - intros E. apply kernel_trace in E. destruct E as (evs & E & F & _).
    rewrite trace_emit, <- app_assoc in E.
    eexists; split; [exact E|].
    constructor; [|exact F].
    intros b Hb; simpl in Hb; inversion Hb; auto.
  - destruct (LockedPartitionDown A_MC_Star (Height C / 2)) as [AT_MC AB_MC].
    destruct (LockedPartitionDown A_MR_Star (Height C / 2)) as [AT_MR AB_MR].
    destruct (PartitionDownDiagonal C (Height C / 2)) as [[CTL CTR] [CBL CBR]].
    destruct (HerkUNUpdate fuel alpha AT_MC AT_MR beta CTL _) as [st1| |] eqn:E1;
      cbn [bind]; [|discriminate..].
    intros E2.
    apply IH in E1. destruct E1 as (evs1 & E1 & F1).
    apply IH in E2. destruct E2 as (evs2 & E2 & F2).
    unfold Gemm in E1. rewrite trace_update, !trace_emit in E1.
    rewrite E2, E1, <- !app_assoc.
    eexists; split; [reflexivity|].
    cbn [app]. constructor; [|constructor; [|apply Forall_app; split; assumption]];
      intros b Hb; simpl in Hb; inversion Hb; auto.
Qed.

Lemma loop_trace (fuel : nat) :
  forall alpha AL AR C st st',
  HerkUN_loop fuel alpha AL AR C st = Ok st' ->
  exists evs, trace st' = trace st ++ evs /\
    Forall (fun e => forall b, rescale e = Some b -> b = one) evs.
Proof.
  induction fuel as [|fuel IH]; intros alpha AL AR C st st'.
  - simpl. destruct (Width AR =? 0); [|discriminate].
    intros E; injection E as <-. exists []. rewrite app_nil_r. auto.
  - rewrite HerkUN_loop_S. destruct (Width AR =? 0).
    + intros E; injection E as <-. exists []. rewrite app_nil_r. auto.
    + destruct (HerkUNUpdate (S fuel) alpha _ _ one C st) as [st1| |] eqn:E1;
        cbn [bind]; [|discriminate..].
      intros E2. apply update_trace in E1. destruct E1 as (evs1 & E1 & F1).
      apply IH in E2. destruct E2 as (evs2 & E2 & F2).
      exists (evs1 ++ evs2). rewrite E2, E1, app_assoc. split; [reflexivity|].
      apply Forall_app; split; [|exact F2].
      eapply Forall_impl; [|exact F1].
      intros e He b Hb. destruct (He b Hb); assumption.
Qed.

Lemma herk_trace (fuel : nat) alpha A beta C st st' :
  HerkUN fuel alpha A beta C st = Ok st' ->
  exists evs,
    trace st' =
      trace st ++ EvEnter RHerkUN beta (Height C) :: EvScal beta (InStore C) :: evs /\
    Forall (fun e => forall b, rescale e = Some b -> b = one) evs.
Proof.
  unfold HerkUN. cbv zeta.
  destruct (HerkUN_checks A C) as [[]| |]; cbn [bind]; [|discriminate..].
  unfold LockedPartitionRight. intros E.
  apply loop_trace in E. destruct E as (evs & E & F).
  exists evs. split; [|exact F].
  rewrite E. unfold Scal. rewrite trace_update, !trace_emit, <- !app_assoc.
  reflexivity.
Qed.

(** *** The base case as the design document words it

    One multiply into a temporary of the size of [C], masked to the upper
    triangle and then added to the scaled [C]. *)
Definition masked_full_multiply (alpha : T) (A_MC_Star A_MR_Star : DistMatrix Buf)
  (beta : T) (C : DistMatrix nat) (st : State) : State :=
  let D := declare MC MR (GetGrid C) in
  let D := ResizeTo (AlignWith D C) (Height C) (Width C) in
  let st := Scal beta C st in
  let '(D, st) := Gemm_temp alpha A_MC_Star A_MR_Star zero D st in
  let '(D, st) := MakeTrapezoidal_temp D st in
  Axpy one D C st.

Lemma masked_full_multiply_store alpha A_MC_Star A_MR_Star beta C st :
  (forall id, id <> Storage C ->
     store (masked_full_multiply alpha A_MC_Star A_MR_Star beta C st) id =
     store st id) /\
  (forall I J, inside C I J = false ->
     store (masked_full_multiply alpha A_MC_Star A_MR_Star beta C st)
       (Storage C) I J = store st (Storage C) I J) /\
  (forall i j, i < Height C -> j < Width C ->
     Centry C (masked_full_multiply alpha A_MC_Star A_MR_Star beta C st) i j =
     if j <? i then mul beta (Centry C st i j)
     else add (rank_k alpha A_MC_Star A_MR_Star i j) (mul beta (Centry C st i j))).
Proof.
  unfold masked_full_multiply, Gemm_temp, MakeTrapezoidal_temp. cbv zeta.
  cbn iota beta.
  match goal with
  | |- context [Axpy one ?X C] => set (D := X)
  end.
  assert (HD : forall i j, i < Height C -> j < Width C ->
            Get D i j = if j <? i then zero
                        else rank_k alpha A_MC_Star A_MR_Star i j).
  { intros i j Hi Hj. unfold D. rewrite temp_block by (simpl; lia).
    reflexivity. }
  clearbody D. unfold Axpy, Scal.
  split; [|split].
  - intros id Hid.
    repeat (rewrite store_emit || rewrite store_update_other by exact Hid).
    reflexivity.
  - intros I J HIJ.
    repeat (rewrite store_emit || rewrite store_update_same).
    rewrite Axpy_buf_outside, Scal_buf_outside by exact HIJ. reflexivity.
  - intros i j Hi Hj. unfold Centry, entry.
    repeat (rewrite store_emit || rewrite store_update_same).
    rewrite (@Axpy_buf_at _ _ _ _ _ _ _ i j) by lia.
    rewrite (@Scal_buf_at _ _ _ _ _ _ i j) by lia.
    rewrite HD by lia. destruct (j <? i); ring.
Qed.

Lemma update_equals_kernel (fuel : nat) alpha A_MC_Star A_MR_Star beta C st :
  0 < Blocksize -> 0 < GridWidth (GetGrid C) ->
  update_ready A_MC_Star A_MR_Star C ->
  Height C < fuel ->
  exists st1 stk,
    HerkUNUpdate fuel alpha A_MC_Star A_MR_Star beta C st = Ok st1 /\
    HerkUNUpdateKernel alpha A_MC_Star A_MR_Star beta C st = Ok stk /\
    (forall i j, i <= j -> j < Height C ->
       Centry C st1 i j = Centry C stk i j).
Proof.
  intros Hnb Hgw R Hfuel.
  destruct (@update_spec fuel alpha A_MC_Star A_MR_Star beta C st Hnb Hgw R Hfuel)
    as (st1 & E1 & _ & _ & F1 & _).
  destruct (kernel_spec alpha beta st R) as (stk & Ek & _ & _ & Fk).
  exists st1, stk. split; [exact E1|]. split; [exact Ek|].
  intros i j Hij Hj. rewrite F1, Fk by lia.
  destruct (Nat.ltb_spec j i); [lia|]. reflexivity.
Qed.

Lemma release_update_never_throws (fuel : nat) :
  RELEASE = true ->
  forall alpha A_MC_Star A_MR_Star beta C st c,
  HerkUNUpdate fuel alpha A_MC_Star A_MR_Star beta C st <> Throw c.
Proof.
  intros Hr. induction fuel as [|fuel IH];
    intros alpha A_MC_Star A_MR_Star beta C st c; [discriminate|].
  rewrite HerkUNUpdate_S. cbv zeta.
  unfold update_checks at 1. rewrite Hr. cbn [bind].
  destruct (Height C <? 2 * GridWidth (GetGrid C) * Blocksize).
  - unfold HerkUNUpdateKernel, update_checks. rewrite Hr. cbn [bind].
    cbv zeta.
    destruct (LockedPartitionDown A_MC_Star (Height C / 2)) as [AT_MC AB_MC].
    destruct (LockedPartitionDown A_MR_Star (Height C / 2)) as [AT_MR AB_MR].
    destruct (PartitionDownDiagonal C (Height C / 2)) as [[CTL CTR] [CBL CBR]].
    unfold Gemm_temp, MakeTrapezoidal_temp. discriminate.
  - destruct (LockedPartitionDown A_MC_Star (Height C / 2)) as [AT_MC AB_MC].
    destruct (LockedPartitionDown A_MR_Star (Height C / 2)) as [AT_MR AB_MR].
    destruct (PartitionDownDiagonal C (Height C / 2)) as [[CTL CTR] [CBL CBR]].
    destruct (HerkUNUpdate fuel alpha AT_MC AT_MR beta CTL _) as [st1| |] eqn:E1;
      cbn [bind]; [apply IH | exfalso; exact (IH _ _ _ _ _ _ _ E1) | discriminate].
Qed.


(** With a block size of zero the test of line 141 never holds and the
    recursion never stops: no amount of fuel lets [HerkUNUpdate] return. *)
Lemma zero_blocksize_diverges (fuel : nat) :
  Blocksize = 0 ->
  forall alpha A_MC_Star A_MR_Star beta C st,
  update_ready A_MC_Star A_MR_Star C ->
  HerkUNUpdate fuel alpha A_MC_Star A_MR_Star beta C st = OutOfFuel.
Proof.
  intros Hnb. induction fuel as [|fuel IH];
    intros alpha A_MC_Star A_MR_Star beta C st R; [reflexivity|].
  rewrite HerkUNUpdate_S. cbv zeta. rewrite (update_checks_ok R). cbn [bind].
  rewrite Hnb, Nat.mul_0_r. cbn [Nat.ltb Nat.leb].
  pose proof R as [g1 g2 d1 d2 [d3 d4] h1 h2 sq w a1 a2].
  unfold LockedPartitionDown, PartitionDownDiagonal.
  rewrite h1, h2, sq.
  assert (Hh : Height C / 2 <= Height C)
    by (apply Nat.Div0.div_le_upper_bound; lia).
  rewrite !Nat.min_id, !(Nat.min_l _ _ Hh).
  rewrite IH by (apply update_ready_top; exact R). reflexivity.
Qed.

(** ** Operands that do not overlap

    [HerkUN] reads A while it writes C.  What the result needs of the two
    operands is that no entry of A lies in the window of C: they are in
    different buffers, or in disjoint windows of one buffer. *)
Definition separate (A C : DistMatrix nat) : Prop :=
  Storage A <> Storage C \/
  forall i j, i < Height A -> j < Width A ->
    inside C (RowOff A + i) (ColOff A + j) = false.

(** The operands of [HerkUN]: [MC,MR] matrices over one grid, conformal, and
    not overlapping. *)
Record herk_operands (A C : DistMatrix nat) : Prop := {
  ho_grid : GetGrid A = GetGrid C;
  ho_dist_C : ColDist C = MC /\ RowDist C = MR;
  ho_height : Height A = Height C;
  ho_square : Width C = Height C;
  ho_separate : separate A C
}.

Lemma herk_ready_operands (A C : DistMatrix nat) :
  herk_ready A C -> herk_operands A C.
Proof.
  intros [g d h sq na]. constructor; auto. left. exact na.
Qed.

(** A call that writes the window of C only leaves the entries of A. *)
Lemma separate_entry (A C : DistMatrix nat) (st st' : State) :
  separate A C ->
  (forall id, id <> Storage C -> store st' id = store st id) ->
  (forall I J, inside C I J = false ->
     store st' (Storage C) I J = store st (Storage C) I J) ->
  forall i j, i < Height A -> j < Width A ->
    entry A (store st' (Storage A)) i j = entry A (store st (Storage A)) i j.
Proof.
  intros Hs F1 F2 i j Hi Hj. unfold entry.
  destruct (Nat.eq_dec (Storage A) (Storage C)) as [E|E].
  - destruct Hs as [Hs|Hs]; [contradiction|].
    rewrite E. apply F2. apply Hs; assumption.
  - rewrite F1 by exact E. reflexivity.
Qed.

Lemma separate_View (A C : DistMatrix nat) (b : nat) :
  separate A C -> b <= Width A ->
  separate (View A 0 b (Height A) (Width A - b)) C.
Proof.
  intros [Hs|Hs] Hb; [left; exact Hs | right].
  simpl. intros i j Hi Hj.
  replace (RowOff A + 0 + i) with (RowOff A + i) by lia.
  replace (ColOff A + b + j) with (ColOff A + (b + j)) by lia.
  apply Hs; lia.
Qed.

Lemma panel_ready_operands (AR C : DistMatrix nat) (st : State) :
  herk_operands AR C -> update_ready (panel_MC AR C st) (panel_MR AR C st) C.
Proof.
  intros [g [d3 d4] h sq _].
  constructor; simpl; auto.
  - rewrite d3. reflexivity.
  - rewrite d3, d4. reflexivity.
Qed.

Lemma loop_operands_spec (fuel : nat) :
  forall alpha AL AR C st,
  0 < Blocksize -> 0 < GridWidth (GetGrid C) ->
  herk_operands AR C ->
  Width AR + Height C < fuel ->
  exists st',
    HerkUN_loop fuel alpha AL AR C st = Ok st' /\
    (forall id, id <> Storage C -> store st' id = store st id) /\
    (forall I J, inside C I J = false ->
       store st' (Storage C) I J = store st (Storage C) I J) /\
    (forall i j, i <= j -> j < Height C ->
       Centry C st' i j =
       add (mul alpha (sum_n (Width AR)
              (fun t => mul (entry AR (store st (Storage AR)) i t)
                            (Conj (entry AR (store st (Storage AR)) j t)))))
           (Centry C st i j)) /\
    (forall i j, j < i -> i < Height C -> Centry C st' i j = Centry C st i j).
Proof.
  induction fuel as [|fuel IH]; intros alpha AL AR C st Hnb Hgw R Hfuel; [lia|].
  rewrite HerkUN_loop_S.
  destruct (Nat.eqb_spec (Width AR) 0) as [Hw|Hw].
  - exists st. split; [reflexivity|]. split; [reflexivity|].
    split; [reflexivity|]. split; [|reflexivity].
    intros i j _ _. rewrite Hw. simpl. ring.
  - destruct (@update_spec (S fuel) alpha (panel_MC AR C st) (panel_MR AR C st)
                one C st Hnb Hgw (panel_ready_operands st R))
      as (st1 & E1 & F11 & F12 & F13 & F14); [lia|].
    rewrite E1. cbn [bind].
    set (b := Nat.min Blocksize (Width AR)) in *.
    assert (Hb : 0 < b <= Width AR) by (unfold b; lia).
    pose proof R as [g [d3 d4] h sq sep].
    set (A2 := View AR 0 b (Height AR) (Width AR - b)) in *.
    assert (sep2 : separate A2 C) by (apply separate_View; [exact sep | lia]).
    destruct (IH alpha (View AL 0 0 (Height AL) (Width AL + b)) A2 C st1)
      as (st2 & E2 & F21 & F22 & F23 & F24);
      [exact Hnb | exact Hgw | constructor; simpl; auto | simpl; lia |].
    rewrite E2. exists st2. split; [reflexivity|].
    split; [|split; [|split]].
    + intros id Hid. rewrite F21, F11 by exact Hid. reflexivity.
    + intros I J HIJ. rewrite F22, F12 by exact HIJ. reflexivity.
    + intros i j Hij Hj. rewrite F23, F13 by assumption.
      rewrite rank_k_panel. fold b.
      set (F := fun t => mul (entry AR (store st (Storage AR)) i t)
                     (Conj (entry AR (store st (Storage AR)) j t))).
      rewrite (@sum_n_ext (Width A2) _ (fun t => F (b + t))).
      * assert (Hs : sum_n (Width AR) F =
                     add (sum_n b F) (sum_n (Width AR - b) (fun t => F (b + t)))).
        { rewrite <- sum_n_app. f_equal. lia. }
        rewrite Hs. simpl Width. ring.
      * intros t Ht. unfold F.
        rewrite !(@separate_entry _ _ _ _ sep2 F11 F12) by (simpl in *; lia).
        unfold A2, entry; simpl.
        f_equal; [|f_equal]; f_equal; lia.
    + intros i j Hji Hi. rewrite F24 by assumption.
      destruct (F14 i j Hji Hi) as [-> | ->]; [reflexivity | ring].
Qed.

Lemma herk_operands_spec (fuel : nat) alpha A beta C st :
  0 < Blocksize -> 0 < GridWidth (GetGrid C) ->
  herk_operands A C ->
  Width A + Height C < fuel ->
  exists st',
    HerkUN fuel alpha A beta C st = Ok st' /\
    (forall id, id <> Storage C -> store st' id = store st id) /\
    (forall I J, inside C I J = false ->
       store st' (Storage C) I J = store st (Storage C) I J) /\
    (forall i j, i <= j -> j < Height C ->
       Centry C st' i j =
       add (mul beta (Centry C st i j))
           (mul alpha (sum_n (Width A)
              (fun t => mul (entry A (store st (Storage A)) i t)
                            (Conj (entry A (store st (Storage A)) j t)))))) /\
    (forall i j, j < i -> i < Height C ->
       Centry C st' i j = mul beta (Centry C st i j)).
Proof.
  intros Hnb Hgw R Hfuel. pose proof R as [g [d3 d4] h sq sep].
  unfold HerkUN. cbv zeta.
  rewrite herk_checks_ok by congruence. cbn [bind].
  unfold LockedPartitionRight.
  set (st0 := Scal beta C _).
  set (A' := View A 0 0 (Height A) (Width A)).
  assert (sep' : separate A' C).
  { destruct sep as [Hs|Hs]; [left; exact Hs | right].
    simpl. intros i j Hi Hj. rewrite !Nat.add_0_r. apply Hs; assumption. }
  assert (R' : herk_operands A' C) by (constructor; simpl; auto).
  destruct (@loop_operands_spec fuel alpha (View A 0 0 (Height A) 0) A' C st0
              Hnb Hgw R')
    as (st' & E & F1 & F2 & F3 & F4); [simpl; lia|].
  exists st'. split; [exact E|].
  assert (S0 : forall id, id <> Storage C -> store st0 id = store st id).
  { intros id Hid. unfold st0, Scal.
    rewrite store_update_other by exact Hid. reflexivity. }
  assert (B0 : forall I J, store st0 (Storage C) I J =
                           Scal_buf beta C (store st (Storage C)) I J).
  { intros I J. unfold st0, Scal. rewrite store_update_same. reflexivity. }
  assert (O0 : forall I J, inside C I J = false ->
                 store st0 (Storage C) I J = store st (Storage C) I J).
  { intros I J HIJ. rewrite B0. apply Scal_buf_outside; exact HIJ. }
  clearbody st0.
  split; [|split; [|split]].
  - intros id Hid. rewrite F1, S0 by exact Hid. reflexivity.
  - intros I J HIJ. rewrite F2, O0 by exact HIJ. reflexivity.
  - intros i j Hij Hj. rewrite F3 by assumption.
    unfold Centry at 1. unfold entry at 3. rewrite B0.
    rewrite (@Scal_buf_at _ _ _ _ _ _ i j) by lia.
    rewrite (@sum_n_ext (Width A') _
               (fun t => mul (entry A (store st (Storage A)) i t)
                             (Conj (entry A (store st (Storage A)) j t)))).
    + unfold Centry, entry. simpl Width. ring.
    + intros t Ht.
      rewrite !(@separate_entry _ _ _ _ sep' S0 O0) by (simpl in *; lia).
      unfold A', entry; simpl. rewrite !Nat.add_0_r. reflexivity.
  - intros i j Hji Hi. rewrite F4 by assumption.
    unfold Centry, entry. rewrite B0.
    apply (@Scal_buf_at _ _ _ _ _ _ i j); lia.
Qed.

(** ** Fuel

    More fuel does not change a result, and a threshold of zero (a block size
    or a grid width of zero) lets no update return. *)

Lemma HerkUNUpdate_mono (fuel : nat) :
  forall fuel' alpha A_MC_Star A_MR_Star beta C st st',
  HerkUNUpdate fuel alpha A_MC_Star A_MR_Star beta C st = Ok st' ->
  fuel <= fuel' ->
  HerkUNUpdate fuel' alpha A_MC_Star A_MR_Star beta C st = Ok st'.
Proof.
  induction fuel as [|fuel IH];
    intros fuel' alpha A_MC_Star A_MR_Star beta C st st' E Hle; [discriminate|].
  destruct fuel' as [|fuel']; [lia|].
  revert E. rewrite !HerkUNUpdate_S. cbv zeta.
  destruct (update_checks A_MC_Star A_MR_Star C) as [[]| |]; cbn [bind];
    [|discriminate..].
  destruct (Height C <? 2 * GridWidth (GetGrid C) * Blocksize);
    [intros E; exact E|].
  destruct (LockedPartitionDown A_MC_Star (Height C / 2)) as [AT_MC AB_MC].
  destruct (LockedPartitionDown A_MR_Star (Height C / 2)) as [AT_MR AB_MR].
  destruct (PartitionDownDiagonal C (Height C / 2)) as [[CTL CTR] [CBL CBR]].
  destruct (HerkUNUpdate fuel alpha AT_MC AT_MR beta CTL _) as [s1| |] eqn:E1;
    cbn [bind]; [|discriminate..].
  intros E2.
  rewrite (IH fuel' _ _ _ _ _ _ _ E1) by lia. cbn [bind].
  apply (IH fuel' _ _ _ _ _ _ _ E2). lia.
Qed.

Lemma HerkUN_loop_mono (fuel : nat) :
  forall fuel' alpha AL AR C st st',
  HerkUN_loop fuel alpha AL AR C st = Ok st' ->
  fuel <= fuel' ->
  HerkUN_loop fuel' alpha AL AR C st = Ok st'.
Proof.
  induction fuel as [|fuel IH]; intros fuel' alpha AL AR C st st' E Hle.
  - simpl in E. destruct (Width AR =? 0) eqn:Hw; [|discriminate].
    destruct fuel'; simpl; rewrite Hw; exact E.
  - destruct fuel' as [|fuel']; [lia|].
    revert E. rewrite !HerkUN_loop_S.
    destruct (Width AR =? 0); [intros E; exact E|].
    destruct (HerkUNUpdate (S fuel) alpha _ _ one C st) as [s1| |] eqn:E1;
      cbn [bind]; [|discriminate..].
    intros E2.
    rewrite (@HerkUNUpdate_mono (S fuel) (S fuel') _ _ _ _ _ _ _ E1) by lia.
    cbn [bind]. apply (IH fuel' _ _ _ _ _ _ E2). lia.
Qed.

Lemma HerkUN_mono (fuel fuel' : nat) alpha A beta C st st' :
  HerkUN fuel alpha A beta C st = Ok st' ->
  fuel <= fuel' ->
  HerkUN fuel' alpha A beta C st = Ok st'.
Proof.
  unfold HerkUN. cbv zeta.
  destruct (HerkUN_checks A C) as [[]| |]; cbn [bind]; [|discriminate..].
  destruct (LockedPartitionRight A) as [AL AR].
  intros E Hle. exact (@HerkUN_loop_mono fuel fuel' _ _ _ _ _ _ E Hle).
Qed.

Lemma zero_threshold_never_returns (fuel : nat) :
  forall alpha A_MC_Star A_MR_Star beta C st st',
  2 * GridWidth (GetGrid C) * Blocksize = 0 ->
  HerkUNUpdate fuel alpha A_MC_Star A_MR_Star beta C st <> Ok st'.
Proof.
  induction fuel as [|fuel IH];
    intros alpha A_MC_Star A_MR_Star beta C st st' Hz; [discriminate|].
  rewrite HerkUNUpdate_S. cbv zeta.
  destruct (update_checks A_MC_Star A_MR_Star C) as [[]| |]; cbn [bind];
    [|discriminate..].
  rewrite Hz. cbn [Nat.ltb Nat.leb].
  destruct (LockedPartitionDown A_MC_Star (Height C / 2)) as [AT_MC AB_MC].
  destruct (LockedPartitionDown A_MR_Star (Height C / 2)) as [AT_MR AB_MR].
  unfold PartitionDownDiagonal. cbv zeta.
  destruct (HerkUNUpdate fuel alpha AT_MC AT_MR beta _ _) as [s1| |] eqn:E1;
    cbn [bind]; [|discriminate..].
  exfalso. eapply IH; [|exact E1]. exact Hz.
Qed.

(** What an update that returns leaves in C, whatever the block size, the
    grid and the fuel. *)
Lemma update_returned (fuel : nat) alpha A_MC_Star A_MR_Star beta C st st' :
  update_ready A_MC_Star A_MR_Star C ->
  HerkUNUpdate fuel alpha A_MC_Star A_MR_Star beta C st = Ok st' ->
  (forall i j, i <= j -> j < Height C ->
     Centry C st' i j =
     add (rank_k alpha A_MC_Star A_MR_Star i j) (mul beta (Centry C st i j))) /\
  (forall i j, j < i -> i < Height C ->
     Centry C st' i j = Centry C st i j \/
     Centry C st' i j = mul beta (Centry C st i j)).
Proof.
  intros R E.
  destruct (Nat.eq_dec (2 * GridWidth (GetGrid C) * Blocksize) 0) as [Hz|Hz].
  - exfalso. eapply zero_threshold_never_returns; [|exact E]. exact Hz.
  - assert (Hnb : 0 < Blocksize) by nia.
    assert (Hgw : 0 < GridWidth (GetGrid C)) by nia.
    set (fuel' := Nat.max fuel (S (Height C))).
    assert (E' : HerkUNUpdate fuel' alpha A_MC_Star A_MR_Star beta C st = Ok st')
      by (eapply HerkUNUpdate_mono; [exact E | unfold fuel'; lia]).
    destruct (@update_spec fuel' alpha A_MC_Star A_MR_Star beta C st Hnb Hgw R)
      as (st'' & E'' & _ & _ & F3 & F4); [unfold fuel'; lia|].
    rewrite E' in E''. injection E'' as <-. split; assumption.
Qed.

(** One turn of the loop of [HerkUN]: the panel is accumulated onto what C
    holds with the factor one, and the loop goes on with the columns that
    are left. *)
Lemma loop_turn (fuel : nat) alpha AL AR C st st' :
  GetGrid AR = GetGrid C -> ColDist C = MC -> RowDist C = MR ->
  Height AR = Height C -> Width C = Height C ->
  Width AR <> 0 ->
  HerkUN_loop (S fuel) alpha AL AR C st = Ok st' ->
  exists st1,
    HerkUNUpdate (S fuel) alpha (panel_MC AR C st) (panel_MR AR C st) one C st
      = Ok st1 /\
    (forall i j, i <= j -> j < Height C ->
       Centry C st1 i j =
       add (mul alpha (sum_n (Nat.min Blocksize (Width AR))
              (fun t => mul (entry AR (store st (Storage AR)) i t)
                            (Conj (entry AR (store st (Storage AR)) j t)))))
           (Centry C st i j)) /\
    (forall i j, j < i -> i < Height C -> Centry C st1 i j = Centry C st i j) /\
    HerkUN_loop fuel alpha
      (View AL 0 0 (Height AL) (Width AL + Nat.min Blocksize (Width AR)))
      (View AR 0 (Nat.min Blocksize (Width AR)) (Height AR)
         (Width AR - Nat.min Blocksize (Width AR))) C st1 = Ok st'.
Proof.
  intros g d3 d4 h sq Hw. rewrite HerkUN_loop_S.
  apply Nat.eqb_neq in Hw. rewrite Hw.
  destruct (HerkUNUpdate (S fuel) alpha _ _ one C st) as [st1| |] eqn:E1;
    cbn [bind]; [|discriminate..].
  intros E2. exists st1. split; [reflexivity|].
  assert (R : update_ready (panel_MC AR C st) (panel_MR AR C st) C).
  { constructor; simpl; auto.
    - rewrite d3. reflexivity.
    - rewrite d3, d4. reflexivity. }
  destruct (@update_returned (S fuel) alpha _ _ one C st st1 R E1) as [F3 F4].
  split; [|split; [|exact E2]].
  - intros i j Hij Hj. rewrite F3 by assumption.
    rewrite rank_k_panel. ring.
  - intros i j Hji Hi.
    destruct (F4 i j Hji Hi) as [-> | ->]; [reflexivity | ring].
Qed.

(** Without a column to process the loop is not entered. *)
Lemma HerkUN_loop_no_column (fuel : nat) alpha AL AR C st :
  Width AR = 0 -> HerkUN_loop fuel alpha AL AR C st = Ok st.
Proof.
  intros Hw. destruct fuel; simpl; rewrite Hw; reflexivity.
Qed.

(** What a call that returns leaves in C, whatever the block size, the grid
    and the fuel. *)
Lemma herk_returned (fuel : nat) alpha A beta C st st' :
  herk_operands A C ->
  HerkUN fuel alpha A beta C st = Ok st' ->
  (forall i j, i <= j -> j < Height C ->
     Centry C st' i j =
     add (mul beta (Centry C st i j))
         (mul alpha (sum_n (Width A)
            (fun t => mul (entry A (store st (Storage A)) i t)
                          (Conj (entry A (store st (Storage A)) j t)))))) /\
  (forall i j, j < i -> i < Height C ->
     Centry C st' i j = mul beta (Centry C st i j)).
Proof.
  intros R E. pose proof R as [g [d3 d4] h sq sep].
  destruct (Nat.eq_dec (2 * GridWidth (GetGrid C) * Blocksize) 0) as [Hz|Hz].
  - (* no update can return: the call returned without one *)
    destruct (Nat.eq_dec (Width A) 0) as [Hw|Hw].
    + revert E. unfold HerkUN. cbv zeta.
      rewrite herk_checks_ok by congruence. cbn [bind].
      unfold LockedPartitionRight.
      rewrite HerkUN_loop_no_column by exact Hw.
      intros E. injection E as <-. split.
      * intros i j Hij Hj.
        rewrite Hw. simpl sum_n.
        unfold Centry, entry, Scal. rewrite store_update_same, store_emit.
        rewrite (@Scal_buf_at _ _ _ _ _ _ i j) by lia.
        rewrite store_emit. ring.
      * intros i j Hji Hi.
        unfold Centry, entry, Scal. rewrite store_update_same, store_emit.
        rewrite (@Scal_buf_at _ _ _ _ _ _ i j) by lia.
        rewrite store_emit. reflexivity.
    + exfalso. revert E. unfold HerkUN. cbv zeta.
      rewrite herk_checks_ok by congruence. cbn [bind].
      unfold LockedPartitionRight.
      destruct fuel as [|fuel].
      * simpl. apply Nat.eqb_neq in Hw. rewrite Hw. discriminate.
      * rewrite HerkUN_loop_S. simpl Width at 1.
        apply Nat.eqb_neq in Hw. rewrite Hw.
        destruct (HerkUNUpdate (S fuel) alpha _ _ one C _) as [s1| |] eqn:E1;
          cbn [bind]; [|discriminate..].
        exfalso. eapply zero_threshold_never_returns; [|exact E1]. exact Hz.
  - assert (Hnb : 0 < Blocksize) by nia.
    assert (Hgw : 0 < GridWidth (GetGrid C)) by nia.
    set (fuel' := Nat.max fuel (S (Width A + Height C))).
    assert (E' : HerkUN fuel' alpha A beta C st = Ok st')
      by (eapply HerkUN_mono; [exact E | unfold fuel'; lia]).
    destruct (@herk_operands_spec fuel' alpha A beta C st Hnb Hgw R)
      as (st'' & E'' & _ & _ & F3 & F4); [unfold fuel'; lia|].
    rewrite E' in E''. injection E'' as <-. split; assumption.
Qed.

(** ** The properties of the rank-k update *)

(** C1 (as amended): for A of shape m x k and C of shape m x m over one grid,
    A having no entry in the window of C, every call of [HerkUN] that returns
    leaves in every entry (i,j) of C with i <= j beta times its original
    value plus alpha times the sum over t of A(i,t) * conj(A(j,t)), whatever
    the block size and the build; and the call does return when the block
    size and the grid width are positive. *)
Theorem C1_HerkUN_upper_triangle (fuel : nat) alpha A beta C st :
  herk_operands A C ->
  (forall st',
     HerkUN fuel alpha A beta C st = Ok st' ->
     forall i j, i <= j -> j < Height C ->
       Centry C st' i j =
       add (mul beta (Centry C st i j))
           (mul alpha (sum_n (Width A)
              (fun t => mul (entry A (store st (Storage A)) i t)
                            (Conj (entry A (store st (Storage A)) j t)))))) /\
  (0 < Blocksize -> 0 < GridWidth (GetGrid C) ->
   Width A + Height C < fuel ->
   exists st', HerkUN fuel alpha A beta C st = Ok st').
Proof.
  intros R. split.
  - intros st' E. eapply herk_returned; eassumption.
  - intros Hnb Hgw Hfuel.
    destruct (@herk_operands_spec fuel alpha A beta C st Hnb Hgw R Hfuel)
      as (st' & E & _).
    exists st'. exact E.
Qed.


(** The first panel enters [HerkUNUpdate] on the whole of C with beta = 1. *)
Lemma first_panel_event (fuel : nat) alpha AL AR C st st' :
  0 < Width AR ->
  HerkUN_loop fuel alpha AL AR C st = Ok st' ->
  exists evs',
    trace st' = trace st ++ EvEnter RHerkUNUpdate one (Height C) :: evs'.
Proof.
  intros Hw. assert (Hw0 : (Width AR =? 0) = false) by (apply Nat.eqb_neq; lia).
  destruct fuel as [|fuel]; [simpl; rewrite Hw0; discriminate|].
  rewrite HerkUN_loop_S, Hw0.
  destruct (HerkUNUpdate (S fuel) alpha _ _ one C _) as [st1| |] eqn:E1;
    cbn [bind]; [|discriminate..].
  intros E2.
  apply loop_trace in E2. destruct E2 as (evs2 & E2 & _).
  rewrite HerkUNUpdate_S in E1. cbv zeta in E1.
  destruct (update_checks _ _ C) as [[]| |]; cbn [bind] in E1; [|discriminate..].
  assert (Hpre : exists evs1,
            trace st1 = trace st ++ EvEnter RHerkUNUpdate one (Height C) :: evs1).
  { destruct (Height C <? 2 * GridWidth (GetGrid C) * Blocksize).
    - apply kernel_trace in E1. destruct E1 as (evs1 & E1 & _).
      exists evs1. rewrite E1.
      rewrite !trace_emit, <- !app_assoc.
      reflexivity.
    - destruct (LockedPartitionDown _ (Height C / 2)) as [AT_MC AB_MC] in E1.
      destruct (LockedPartitionDown _ (Height C / 2)) as [AT_MR AB_MR] in E1.
      destruct (PartitionDownDiagonal C (Height C / 2)) as [[CTL CTR] [CBL CBR]].
      destruct (HerkUNUpdate fuel alpha AT_MC AT_MR one CTL _) as [sa| |] eqn:Ea;
        cbn [bind] in E1; [|discriminate..].
      apply update_trace in Ea. destruct Ea as (eva & Ea & _).
      apply update_trace in E1. destruct E1 as (evb & E1 & _).
      eexists. rewrite E1, Ea. unfold Gemm.
      rewrite !trace_update, !trace_emit, <- !app_assoc.
      reflexivity. }
  destruct Hpre as (evs1 & Hpre).
  eexists. rewrite E2, Hpre, <- app_assoc. reflexivity.
Qed.

(** C4: [HerkUN] scales C by beta once, as its first operation, before any
    panel is processed: in the state [st0] the panels start from, every entry
    of C is beta times what it was.  The panels are then accumulated onto
    that scaled matrix with the factor one: every later operation that
    rescales what C holds (the beta handed to [HerkUNUpdate] and its kernel,
    their [Scal], their [Gemm] on a view of C) uses the factor one, the first
    of them being the entry into [HerkUNUpdate] with beta = 1.  For operands
    that are conformal and do not overlap, C ends as the scaled matrix plus
    alpha times the products of the panels in its upper triangle, and as the
    scaled matrix below it.  Every turn of the loop, on conformal operands,
    adds alpha times the product of its panel to the upper triangle of what
    C holds then, with the factor one, and leaves the rest of C.  A call on
    conformal operands that do not overlap returns when the block size and
    the grid width are positive. *)
Theorem C4_HerkUN_scales_once (fuel : nat) alpha A beta C st :
  (forall st',
     HerkUN fuel alpha A beta C st = Ok st' ->
     exists st0 evs,
       st0 = Scal beta C (emit (EvEnter RHerkUN beta (Height C)) st) /\
       trace st0 =
         trace st ++ [EvEnter RHerkUN beta (Height C);
                      EvScal beta (InStore C)] /\
       (forall i j, i < Height C -> j < Width C ->
          Centry C st0 i j = mul beta (Centry C st i j)) /\
       HerkUN_loop fuel alpha (View A 0 0 (Height A) 0)
         (View A 0 0 (Height A) (Width A)) C st0 = Ok st' /\
       trace st' = trace st0 ++ evs /\
       Forall (fun e => forall b, rescale e = Some b -> b = one) evs /\
       (0 < Width A ->
        exists evs', evs = EvEnter RHerkUNUpdate one (Height C) :: evs') /\
       (herk_operands A C ->
        (forall i j, i <= j -> j < Height C ->
           Centry C st' i j =
           add (Centry C st0 i j)
               (mul alpha (sum_n (Width A)
                  (fun t => mul (entry A (store st (Storage A)) i t)
                                (Conj (entry A (store st (Storage A)) j t)))))) /\
        (forall i j, j < i -> i < Height C ->
           Centry C st' i j = Centry C st0 i j))) /\
  (forall fuel' AL AR s s',
     GetGrid AR = GetGrid C -> ColDist C = MC -> RowDist C = MR ->
     Height AR = Height C -> Width C = Height C ->
     Width AR <> 0 ->
     HerkUN_loop (S fuel') alpha AL AR C s = Ok s' ->
     exists s1,
       HerkUNUpdate (S fuel') alpha (panel_MC AR C s) (panel_MR AR C s)
         one C s = Ok s1 /\
       (forall i j, i <= j -> j < Height C ->
          Centry C s1 i j =
          add (mul alpha (sum_n (Nat.min Blocksize (Width AR))
                 (fun t => mul (entry AR (store s (Storage AR)) i t)
                               (Conj (entry AR (store s (Storage AR)) j t)))))
              (Centry C s i j)) /\
       (forall i j, j < i -> i < Height C ->
          Centry C s1 i j = Centry C s i j) /\
       HerkUN_loop fuel' alpha
         (View AL 0 0 (Height AL) (Width AL + Nat.min Blocksize (Width AR)))
         (View AR 0 (Nat.min Blocksize (Width AR)) (Height AR)
            (Width AR - Nat.min Blocksize (Width AR))) C s1 = Ok s') /\
  (herk_operands A C ->
   0 < Blocksize -> 0 < GridWidth (GetGrid C) -> Width A + Height C < fuel ->
   exists st', HerkUN fuel alpha A beta C st = Ok st').
Proof.
  split; [|split].
  - intros st' E.
    destruct (herk_trace _ _ _ _ _ _ E) as (evs & Etr & F).
    set (st0 := Scal beta C (emit (EvEnter RHerkUN beta (Height C)) st)).
    assert (T0 : trace st0 =
                 trace st ++ [EvEnter RHerkUN beta (Height C);
                              EvScal beta (InStore C)]).
    { unfold st0, Scal. rewrite trace_update, !trace_emit, <- app_assoc.
      reflexivity. }
    assert (S0 : forall i j, i < Height C -> j < Width C ->
                   Centry C st0 i j = mul beta (Centry C st i j)).
    { intros i j Hi Hj. unfold Centry, entry, st0, Scal.
      rewrite store_update_same, store_emit.
      rewrite (@Scal_buf_at _ _ _ _ _ _ i j) by lia.
      rewrite store_emit. reflexivity. }
    assert (L : HerkUN_loop fuel alpha (View A 0 0 (Height A) 0)
                  (View A 0 0 (Height A) (Width A)) C st0 = Ok st').
    { revert E. unfold HerkUN. cbv zeta.
      destruct (HerkUN_checks A C) as [[]| |]; cbn [bind]; [|discriminate..].
      unfold LockedPartitionRight. intros E. exact E. }
    exists st0, evs.
    split; [reflexivity|]. split; [exact T0|]. split; [exact S0|].
    split; [exact L|].
    split; [rewrite Etr, T0, <- app_assoc; reflexivity|].
    split; [exact F|]. split.
    + intros Hw.
      destruct (@first_panel_event fuel alpha (View A 0 0 (Height A) 0)
                  (View A 0 0 (Height A) (Width A)) C st0 st' Hw L)
        as (evs' & E').
      exists evs'.
      rewrite T0, <- app_assoc in E'. cbn [app] in E'. rewrite Etr in E'.
      apply app_inv_head in E'. injection E' as E'. exact E'.
    + intros R. pose proof R as [g [d3 d4] h sq sep].
      destruct (@herk_returned fuel alpha A beta C st st' R E) as [F3 F4].
      split.
      * intros i j Hij Hj. rewrite F3, S0 by lia. reflexivity.
      * intros i j Hji Hi. rewrite F4, S0 by lia. reflexivity.
  - intros fuel' AL AR s s' g d3 d4 h sq Hw E.
    exact (@loop_turn fuel' alpha AL AR C s s' g d3 d4 h sq Hw E).
  - intros R Hnb Hgw Hfuel.
    destruct (@herk_operands_spec fuel alpha A beta C st Hnb Hgw R Hfuel)
      as (st' & E & _).
    exists st'. exact E.
Qed.

(** C3 (as amended): when the height m of C is below 2 * (grid width) * nb,
    [HerkUNUpdate] enters its kernel once and does not recurse; the kernel
    scales C and computes three products, one per quadrant of the upper
    triangle: the top-right one accumulated directly into C, the two diagonal
    ones computed into temporaries, masked to their upper triangle and added
    to C.  The block below the diagonal blocks is never computed.  What C
    holds afterwards equals what one full product, masked and added to the
    scaled C, would have given. *)
Theorem C3_base_case (fuel : nat) alpha A_MC_Star A_MR_Star beta C st :
  update_ready A_MC_Star A_MR_Star C ->
  Height C < 2 * GridWidth (GetGrid C) * Blocksize ->
  exists st' evs,
    HerkUNUpdate (S fuel) alpha A_MC_Star A_MR_Star beta C st = Ok st' /\
    trace st' = trace st ++ evs /\
    map shape evs =
      (let m := Height C in
       let h := m / 2 in
       let k := Width A_MC_Star in
       [ SEnter RHerkUNUpdate m;
         SEnter RHerkUNUpdateKernel m;
         SScal true m m;
         SGemm true h (m - h) k;
         SGemm false h h k;
         SMakeTrapezoidal false h h;
         SAxpy true h h;
         SGemm false (m - h) (m - h) k;
         SMakeTrapezoidal false (m - h) (m - h);
         SAxpy true (m - h) (m - h) ]) /\
    (forall id I J,
       store st' id I J =
       store (masked_full_multiply alpha A_MC_Star A_MR_Star beta C st) id I J).
Proof.
  intros R Hsmall.
  rewrite HerkUNUpdate_S. cbv zeta. rewrite (update_checks_ok R). cbn [bind].
  apply Nat.ltb_lt in Hsmall. rewrite Hsmall.
  destruct (kernel_spec alpha beta
              (emit (EvEnter RHerkUNUpdate beta (Height C)) st) R)
    as (st' & E & F1 & F2 & F3).
  destruct (kernel_trace _ _ _ _ _ _ E) as (evs & Etr & _ & Esh).
  exists st', (EvEnter RHerkUNUpdate beta (Height C) :: evs).
  split; [exact E|]. split.
  { rewrite Etr, trace_emit, <- app_assoc. reflexivity. }
  pose proof R as [g1 g2 d1 d2 [d3 d4] h1 h2 sq w a1 a2].
  split.
  { cbn [map shape]. rewrite Esh. cbv zeta.
    rewrite sq, Nat.min_id.
    rewrite (Nat.min_l (Height C / 2) (Height C))
      by (apply Nat.Div0.div_le_upper_bound; lia).
    reflexivity. }
  destruct (masked_full_multiply_store alpha A_MC_Star A_MR_Star beta C st)
    as (G1 & G2 & G3).
  intros id I J.
  destruct (Nat.eq_dec id (Storage C)) as [->|Hid].
  - destruct (inside C I J) eqn:HIJ.
    + apply inside_iff in HIJ.
      specialize (F3 (I - RowOff C) (J - ColOff C)).
      specialize (G3 (I - RowOff C) (J - ColOff C)).
      unfold Centry, entry in F3, G3.
      replace (RowOff C + (I - RowOff C)) with I in * by lia.
      replace (ColOff C + (J - ColOff C)) with J in * by lia.
      rewrite F3, G3 by lia. rewrite store_emit. reflexivity.
    + rewrite F2, G2 by exact HIJ. reflexivity.
  - rewrite F1, G1 by exact Hid. reflexivity.
Qed.


(** ** Further properties of the rank-k update *)

(** What [HerkUN] leaves in the store, in closed form: the window of C holds
    beta C below the diagonal and beta C + alpha A A^H on and above it;
    nothing else changes. *)
Definition herk_closed_form (alpha : T) (A : DistMatrix nat) (beta : T)
  (C : DistMatrix nat) (st : State) : nat -> Buf :=
  fun id I J =>
    if (id =? Storage C) && inside C I J then
      let i := I - RowOff C in
      let j := J - ColOff C in
      if j <? i then mul beta (store st id I J)
      else
        add (mul beta (store st id I J))
            (mul alpha (sum_n (Width A)
               (fun t => mul (entry A (store st (Storage A)) i t)
                             (Conj (entry A (store st (Storage A)) j t)))))
    else store st id I J.

Lemma herk_store (fuel : nat) alpha A beta C st :
  0 < Blocksize -> 0 < GridWidth (GetGrid C) ->
  herk_ready A C ->
  Width A + Height C < fuel ->
  exists st',
    HerkUN fuel alpha A beta C st = Ok st' /\
    forall id I J, store st' id I J = herk_closed_form alpha A beta C st id I J.
Proof.
  intros Hnb Hgw R Hfuel.
  destruct (@herk_spec fuel alpha A beta C st Hnb Hgw R Hfuel)
    as (st' & E & F1 & F2 & F3 & F4).
  exists st'. split; [exact E|].
  pose proof R as [g [d3 d4] h sq na].
  intros id I J. unfold herk_closed_form.
  destruct (Nat.eqb_spec id (Storage C)) as [->|Hid]; cbn [andb].
  - destruct (inside C I J) eqn:HIJ.
    + apply inside_iff in HIJ. rewrite sq in HIJ.
      specialize (F3 (I - RowOff C) (J - ColOff C)).
      specialize (F4 (I - RowOff C) (J - ColOff C)).
      unfold Centry, entry in F3, F4.
      replace (RowOff C + (I - RowOff C)) with I in * by lia.
      replace (ColOff C + (J - ColOff C)) with J in * by lia.
      cbv zeta.
      destruct (Nat.ltb_spec (J - ColOff C) (I - RowOff C)).
      * apply F4; lia.
      * apply F3; lia.
    + apply F2; exact HIJ.
  - rewrite F1 by exact Hid. reflexivity.
Qed.

(** X2: with alpha = 0 and beta = 1 the call changes no entry of any buffer. *)
Theorem HerkUN_null_update (fuel : nat) A C st :
  0 < Blocksize -> 0 < GridWidth (GetGrid C) ->
  herk_ready A C ->
  Width A + Height C < fuel ->
  exists st',
    HerkUN fuel zero A one C st = Ok st' /\
    forall id I J, store st' id I J = store st id I J.
Proof.
  intros Hnb Hgw R Hfuel.
  destruct (@herk_store fuel zero A one C st Hnb Hgw R Hfuel) as (st' & E & F).
  exists st'. split; [exact E|].
  intros id I J. rewrite F. unfold herk_closed_form.
  destruct ((id =? Storage C) && inside C I J); [|reflexivity].
  cbv zeta. destruct (J - ColOff C <? I - RowOff C); ring.
Qed.

(** X3: when A has no column, [HerkUN] enters no update routine, whatever
    the block size and the fuel: it scales the window of C by beta (both
    triangles) and returns. *)
Theorem HerkUN_no_column (fuel : nat) alpha A beta C st :
  Width A = 0 ->
  GetGrid A = GetGrid C -> Height A = Height C -> Height A = Width C ->
  exists st',
    HerkUN fuel alpha A beta C st = Ok st' /\
    trace st' =
      trace st ++ [EvEnter RHerkUN beta (Height C); EvScal beta (InStore C)] /\
    forall id I J,
      store st' id I J =
      if (id =? Storage C) && inside C I J then mul beta (store st id I J)
      else store st id I J.
Proof.
  intros Hw Hg Hh Hc. unfold HerkUN. cbv zeta.
  rewrite herk_checks_ok by assumption. cbn [bind].
  unfold LockedPartitionRight.
  assert (Hloop : forall AL st0,
            HerkUN_loop fuel alpha AL (View A 0 0 (Height A) (Width A)) C st0
            = Ok st0).
  { intros AL st0. destruct fuel; simpl; rewrite Hw; reflexivity. }
  rewrite Hloop. eexists. split; [reflexivity|]. split.
  - unfold Scal. rewrite trace_update, !trace_emit, <- app_assoc. reflexivity.
  - intros id I J. unfold Scal. simpl store.
    destruct (Nat.eqb_spec id (Storage C)) as [->|Hid]; cbn [andb];
      [|reflexivity].
    unfold Scal_buf, modify. destruct (inside C I J); reflexivity.
Qed.

(** *** Exceptions come from the entry checks only *)

Lemma update_never_throws (fuel : nat) :
  forall alpha A_MC_Star A_MR_Star beta C st c,
  update_ready A_MC_Star A_MR_Star C ->
  HerkUNUpdate fuel alpha A_MC_Star A_MR_Star beta C st <> Throw c.
Proof.
  induction fuel as [|fuel IH];
    intros alpha A_MC_Star A_MR_Star beta C st c R; [discriminate|].
  rewrite HerkUNUpdate_S. cbv zeta. rewrite (update_checks_ok R). cbn [bind].
  destruct (Height C <? 2 * GridWidth (GetGrid C) * Blocksize).
  - destruct (kernel_spec alpha beta
                (emit (EvEnter RHerkUNUpdate beta (Height C)) st) R)
      as (st' & E & _).
    rewrite E. discriminate.
  - pose proof R as [g1 g2 d1 d2 [d3 d4] h1 h2 sq w a1 a2].
    unfold LockedPartitionDown, PartitionDownDiagonal.
    rewrite h1, h2, sq.
    assert (Hh : Height C / 2 <= Height C)
      by (apply Nat.Div0.div_le_upper_bound; lia).
    rewrite !Nat.min_id, !(Nat.min_l _ _ Hh).
    destruct (HerkUNUpdate fuel alpha _ _ beta (View C 0 0 _ _) _)
      as [st1| |] eqn:E1; cbn [bind].
    + apply IH. apply update_ready_bottom; exact R.
    + exfalso. eapply IH; [|exact E1]. apply update_ready_top; exact R.
    + discriminate.
Qed.

Lemma update_checks_inv A_MC_Star A_MR_Star C :
  RELEASE = false ->
  ColDist A_MC_Star = MC -> ColDist A_MR_Star = MR ->
  ColDist C = MC -> RowDist C = MR ->
  update_checks A_MC_Star A_MR_Star C = Ok tt ->
  update_ready A_MC_Star A_MR_Star C.
Proof.
  intros Hr d1 d2 d3 d4. unfold update_checks. rewrite Hr.
  destruct (grid_eqb (GetGrid A_MC_Star) (GetGrid A_MR_Star)) eqn:G1;
    cbn [negb orb]; [|discriminate].
  destruct (grid_eqb (GetGrid A_MR_Star) (GetGrid C)) eqn:G2;
    cbn [negb]; [|discriminate].
  apply grid_eqb_eq in G1, G2.
  destruct (Nat.eqb_spec (Height A_MC_Star) (Height C)); cbn [negb orb];
    [|discriminate].
  destruct (Nat.eqb_spec (Height A_MR_Star) (Width C)); cbn [negb orb];
    [|discriminate].
  destruct (Nat.eqb_spec (Height A_MC_Star) (Height A_MR_Star)); cbn [negb orb];
    [|discriminate].
  destruct (Nat.eqb_spec (Width A_MC_Star) (Width A_MR_Star)); cbn [negb];
    [|discriminate].
  destruct (Nat.eqb_spec (ColAlignment A_MC_Star) (ColAlignment C));
    cbn [negb orb]; [|discriminate].
  destruct (Nat.eqb_spec (ColAlignment A_MR_Star) (RowAlignment C));
    cbn [negb]; [|discriminate].
  intros _. constructor; auto; congruence.
Qed.

(** X4: in either build, an exception of [HerkUNUpdate] is the one of the
    checks at its entry, raised before anything is written: once a call is
    past them, neither it nor the calls it makes throw. *)
Theorem HerkUNUpdate_throws_at_entry (fuel : nat) alpha A_MC_Star A_MR_Star
  beta C st c :
  ColDist A_MC_Star = MC -> ColDist A_MR_Star = MR ->
  ColDist C = MC -> RowDist C = MR ->
  HerkUNUpdate fuel alpha A_MC_Star A_MR_Star beta C st = Throw c ->
  update_checks A_MC_Star A_MR_Star C = Throw c.
Proof.
  intros d1 d2 d3 d4 E.
  destruct (update_checks A_MC_Star A_MR_Star C) as [[]|c'|] eqn:Ec.
  - exfalso. destruct RELEASE eqn:Hr.
    + eapply release_update_never_throws; eassumption.
    + eapply update_never_throws; [|exact E].
      apply update_checks_inv; assumption.
  - destruct fuel as [|fuel]; [discriminate|].
    rewrite HerkUNUpdate_S in E. cbv zeta in E. rewrite Ec in E.
    cbn [bind] in E. injection E as ->. reflexivity.
  - unfold update_checks in Ec.
    destruct RELEASE; [discriminate|].
    repeat match type of Ec with
           | (if ?b then _ else _) = _ => destruct b
           end; discriminate.
Qed.





(** X7: in exact arithmetic (the scalars form a commutative ring; not so in
    floating point, where splitting the columns changes the order of the
    sums), for conformal operands over one grid held in different buffers
    and a positive block size: updates compose over the columns of A: a call
    on the first [k1] columns followed by a call with beta = 1 on the
    remaining ones leaves every buffer as one call on all of A does. *)
Theorem HerkUN_compose (fuel k1 : nat) alpha A beta C st :
  0 < Blocksize -> 0 < GridWidth (GetGrid C) ->
  herk_ready A C ->
  Width A + Height C < fuel ->
  k1 <= Width A ->
  exists st1 st2 st',
    HerkUN fuel alpha (View A 0 0 (Height A) k1) beta C st = Ok st1 /\
    HerkUN fuel alpha (View A 0 k1 (Height A) (Width A - k1)) one C st1
      = Ok st2 /\
    HerkUN fuel alpha A beta C st = Ok st' /\
    forall id I J, store st2 id I J = store st' id I J.
Proof.
  intros Hnb Hgw R Hfuel Hk. pose proof R as [g [d3 d4] h sq na].
  destruct (@herk_store fuel alpha (View A 0 0 (Height A) k1) beta C st
              Hnb Hgw) as (st1 & E1 & F1);
    [constructor; simpl; auto | simpl; lia |].
  destruct (@herk_store fuel alpha (View A 0 k1 (Height A) (Width A - k1)) one
              C st1 Hnb Hgw) as (st2 & E2 & F2);
    [constructor; simpl; auto | simpl; lia |].
  destruct (@herk_store fuel alpha A beta C st Hnb Hgw R Hfuel)
    as (st' & E & F).
  exists st1, st2, st'. split; [exact E1|]. split; [exact E2|].
  split; [exact E|].
  assert (HA : forall I J, store st1 (Storage A) I J = store st (Storage A) I J).
  { intros I J. rewrite F1. unfold herk_closed_form.
    destruct (Nat.eqb_spec (Storage A) (Storage C)); [contradiction|].
    reflexivity. }
  intros id I J. rewrite F2, F. unfold herk_closed_form.
  destruct ((id =? Storage C) && inside C I J) eqn:Hin.
  - cbv zeta. rewrite !F1. unfold herk_closed_form. rewrite Hin. cbv zeta.
    simpl Storage. simpl Width.
    destruct (J - ColOff C <? I - RowOff C); [ring|].
    set (i := I - RowOff C). set (j := J - ColOff C).
    set (G := fun t => mul (entry A (store st (Storage A)) i t)
                           (Conj (entry A (store st (Storage A)) j t))).
    assert (Hs : sum_n (Width A) G =
                 add (sum_n k1 G) (sum_n (Width A - k1) (fun t => G (k1 + t)))).
    { rewrite <- sum_n_app. f_equal. lia. }
    rewrite Hs.
    rewrite (@sum_n_ext k1 _ G).
    + rewrite (@sum_n_ext (Width A - k1) _ (fun t => G (k1 + t))); [ring|].
      intros t _. unfold G, entry. simpl. rewrite !HA.
      rewrite !Nat.add_0_r. rewrite !Nat.add_assoc. reflexivity.
    + intros t _. unfold G, entry. simpl. rewrite !Nat.add_0_r. reflexivity.
  - rewrite F1. unfold herk_closed_form. rewrite Hin. reflexivity.
Qed.

(** *** The number of panels *)








End Herk.

Arguments InStore {T} C.

(** ** The local multiplies and the global one

    [BLAS::Gemm] is called by every process on its local matrices.  Under the
    ownership rule, and with the operands aligned as the checks of
    [HerkUNUpdate] demand, what a process computes for entry [(l, k)] of its
    local matrix of C is what [Gemm_buf] puts at the global index of that
    entry; every global entry is held by one process. *)

Section LocalView.

Variable T : Type.
Variables (zero : T) (add mul : T -> T -> T) (Conj : T -> T).

(** The grid coordinate a distribution looks at, for the process at row [p]
    and column [q] of the grid. *)
Definition coordinate (d : Dist) (p q : nat) : nat :=
  match d with
  | MC => p
  | MR => q
  | Star => 0
  end.

(** Entry [(l, k)] of the local matrix of [M] on the process at [(p, q)]. *)
Definition local_entry {S : Type} (M : DistMatrix S) (b : Buf T)
  (p q l k : nat) : T :=
  entry M b
    (global_index (stride (GetGrid M) (ColDist M)) (ColAlignment M)
       (coordinate (ColDist M) p q) l)
    (global_index (stride (GetGrid M) (RowDist M)) (RowAlignment M)
       (coordinate (RowDist M) p q) k).

(** Modelled from the spec: the local dense multiply C := alpha A B^H + beta C
    on local matrices, [A] and [B] having [n] columns. *)
Definition local_Gemm (alpha : T) (A B : nat -> nat -> T) (n : nat) (beta : T)
  (C : nat -> nat -> T) : nat -> nat -> T :=
  fun l k =>
    add (mul alpha (sum_n zero add n (fun t => mul (A l t) (Conj (B k t)))))
        (mul beta (C l k)).

Lemma global_index_Star (a t : nat) : global_index 1 a 0 t = t.
Proof.
  unfold global_index, first_owned. rewrite Nat.mod_1_r. lia.
Qed.

Theorem local_Gemm_is_global {S : Type} (alpha : T) (A B : DistMatrix (Buf T))
  (beta : T) (C : DistMatrix S) (b : Buf T) (p q l k : nat) :
  ColDist A = MC -> RowDist A = Star ->
  ColDist B = MR -> RowDist B = Star ->
  ColDist C = MC -> RowDist C = MR ->
  GetGrid A = GetGrid C -> GetGrid B = GetGrid C ->
  ColAlignment A = ColAlignment C -> ColAlignment B = RowAlignment C ->
  global_index (GridHeight (GetGrid C)) (ColAlignment C) p l < Height C ->
  global_index (GridWidth (GetGrid C)) (RowAlignment C) q k < Width C ->
  local_entry C (Gemm_buf zero add mul Conj alpha A B beta C b) p q l k =
  local_Gemm alpha (local_entry A (Storage A) p q) (local_entry B (Storage B) p q)
    (Width A) beta (local_entry C b p q) l k.
Proof.
  intros dA dA' dB dB' dC dC' gA gB aA aB Hi Hj.
  unfold local_entry, local_Gemm.
  rewrite dA, dA', dB, dB', dC, dC', gA, gB, aA, aB. cbn [stride coordinate].
  set (i := global_index (GridHeight (GetGrid C)) (ColAlignment C) p l) in *.
  set (j := global_index (GridWidth (GetGrid C)) (RowAlignment C) q k) in *.
  unfold entry at 1. unfold Gemm_buf, modify.
  rewrite inside_true by lia.
  replace (RowOff C + i - RowOff C) with i by lia.
  replace (ColOff C + j - ColOff C) with j by lia.
  f_equal. f_equal. apply sum_n_ext. intros t _.
  rewrite !global_index_Star. reflexivity.
Qed.

(** The process that holds a global entry of a [MC,MR] matrix, and where. *)
Theorem entry_holder {S : Type} (C : DistMatrix S) (i j : nat) :
  0 < GridHeight (GetGrid C) -> 0 < GridWidth (GetGrid C) ->
  exists p q,
    (p < GridHeight (GetGrid C) /\ q < GridWidth (GetGrid C)) /\
    (global_index (GridHeight (GetGrid C)) (ColAlignment C) p
       (i / GridHeight (GetGrid C)) = i /\
     global_index (GridWidth (GetGrid C)) (RowAlignment C) q
       (j / GridWidth (GetGrid C)) = j) /\
    forall p' q',
      p' < GridHeight (GetGrid C) -> q' < GridWidth (GetGrid C) ->
      owns_index (GridHeight (GetGrid C)) (ColAlignment C) p' i = true ->
      owns_index (GridWidth (GetGrid C)) (RowAlignment C) q' j = true ->
      p' = p /\ q' = q.
Proof.
  intros Hr Hc.
  destruct (owner_unique (ColAlignment C) i Hr) as (p & [Hp Op] & Up).
  destruct (owner_unique (RowAlignment C) j Hc) as (q & [Hq Oq] & Uq).
  exists p, q. split; [split; assumption|]. split.
  - split; apply global_index_of_owned; assumption.
  - intros p' q' Hp' Hq' Op' Oq'. split; symmetry; [apply Up | apply Uq]; auto.
Qed.

End LocalView.

(** ** Independence of the cut-off *)

Section Thresholds.

Variable T : Type.
Variables (zero one : T) (add mul sub : T -> T -> T) (opp : T -> T).
Variable Conj : T -> T.
Hypothesis Tring : ring_theory zero one add mul sub opp (@eq T).
Variable RELEASE : bool.
Variable uninitialized : nat -> nat -> T.

(** C2: whatever the block size, hence wherever the test
    [C.Height() < 2*grid.Width()*Blocksize()] stops the recursion,
    [HerkUNUpdate] (recursing on the diagonal quadrants after one product on
    the top-right one) and [HerkUNUpdateKernel] return, and leave the same
    values in the upper triangle of C. *)
Theorem C2_recursion_equals_kernel (nb1 nb2 fuel : nat) alpha
  (A_MC_Star A_MR_Star : DistMatrix (Buf T)) beta (C : DistMatrix nat)
  (st : State T) :
  0 < nb1 -> 0 < nb2 -> 0 < GridWidth (GetGrid C) ->
  update_ready A_MC_Star A_MR_Star C ->
  Height C < fuel ->
  exists s1 s2 sk,
    HerkUNUpdate zero one add mul Conj RELEASE nb1 uninitialized fuel
      alpha A_MC_Star A_MR_Star beta C st = Ok s1 /\
    HerkUNUpdate zero one add mul Conj RELEASE nb2 uninitialized fuel
      alpha A_MC_Star A_MR_Star beta C st = Ok s2 /\
    HerkUNUpdateKernel zero one add mul Conj RELEASE uninitialized
      alpha A_MC_Star A_MR_Star beta C st = Ok sk /\
    forall i j, i <= j -> j < Height C ->
      Centry C s1 i j = Centry C sk i j /\ Centry C s2 i j = Centry C sk i j.
Proof.
  intros H1 H2 Hgw R Hfuel.
  destruct (@update_equals_kernel T zero one add mul sub opp Conj Tring RELEASE
              nb1 uninitialized fuel alpha A_MC_Star A_MR_Star beta C st
              H1 Hgw R Hfuel) as (s1 & k1 & E1 & Ek1 & F1).
  destruct (@update_equals_kernel T zero one add mul sub opp Conj Tring RELEASE
              nb2 uninitialized fuel alpha A_MC_Star A_MR_Star beta C st
              H2 Hgw R Hfuel) as (s2 & k2 & E2 & Ek2 & F2).
  exists s1, s2, k1. split; [exact E1|]. split; [exact E2|].
  split; [exact Ek1|].
  intros i j Hij Hj. split; [apply F1; assumption|].
  rewrite Ek1 in Ek2. injection Ek2 as ->. apply F2; assumption.
Qed.

End Thresholds.

(** ** Independence of the configuration *)

Section Configurations.

Variable T : Type.
Variables (zero one : T) (add mul sub : T -> T -> T) (opp : T -> T).
Variable Conj : T -> T.
Hypothesis Tring : ring_theory zero one add mul sub opp (@eq T).

(** X1: in exact arithmetic (the scalars form a commutative ring; not so in
    floating point, where the block size changes the order of the sums), for
    conformal operands over one grid held in different buffers and positive
    block sizes: the block size, the build ([RELEASE] or not) and what
    fresh temporaries hold change nothing to what [HerkUN] computes: two
    calls that differ only in these return and leave every buffer with the
    same entries. *)
Theorem HerkUN_configuration_independent
  (release1 release2 : bool) (nb1 nb2 : nat)
  (uninitialized1 uninitialized2 : nat -> nat -> T) (fuel : nat)
  alpha (A : DistMatrix nat) beta (C : DistMatrix nat) (st : State T) :
  0 < nb1 -> 0 < nb2 -> 0 < GridWidth (GetGrid C) ->
  herk_ready A C ->
  Width A + Height C < fuel ->
  exists st1 st2,
    HerkUN zero one add mul Conj release1 nb1 uninitialized1 fuel
      alpha A beta C st = Ok st1 /\
    HerkUN zero one add mul Conj release2 nb2 uninitialized2 fuel
      alpha A beta C st = Ok st2 /\
    forall id I J, store st1 id I J = store st2 id I J.
Proof.
  intros H1 H2 Hgw R Hfuel.
  destruct (@herk_store T zero one add mul sub opp Conj Tring release1 nb1
              uninitialized1 fuel alpha A beta C st H1 Hgw R Hfuel)
    as (st1 & E1 & F1).
  destruct (@herk_store T zero one add mul sub opp Conj Tring release2 nb2
              uninitialized2 fuel alpha A beta C st H2 Hgw R Hfuel)
    as (st2 & E2 & F2).
  exists st1, st2. split; [exact E1|]. split; [exact E2|].
  intros id I J. rewrite F1, F2. reflexivity.
Qed.

End Configurations.

(** ** An instance: Gaussian integers *)

Module Gauss.

Local Open Scope Z_scope.

Definition G : Type := (Z * Z)%type.

Definition zero : G := (0, 0).
Definition one : G := (1, 0).
Definition add (x y : G) : G := (fst x + fst y, snd x + snd y).
Definition mul (x y : G) : G :=
  (fst x * fst y - snd x * snd y, fst x * snd y + snd x * fst y).
Definition opp (x : G) : G := (- fst x, - snd x).
Definition sub (x y : G) : G := (fst x - fst y, snd x - snd y).
Definition Conj (x : G) : G := (fst x, - snd x).

Lemma ring : ring_theory zero one add mul sub opp (@eq G).
Proof.
  constructor; unfold zero, one, add, mul, sub, opp;
    intros; repeat match goal with x : G |- _ => destruct x end;
    cbn [fst snd]; f_equal; ring.
Qed.

End Gauss.

(** ** The scenario of the design document

    A 2 x 2 grid, m = 6, k = 4, the upper triangle, and A(i,j) = i + j (here
    with an imaginary part, to exercise the conjugation). *)

Definition ex_grid : Grid := mkGrid 0 2 2 0.

Definition ex_A : DistMatrix nat :=
  mkDistMatrix MC MR ex_grid 6 4 0 0 0 0 1.

Definition ex_C : DistMatrix nat :=
  mkDistMatrix MC MR ex_grid 6 6 0 0 0 0 2.

Definition ex_store : nat -> Buf Gauss.G :=
  fun id i j =>
    if id =? 1 then (Z.of_nat (i + j), Z.of_nat i)
    else (Z.of_nat (i * 10 + j), 1%Z).

Definition ex_st : State Gauss.G := mkState ex_store [].

Definition ex_uninitialized : Buf Gauss.G := fun _ _ => (7%Z, 7%Z).

Definition ex_HerkUN (RELEASE : bool) (Blocksize : nat) (alpha : Gauss.G)
  (A : DistMatrix nat) (beta : Gauss.G) (C : DistMatrix nat)
  : Outcome (State Gauss.G) :=
  HerkUN Gauss.zero Gauss.one Gauss.add Gauss.mul Gauss.Conj RELEASE Blocksize
    ex_uninitialized 20 alpha A beta C ex_st.

(** Entry [(i, j)] of [C] after a call, when the call returned. *)
Definition result_entry (o : Outcome (State Gauss.G)) (C : DistMatrix nat)
  (i j : nat) : option Gauss.G :=
  match o with
  | Ok st => Some (Centry C st i j)
  | _ => None
  end.



Definition result_shapes (o : Outcome (State Gauss.G)) : list Shape :=
  match o with
  | Ok st => map (@shape _) (trace st)
  | _ => []
  end.

Example ex_entry_0_0 :
  result_entry (ex_HerkUN false 2 (1, 0)%Z ex_A (0, 0)%Z ex_C) ex_C 0 0
  = Some (14, 0)%Z.
Proof. vm_compute. reflexivity. Qed.

Example ex_entry_1_2 :
  result_entry (ex_HerkUN false 1 (1, 0)%Z ex_A (0, 0)%Z ex_C) ex_C 1 2
  = Some (48, -6)%Z.
Proof. vm_compute. reflexivity. Qed.

Example ex_entry_2_1 :
  result_entry (ex_HerkUN false 1 (1, 0)%Z ex_A (3, 0)%Z ex_C) ex_C 2 1
  = Some (63, 3)%Z.
Proof. vm_compute. reflexivity. Qed.

(** Why the operands must not overlap: called with C itself as A (alpha = 1,
    beta = 0), the scaling of C is seen through A, and entry (0, 1) ends as
    0, not as the
    sum over t of C(0,t) * conj(C(1,t)) for the C of before the call. *)
Example ex_aliased_call :
  result_entry (ex_HerkUN false 1 (1, 0)%Z ex_C (0, 0)%Z ex_C) ex_C 0 1
    = Some (0, 0)%Z /\
  sum_n Gauss.zero Gauss.add (Width ex_C)
    (fun t => Gauss.mul (Centry ex_C ex_st 0 t)
                (Gauss.Conj (Centry ex_C ex_st 1 t)))
    = (211, 60)%Z.
Proof. split; vm_compute; reflexivity. Qed.

(** The first panel of [ex_A] for block size 2, in its two layouts. *)
Definition ex_A_MC : DistMatrix (Buf Gauss.G) :=
  mkDistMatrix MC Star ex_grid 6 2 0 0 0 0
    (fun i t => (Z.of_nat (i + t), Z.of_nat i)).

Definition ex_A_MR : DistMatrix (Buf Gauss.G) :=
  mkDistMatrix MR Star ex_grid 6 2 0 0 0 0
    (fun i t => (Z.of_nat (i + t), Z.of_nat i)).

Definition ex_HerkUNUpdate (Blocksize : nat) (beta : Gauss.G)
  : Outcome (State Gauss.G) :=
  HerkUNUpdate Gauss.zero Gauss.one Gauss.add Gauss.mul Gauss.Conj false
    Blocksize ex_uninitialized 7 (2, 1)%Z ex_A_MC ex_A_MR beta ex_C ex_st.



Lemma ex_herk_ready : herk_ready ex_A ex_C.
Proof. constructor; simpl; auto; discriminate. Defined.

Lemma ex_update_ready : update_ready ex_A_MC ex_A_MR ex_C.
Proof. constructor; simpl; auto. Defined.

(** A held in the buffer of C, in columns 6 to 9, beside the window of C. *)
Definition ex_A_beside_C : DistMatrix nat :=
  mkDistMatrix MC MR ex_grid 6 4 0 0 0 6 2.

Lemma ex_herk_operands : herk_operands ex_A_beside_C ex_C.
Proof.
  constructor; simpl; auto. right. simpl. intros i j Hi Hj.
  apply inside_false. simpl. lia.
Defined.

(** Entry (1, 2) of the product of that A with its adjoint, for two block
    sizes and both builds. *)
Example ex_entry_beside_C :
  result_entry (ex_HerkUN false 1 (1, 0)%Z ex_A_beside_C (0, 0)%Z ex_C) ex_C 1 2
    = Some (1934, 40)%Z /\
  result_entry (ex_HerkUN true 3 (1, 0)%Z ex_A_beside_C (0, 0)%Z ex_C) ex_C 1 2
    = Some (1934, 40)%Z.
Proof. split; vm_compute; reflexivity. Qed.

Lemma C1_witness :
  exists st',
    ex_HerkUN false 1 (2, 1)%Z ex_A_beside_C (3, 0)%Z ex_C = Ok st' /\
    forall i j, i <= j -> j < Height ex_C ->
      Centry ex_C st' i j =
      Gauss.add (Gauss.mul (3, 0)%Z (Centry ex_C ex_st i j))
        (Gauss.mul (2, 1)%Z
           (sum_n Gauss.zero Gauss.add (Width ex_A_beside_C)
              (fun t =>
                 Gauss.mul
                   (entry ex_A_beside_C
                      (store ex_st (Storage ex_A_beside_C)) i t)
                   (Gauss.Conj
                      (entry ex_A_beside_C
                         (store ex_st (Storage ex_A_beside_C)) j t))))).
Proof.
  destruct (@C1_HerkUN_upper_triangle _ _ _ _ _ _ _ Gauss.Conj Gauss.ring
              false 1 ex_uninitialized 20 (2, 1)%Z ex_A_beside_C (3, 0)%Z
              ex_C ex_st ex_herk_operands) as [P Q].
  destruct Q as [st' E]; [lia | simpl; lia | simpl; lia |].
  exists st'. split; [exact E | exact (P st' E)].
Defined.

(** C1, as stated, fails when A and C overlap: called with C itself as A
    (alpha = 1, beta = 0), a conformal call over one grid, [HerkUN] returns
    and entry (0, 1) of C ends as 0, while the claimed value, beta times the
    original entry plus alpha times the sum over t of C(0,t) * conj(C(1,t))
    for the C of before the call, is 211 + 60 i. *)
Lemma C1_counterexample :
  (GetGrid ex_C = GetGrid ex_C /\ Height ex_C = Height ex_C /\
   Height ex_C = Width ex_C) /\
  result_entry (ex_HerkUN false 1 (1, 0)%Z ex_C (0, 0)%Z ex_C) ex_C 0 1
    = Some (0, 0)%Z /\
  Gauss.add (Gauss.mul (0, 0)%Z (Centry ex_C ex_st 0 1))
    (Gauss.mul (1, 0)%Z
       (sum_n Gauss.zero Gauss.add (Width ex_C)
          (fun t =>
             Gauss.mul (entry ex_C (store ex_st (Storage ex_C)) 0 t)
               (Gauss.Conj (entry ex_C (store ex_st (Storage ex_C)) 1 t)))))
    = (211, 60)%Z.
Proof.
  split; [repeat split|]. split; vm_compute; reflexivity.
Qed.


Lemma C4_witness :
  exists st0 st' evs,
    ex_HerkUN false 1 (2, 1)%Z ex_A (3, 0)%Z ex_C = Ok st' /\
    st0 = Scal Gauss.mul (3, 0)%Z ex_C
            (emit (EvEnter RHerkUN (3, 0)%Z (Height ex_C)) ex_st) /\
    trace st0 =
      trace ex_st ++ [EvEnter RHerkUN (3, 0)%Z (Height ex_C);
                      EvScal (3, 0)%Z (InStore ex_C)] /\
    (forall i j, i < Height ex_C -> j < Width ex_C ->
       Centry ex_C st0 i j = Gauss.mul (3, 0)%Z (Centry ex_C ex_st i j)) /\
    trace st' = trace st0 ++ evs /\
    Forall (fun e => forall b, rescale e = Some b -> b = Gauss.one) evs /\
    (exists evs', evs = EvEnter RHerkUNUpdate Gauss.one (Height ex_C) :: evs') /\
    (forall i j, i <= j -> j < Height ex_C ->
       Centry ex_C st' i j =
       Gauss.add (Centry ex_C st0 i j)
         (Gauss.mul (2, 1)%Z
            (sum_n Gauss.zero Gauss.add (Width ex_A)
               (fun t =>
                  Gauss.mul (entry ex_A (store ex_st (Storage ex_A)) i t)
                    (Gauss.Conj
                       (entry ex_A (store ex_st (Storage ex_A)) j t)))))) /\
    (forall i j, j < i -> i < Height ex_C ->
       Centry ex_C st' i j = Centry ex_C st0 i j).
Proof.
  destruct (@C4_HerkUN_scales_once _ _ _ _ _ _ _ Gauss.Conj Gauss.ring false 1
              ex_uninitialized 20 (2, 1)%Z ex_A (3, 0)%Z ex_C ex_st)
    as (P & _ & Q).
  destruct Q as [st' E];
    [exact (herk_ready_operands ex_herk_ready) | lia | simpl; lia
    | simpl; lia |].
  destruct (P st' E) as (st0 & evs & E0 & T0 & S0 & _ & Etr & F & Hfirst & Hs).
  destruct (Hs (herk_ready_operands ex_herk_ready)) as [F3 F4].
  exists st0, st', evs.
  split; [exact E|]. split; [exact E0|]. split; [exact T0|].
  split; [exact S0|]. split; [exact Etr|]. split; [exact F|].
  split; [apply Hfirst; simpl; lia|]. split; [exact F3 | exact F4].
Defined.

Lemma C2_witness :
  exists s1 s2 sk,
    ex_HerkUNUpdate 1 (3, 0)%Z = Ok s1 /\
    ex_HerkUNUpdate 4 (3, 0)%Z = Ok s2 /\
    HerkUNUpdateKernel Gauss.zero Gauss.one Gauss.add Gauss.mul Gauss.Conj
      false ex_uninitialized (2, 1)%Z ex_A_MC ex_A_MR (3, 0)%Z ex_C ex_st
      = Ok sk /\
    forall i j, i <= j -> j < Height ex_C ->
      Centry ex_C s1 i j = Centry ex_C sk i j /\
      Centry ex_C s2 i j = Centry ex_C sk i j.
Proof.
  apply (@C2_recursion_equals_kernel _ _ _ _ _ _ _ Gauss.Conj Gauss.ring false
           ex_uninitialized 1 4 7 (2, 1)%Z ex_A_MC ex_A_MR (3, 0)%Z ex_C ex_st);
    [lia | lia | simpl; lia | exact ex_update_ready | simpl; lia].
Defined.

(** With block size 1 the scenario recurses once, with block size 2 it does
    not. *)
Example ex_recursion_shapes :
  result_shapes (ex_HerkUNUpdate 1 (3, 0)%Z) =
  [ SEnter RHerkUNUpdate 6; SGemm true 3 3 2;
    SEnter RHerkUNUpdate 3; SEnter RHerkUNUpdateKernel 3; SScal true 3 3;
    SGemm true 1 2 2; SGemm false 1 1 2; SMakeTrapezoidal false 1 1;
    SAxpy true 1 1; SGemm false 2 2 2; SMakeTrapezoidal false 2 2;
    SAxpy true 2 2;
    SEnter RHerkUNUpdate 3; SEnter RHerkUNUpdateKernel 3; SScal true 3 3;
    SGemm true 1 2 2; SGemm false 1 1 2; SMakeTrapezoidal false 1 1;
    SAxpy true 1 1; SGemm false 2 2 2; SMakeTrapezoidal false 2 2;
    SAxpy true 2 2 ].
Proof. vm_compute. reflexivity. Qed.

Lemma C3_witness :
  exists st' evs,
    ex_HerkUNUpdate 2 (3, 0)%Z = Ok st' /\
    trace st' = trace ex_st ++ evs /\
    map (@shape _) evs =
      [ SEnter RHerkUNUpdate 6; SEnter RHerkUNUpdateKernel 6; SScal true 6 6;
        SGemm true 3 3 2; SGemm false 3 3 2; SMakeTrapezoidal false 3 3;
        SAxpy true 3 3; SGemm false 3 3 2; SMakeTrapezoidal false 3 3;
        SAxpy true 3 3 ] /\
    (forall id I J,
       store st' id I J =
       store (masked_full_multiply Gauss.zero Gauss.one Gauss.add Gauss.mul
                Gauss.Conj ex_uninitialized (2, 1)%Z ex_A_MC ex_A_MR (3, 0)%Z
                ex_C ex_st) id I J).
Proof.
  apply (@C3_base_case _ _ _ _ _ _ _ Gauss.Conj Gauss.ring false 2
           ex_uninitialized 6 (2, 1)%Z ex_A_MC ex_A_MR (3, 0)%Z ex_C ex_st);
    [exact ex_update_ready | simpl; lia].
Defined.

(** C3, as stated, fails on the scenario: below the cut-off the kernel
    computes three 3 x 3 products and no 6 x 6 one. *)
Lemma C3_counterexample :
  Height ex_C < 2 * GridWidth (GetGrid ex_C) * 2 /\
  gemm_shapes (result_shapes (ex_HerkUNUpdate 2 (3, 0)%Z))
    = [(3, 3); (3, 3); (3, 3)] /\
  gemm_shapes (result_shapes (ex_HerkUNUpdate 2 (3, 0)%Z))
    <> [(Height ex_C, Width ex_C)].
Proof.
  split; [simpl; lia|]. split; [vm_compute; reflexivity|].
  vm_compute. discriminate.
Qed.




(** ** Instances of the further properties *)

Definition ex_uninitialized' : Buf Gauss.G := fun i j => (Z.of_nat i, Z.of_nat j).

Lemma HerkUN_configuration_independent_witness :
  exists st1 st2,
    HerkUN Gauss.zero Gauss.one Gauss.add Gauss.mul Gauss.Conj false 1
      ex_uninitialized 20 (2, 1)%Z ex_A (3, 0)%Z ex_C ex_st = Ok st1 /\
    HerkUN Gauss.zero Gauss.one Gauss.add Gauss.mul Gauss.Conj true 3
      ex_uninitialized' 20 (2, 1)%Z ex_A (3, 0)%Z ex_C ex_st = Ok st2 /\
    forall id I J, store st1 id I J = store st2 id I J.
Proof.
  eapply HerkUN_configuration_independent;
    [exact Gauss.ring | lia | lia | simpl; lia | exact ex_herk_ready
    | simpl; lia].
Defined.

Lemma HerkUN_null_update_witness :
  exists st',
    ex_HerkUN false 1 Gauss.zero ex_A Gauss.one ex_C = Ok st' /\
    forall id I J, store st' id I J = store ex_st id I J.
Proof.
  unfold ex_HerkUN. eapply HerkUN_null_update;
    [exact Gauss.ring | lia | simpl; lia | exact ex_herk_ready | simpl; lia].
Defined.

(** The scenario with a matrix A that has no column, and a block size of
    zero. *)
Definition ex_A_empty : DistMatrix nat :=
  mkDistMatrix MC MR ex_grid 6 0 0 0 0 0 1.

Lemma HerkUN_no_column_witness :
  exists st',
    HerkUN Gauss.zero Gauss.one Gauss.add Gauss.mul Gauss.Conj false 0
      ex_uninitialized 0 (2, 1)%Z ex_A_empty (3, 0)%Z ex_C ex_st = Ok st' /\
    trace st' =
      trace ex_st ++ [EvEnter RHerkUN (3, 0)%Z (Height ex_C);
                      EvScal (3, 0)%Z (InStore ex_C)] /\
    forall id I J,
      store st' id I J =
      if (id =? Storage ex_C) && inside ex_C I J
      then Gauss.mul (3, 0)%Z (store ex_st id I J)
      else store ex_st id I J.
Proof.
  apply HerkUN_no_column; reflexivity.
Defined.

(** A panel whose alignment differs from that of C. *)
Definition ex_A_MC_misaligned : DistMatrix (Buf Gauss.G) :=
  mkDistMatrix MC Star ex_grid 6 2 1 0 0 0
    (fun i t => (Z.of_nat (i + t), Z.of_nat i)).

Lemma HerkUNUpdate_throws_at_entry_witness :
  HerkUNUpdate Gauss.zero Gauss.one Gauss.add Gauss.mul Gauss.Conj false 1
    ex_uninitialized 7 (2, 1)%Z ex_A_MC_misaligned ex_A_MR (3, 0)%Z ex_C ex_st
    = Throw [MsgMisalignedHerkUNUpdate 1 0 0 0] /\
  update_checks false ex_A_MC_misaligned ex_A_MR ex_C
    = Throw [MsgMisalignedHerkUNUpdate 1 0 0 0].
Proof.
  assert (E : HerkUNUpdate Gauss.zero Gauss.one Gauss.add Gauss.mul Gauss.Conj
                false 1 ex_uninitialized 7 (2, 1)%Z ex_A_MC_misaligned ex_A_MR
                (3, 0)%Z ex_C ex_st = Throw [MsgMisalignedHerkUNUpdate 1 0 0 0])
    by reflexivity.
  split; [exact E|].
  exact (HerkUNUpdate_throws_at_entry Gauss.Conj Gauss.ring false 1
           ex_uninitialized 7 (2, 1)%Z ex_A_MC_misaligned ex_A_MR (3, 0)%Z ex_C
           ex_st eq_refl eq_refl eq_refl eq_refl E).
Defined.



Lemma HerkUN_compose_witness :
  exists st1 st2 st',
    ex_HerkUN false 2 (2, 1)%Z (View ex_A 0 0 (Height ex_A) 3) (3, 0)%Z ex_C
      = Ok st1 /\
    HerkUN Gauss.zero Gauss.one Gauss.add Gauss.mul Gauss.Conj false 2
      ex_uninitialized 20 (2, 1)%Z
      (View ex_A 0 3 (Height ex_A) (Width ex_A - 3)) Gauss.one ex_C st1
      = Ok st2 /\
    ex_HerkUN false 2 (2, 1)%Z ex_A (3, 0)%Z ex_C = Ok st' /\
    forall id I J, store st2 id I J = store st' id I J.
Proof.
  unfold ex_HerkUN. eapply HerkUN_compose;
    [exact Gauss.ring | lia | simpl; lia | exact ex_herk_ready | simpl; lia
    | simpl; lia].
Defined.


(** Four columns in panels of three: two panels, of three columns and one. *)
Example ex_two_panels :
  result_shapes (ex_HerkUN false 3 (2, 1)%Z ex_A (3, 0)%Z ex_C) =
  [ SEnter RHerkUN 6; SScal true 6 6;
    SEnter RHerkUNUpdate 6; SEnter RHerkUNUpdateKernel 6; SScal true 6 6;
    SGemm true 3 3 3; SGemm false 3 3 3; SMakeTrapezoidal false 3 3;
    SAxpy true 3 3; SGemm false 3 3 3; SMakeTrapezoidal false 3 3;
    SAxpy true 3 3;
    SEnter RHerkUNUpdate 6; SEnter RHerkUNUpdateKernel 6; SScal true 6 6;
    SGemm true 3 3 1; SGemm false 3 3 1; SMakeTrapezoidal false 3 3;
    SAxpy true 3 3; SGemm false 3 3 1; SMakeTrapezoidal false 3 3;
    SAxpy true 3 3 ].
Proof. vm_compute. reflexivity. Qed.

(** * The redistribution protocol (design document, sections 3, 4.2 and 8)

    The redistribution routines are not among the verified sources; this
    part follows the words of the design document. *)

Module Redist.

(** The distributions of one dimension, in the order the document lists
    them.  In the names of the sources: [MC], [MR], [VR], [VC], [STAR] and
    [CIRC]. *)
Inductive Dist : Type :=
| GridRow | GridCol | RowMajorLinear | ColMajorLinear | Replicated
| SingleProcess.

Record Descriptor : Type := mkDescriptor {
  rowDist : Dist;      (* how the row index is distributed *)
  colDist : Dist;      (* how the column index is distributed *)
  rowAlign : nat;
  colAlign : nat
}.

(** Modelled from the spec: the pairs of distributions a matrix can be
    declared with.  The catalogue is the list of instantiations
    [PROTO_DIST(T,U,V)] of PartialColFilter.cpp (lines 41-54), without the
    diagonal distribution, which the document does not describe. *)
Definition supported (U V : Dist) : bool :=
  match U, V with
  | SingleProcess, SingleProcess
  | GridRow, GridCol | GridRow, Replicated
  | GridCol, GridRow | GridCol, Replicated
  | Replicated, GridRow | Replicated, GridCol | Replicated, Replicated
  | Replicated, ColMajorLinear | Replicated, RowMajorLinear
  | ColMajorLinear, Replicated | RowMajorLinear, Replicated => true
  | _, _ => false
  end.

Section Redistribution.

Variable T : Type.

(** The grid: [r] rows and [c] columns of processes, ranked column-major. *)
Variables r c : nat.
Hypothesis r_pos : 0 < r.
Hypothesis c_pos : 0 < c.

Definition row_rank (p : nat) : nat := p mod r.
Definition col_rank (p : nat) : nat := p / r.
Definition row_major_rank (p : nat) : nat := col_rank p + row_rank p * c.

(** Modelled from the spec: the grid extent a distribution runs over. *)
Definition extent (d : Dist) : nat :=
  match d with
  | GridRow => r
  | GridCol => c
  | RowMajorLinear | ColMajorLinear | SingleProcess => r * c
  | Replicated => 1
  end.

(** Modelled from the spec (section 3): "a process owns global row i under
    distribution grid-row with alignment a iff i mod r == (gridRow + a) mod r,
    and similarly for columns"; a replicated index is held by every process,
    and a single-process one by the process the alignment names. *)
Definition owns_dim (d : Dist) (a p i : nat) : bool :=
  match d with
  | GridRow => owns_index r a (row_rank p) i
  | GridCol => owns_index c a (col_rank p) i
  | ColMajorLinear => owns_index (r * c) a p i
  | RowMajorLinear => owns_index (r * c) a (row_major_rank p) i
  | Replicated => true
  | SingleProcess => p =? a
  end.

Definition owns (D : Descriptor) (p i j : nat) : bool :=
  owns_dim (rowDist D) (rowAlign D) p i && owns_dim (colDist D) (colAlign D) p j.

(** Modelled from the spec: a descriptor of the catalogue, with each
    alignment inside the extent of its distribution; the one process that
    holds a single-process matrix is named once. *)
Definition legal (D : Descriptor) : Prop :=
  supported (rowDist D) (colDist D) = true /\
  rowAlign D < extent (rowDist D) /\
  colAlign D < extent (colDist D) /\
  (rowDist D = SingleProcess -> rowAlign D = colAlign D).

(** Modelled from the spec: a distributed matrix is its global shape, its
    descriptor, and the local storage of every process, which holds the
    entries the process owns, "never more, never fewer". *)
Record DistributedMatrix : Type := mkDistributedMatrix {
  Desc : Descriptor;
  GHeight : nat;
  GWidth : nat;
  Local : nat -> nat -> nat -> option T
}.

Definition held (D : Descriptor) (h w p i j : nat) : bool :=
  (p <? r * c) && owns D p i j && (i <? h) && (j <? w).

Definition well_formed (M : DistributedMatrix) : Prop :=
  exists glob : nat -> nat -> T,
    forall p i j,
      Local M p i j =
      if held (Desc M) (GHeight M) (GWidth M) p i j then Some (glob i j)
      else None.

(** The process of least rank that owns [(i, j)]. *)
Definition first_owner (D : Descriptor) (i j : nat) : option nat :=
  find (fun p => owns D p i j) (seq 0 (r * c)).

(** The value of the matrix at a global index: what an owner holds there. *)
Definition global_value (M : DistributedMatrix) (i j : nat) : option T :=
  match first_owner (Desc M) i j with
  | Some q => Local M q i j
  | None => None
  end.

(** Modelled from the spec (section 4.2): the destination is declared with
    the descriptor [D2] over the same grid and shape, and its local entries
    are populated "such that, for every global index, destination value
    equals source value".  The values are moved, never computed with. *)
Definition Redistribute (M : DistributedMatrix) (D2 : Descriptor)
  : DistributedMatrix :=
  {| Desc := D2;
     GHeight := GHeight M;
     GWidth := GWidth M;
     Local := fun p i j =>
       if held D2 (GHeight M) (GWidth M) p i j then global_value M i j
       else None |}.

(** *** Every index has an owner under a legal descriptor *)

Lemma shift_mod (n a s : nat) :
  0 < n -> a < n -> s < n -> ((s + n - a) mod n + a) mod n = s.
Proof.
  intros Hn Ha Hs.
  rewrite Nat.Div0.add_mod_idemp_l.
  replace (s + n - a + a) with (s + 1 * n) by lia.
  rewrite Nat.Div0.mod_add. apply Nat.mod_small; exact Hs.
Qed.

Lemma rank_of_coordinates (x y : nat) :
  x < r -> y < c ->
  x + y * r < r * c /\ row_rank (x + y * r) = x /\ col_rank (x + y * r) = y.
Proof.
  intros Hx Hy. unfold row_rank, col_rank. split; [nia|]. split.
  - rewrite Nat.Div0.mod_add. apply Nat.mod_small; exact Hx.
  - rewrite Nat.div_add by lia. rewrite Nat.div_small by exact Hx. reflexivity.
Qed.

Lemma rc_pos : 0 < r * c.
Proof. nia. Qed.

(** A process at given grid coordinates owning each index separately. *)
Definition coordinate_for (n a i : nat) : nat := (i mod n + n - a) mod n.

Lemma coordinate_for_ok (n a i : nat) :
  0 < n -> a < n ->
  coordinate_for n a i < n /\ i mod n = (coordinate_for n a i + a) mod n.
Proof.
  intros Hn Ha. unfold coordinate_for. split.
  - apply Nat.mod_upper_bound; lia.
  - rewrite shift_mod; auto. apply Nat.mod_upper_bound; lia.
Qed.

Lemma owner_exists (D : Descriptor) (i j : nat) :
  legal D -> exists p, p < r * c /\ owns D p i j = true.
Proof.
  intros (Hs & Ha & Hb & Hsp). unfold owns.
  pose proof rc_pos as Hrc.
  destruct D as [U V a b]; simpl in *.
  destruct U, V; try discriminate; simpl in *; unfold owns_index.
  - (* grid-row, grid-col *)
    destruct (coordinate_for_ok i r_pos Ha) as [Hx Ex].
    destruct (coordinate_for_ok j c_pos Hb) as [Hy Ey].
    destruct (rank_of_coordinates Hx Hy) as (Hp & Er & Ec).
    eexists; split; [exact Hp|]. rewrite Er, Ec.
    rewrite <- Ex, <- Ey, !Nat.eqb_refl. reflexivity.
  - (* grid-row, replicated *)
    destruct (coordinate_for_ok i r_pos Ha) as [Hx Ex].
    destruct (@rank_of_coordinates _ 0 Hx c_pos) as (Hp & Er & Ec).
    eexists; split; [exact Hp|]. rewrite Er.
    rewrite <- Ex, !Nat.eqb_refl. reflexivity.
  - (* grid-col, grid-row *)
    destruct (coordinate_for_ok i c_pos Ha) as [Hy Ey].
    destruct (coordinate_for_ok j r_pos Hb) as [Hx Ex].
    destruct (rank_of_coordinates Hx Hy) as (Hp & Er & Ec).
    eexists; split; [exact Hp|]. rewrite Er, Ec.
    rewrite <- Ex, <- Ey, !Nat.eqb_refl. reflexivity.
  - (* grid-col, replicated *)
    destruct (coordinate_for_ok i c_pos Ha) as [Hy Ey].
    destruct (@rank_of_coordinates 0 _ r_pos Hy) as (Hp & Er & Ec).
    eexists; split; [exact Hp|]. rewrite Ec.
    rewrite <- Ey, !Nat.eqb_refl. reflexivity.
  - (* row-major linear, replicated *)
    destruct (coordinate_for_ok i Hrc Ha) as [Hv Ev].
    set (v := coordinate_for (r * c) a i) in *.
    assert (Hx : v / c < r) by (apply Nat.Div0.div_lt_upper_bound; lia).
    assert (Hy : v mod c < c) by (apply Nat.mod_upper_bound; lia).
    destruct (rank_of_coordinates Hx Hy) as (Hp & Er & Ec).
    eexists; split; [exact Hp|]. unfold row_major_rank. rewrite Er, Ec.
    replace (v mod c + v / c * c) with v
      by (rewrite (Nat.div_mod_eq v c) at 1; lia).
    rewrite <- Ev, Nat.eqb_refl. reflexivity.
  - (* col-major linear, replicated *)
    destruct (coordinate_for_ok i Hrc Ha) as [Hv Ev].
    eexists; split; [exact Hv|].
    rewrite <- Ev, Nat.eqb_refl. reflexivity.
  - (* replicated, grid-row *)
    destruct (coordinate_for_ok j r_pos Hb) as [Hx Ex].
    destruct (@rank_of_coordinates _ 0 Hx c_pos) as (Hp & Er & Ec).
    eexists; split; [exact Hp|]. rewrite Er.
    rewrite <- Ex, !Nat.eqb_refl. reflexivity.
  - (* replicated, grid-col *)
    destruct (coordinate_for_ok j c_pos Hb) as [Hy Ey].
    destruct (@rank_of_coordinates 0 _ r_pos Hy) as (Hp & Er & Ec).
    eexists; split; [exact Hp|]. rewrite Ec.
    rewrite <- Ey, !Nat.eqb_refl. reflexivity.
  - (* replicated, row-major linear *)
    destruct (coordinate_for_ok j Hrc Hb) as [Hv Ev].
    set (v := coordinate_for (r * c) b j) in *.
    assert (Hx : v / c < r) by (apply Nat.Div0.div_lt_upper_bound; lia).
    assert (Hy : v mod c < c) by (apply Nat.mod_upper_bound; lia).
    destruct (rank_of_coordinates Hx Hy) as (Hp & Er & Ec).
    eexists; split; [exact Hp|]. unfold row_major_rank. rewrite Er, Ec.
    replace (v mod c + v / c * c) with v
      by (rewrite (Nat.div_mod_eq v c) at 1; lia).
    rewrite <- Ev, Nat.eqb_refl. reflexivity.
  - (* replicated, col-major linear *)
    destruct (coordinate_for_ok j Hrc Hb) as [Hv Ev].
    eexists; split; [exact Hv|].
    rewrite <- Ev, Nat.eqb_refl. reflexivity.
  - (* replicated, replicated *)
    exists 0. split; [exact Hrc | reflexivity].
  - (* single process *)
    exists a. split; [exact Ha|].
    rewrite <- (Hsp eq_refl), !Nat.eqb_refl. reflexivity.
Qed.


Lemma first_owner_some (D : Descriptor) (i j : nat) :
  legal D ->
  exists q, first_owner D i j = Some q /\ q < r * c /\ owns D q i j = true.
Proof.
  intros HD. unfold first_owner.
  destruct (find (fun p => owns D p i j) (seq 0 (r * c))) as [q|] eqn:E.
  - apply find_some in E. destruct E as [Hin Hq].
    apply in_seq in Hin. exists q. split; [reflexivity|]. split; [lia|exact Hq].
  - destruct (owner_exists i j HD) as (p & Hp & Ho).
    pose proof (find_none _ _ E p) as Hn. simpl in Hn.
    rewrite Hn in Ho; [discriminate|]. apply in_seq. lia.
Qed.

Lemma held_owner (D : Descriptor) (h w q i j : nat) :
  q < r * c -> owns D q i j = true -> i < h -> j < w ->
  held D h w q i j = true.
Proof.
  intros Hq Ho Hi Hj. unfold held.
  apply Nat.ltb_lt in Hq, Hi, Hj. rewrite Hq, Ho, Hi, Hj. reflexivity.
Qed.

Lemma held_in_range (D : Descriptor) (h w p i j : nat) :
  held D h w p i j = true -> i < h /\ j < w.
Proof.
  unfold held. rewrite !andb_true_iff, !Nat.ltb_lt. tauto.
Qed.

(** The value at a global index of a well-formed matrix is the value every
    owner holds. *)
Lemma global_value_well_formed (M : DistributedMatrix) (glob : nat -> nat -> T) :
  legal (Desc M) ->
  (forall p i j,
     Local M p i j =
     if held (Desc M) (GHeight M) (GWidth M) p i j then Some (glob i j)
     else None) ->
  forall i j, i < GHeight M -> j < GWidth M ->
    global_value M i j = Some (glob i j).
Proof.
  intros HD HM i j Hi Hj. unfold global_value.
  destruct (first_owner_some i j HD) as (q & -> & Hq & Ho).
  rewrite HM, held_owner by assumption. reflexivity.
Qed.

(** Section 4.2: after a redistribution, for every global index, the
    destination value equals the source value. *)
Lemma Redistribute_global_value (M : DistributedMatrix) (D2 : Descriptor) :
  legal D2 ->
  forall i j, i < GHeight M -> j < GWidth M ->
    global_value (Redistribute M D2) i j = global_value M i j.
Proof.
  intros HD i j Hi Hj. unfold global_value at 1. simpl Desc.
  destruct (first_owner_some i j HD) as (q & -> & Hq & Ho).
  simpl. rewrite held_owner by assumption. reflexivity.
Qed.

Lemma Redistribute_well_formed (M : DistributedMatrix) (D2 : Descriptor) :
  legal (Desc M) -> well_formed M -> well_formed (Redistribute M D2).
Proof.
  intros HD [glob HM]. exists glob. intros p i j. simpl.
  destruct (held D2 (GHeight M) (GWidth M) p i j) eqn:E; [|reflexivity].
  apply held_in_range in E. destruct E as [Hi Hj].
  apply global_value_well_formed; assumption.
Qed.

(** C5: over a fixed grid, for descriptors D1 and D2 of the catalogue and a
    matrix M distributed by D1, redistributing M to D2 and back to D1 gives
    back the descriptor, the shape and, in the local storage of every
    process, every entry of M, unchanged: the values are only moved. *)
Theorem C5_redistribution_round_trip (M : DistributedMatrix)
  (D1 D2 : Descriptor) :
  legal D1 -> legal D2 -> Desc M = D1 -> well_formed M ->
  Desc (Redistribute (Redistribute M D2) D1) = Desc M /\
  GHeight (Redistribute (Redistribute M D2) D1) = GHeight M /\
  GWidth (Redistribute (Redistribute M D2) D1) = GWidth M /\
  forall p i j,
    Local (Redistribute (Redistribute M D2) D1) p i j = Local M p i j.
Proof.
  intros H1 H2 HD [glob HM]. subst D1.
  split; [reflexivity|]. split; [reflexivity|]. split; [reflexivity|].
  intros p i j. simpl Local at 1. simpl GHeight. simpl GWidth.
  rewrite HM.
  destruct (held (Desc M) (GHeight M) (GWidth M) p i j) eqn:E; [|reflexivity].
  apply held_in_range in E. destruct E as [Hi Hj].
  rewrite (@Redistribute_global_value M D2 H2 i j Hi Hj).
  apply global_value_well_formed; assumption.
Qed.

(** The matrix with global entries [glob], distributed by [D]. *)
Definition distribute (D : Descriptor) (h w : nat) (glob : nat -> nat -> T)
  : DistributedMatrix :=
  {| Desc := D; GHeight := h; GWidth := w;
     Local := fun p i j => if held D h w p i j then Some (glob i j) else None |}.

Lemma distribute_well_formed D h w glob : well_formed (distribute D h w glob).
Proof. exists glob. reflexivity. Qed.

End Redistribution.

(** A 2 x 3 grid, a 4 x 5 matrix of strings of bits, from the standard
    two-dimensional layout to a row-major linear one and back. *)
Definition ex_D1 : Descriptor := mkDescriptor GridRow GridCol 1 2.
Definition ex_D2 : Descriptor := mkDescriptor RowMajorLinear Replicated 4 0.
Definition ex_M : DistributedMatrix (list bool) :=
  distribute 2 3 ex_D1 4 5 (fun i j => [Nat.even i; Nat.odd (i + j)]).

Lemma ex_D1_legal : legal 2 3 ex_D1.
Proof. repeat split; simpl; try lia. discriminate. Defined.

Lemma ex_D2_legal : legal 2 3 ex_D2.
Proof. repeat split; simpl; try lia. discriminate. Defined.

Lemma C5_witness :
  Desc (Redistribute 2 3 (Redistribute 2 3 ex_M ex_D2) ex_D1) = Desc ex_M /\
  GHeight (Redistribute 2 3 (Redistribute 2 3 ex_M ex_D2) ex_D1) = GHeight ex_M /\
  GWidth (Redistribute 2 3 (Redistribute 2 3 ex_M ex_D2) ex_D1) = GWidth ex_M /\
  forall p i j,
    Local (Redistribute 2 3 (Redistribute 2 3 ex_M ex_D2) ex_D1) p i j =
    Local ex_M p i j.
Proof.
  assert (Hr : 0 < 2) by lia. assert (Hc : 0 < 3) by lia.
  exact (@C5_redistribution_round_trip (list bool) 2 3 Hr Hc ex_M ex_D1 ex_D2
           ex_D1_legal ex_D2_legal eq_refl
           (distribute_well_formed 2 3 ex_D1 4 5 _)).
Defined.

(** In the linear layout, entry (3, 4) sits on the process of row-major rank
    (3 - 4) mod 6 = 5, that is on process 5 = 1 + 2 * 2, and nowhere else. *)
Example ex_linear_holder :
  map (fun p => Local (Redistribute 2 3 ex_M ex_D2) p 3 4) (seq 0 6) =
  [None; None; None; None; None; Some [false; true]].
Proof. vm_compute. reflexivity. Qed.

(** Outside the catalogue the round trip can lose entries: with both indices
    distributed over the grid rows, entry (0, 1) has no owner. *)
Example ex_unsupported_loses_entry :
  let D := mkDescriptor GridRow GridRow 0 0 in
  supported (rowDist D) (colDist D) = false /\
  Local ex_M 5 0 1 = Some [true; true] /\
  Local (Redistribute 2 3 (Redistribute 2 3 ex_M D) ex_D1) 5 0 1 = None.
Proof. vm_compute. repeat split. Qed.

End Redist.

(** * The loop of the interior-point solver (IPF.cpp, lines 101-261)

    The numerical kernels the loop calls are not among the verified sources and
    work in floating point; they are parameters here, and so are the
    comparisons of the floating type, taken as they evaluate (both [<=] and
    [>] are false on a NaN).  What is modelled is the control of the loop:
    its counter, its exits and its errors. *)

Module IPF.

Local Open Scope Z_scope.

Section Loop.

Variable Real : Type.
Variable Rle : Real -> Real -> bool.       (* a <= b *)
Variable Rgt : Real -> Real -> bool.       (* a > b *)
Variable is_zero : Real -> bool.           (* a == Real(0) *)

(** The fields of [IPFCtrl] the loop control reads. *)
Record IPFCtrl : Type := mkIPFCtrl {
  maxIts : Z;
  targetTol : Real;
  minTol : Real
}.

(** The iterate (x, y, z, s) and a search direction (dx, dy, dz, ds). *)
Variable Iterate : Type.
Variable Direction : Type.

Variable NumNonPositive_s : Iterate -> Z.
Variable NumNonPositive_z : Iterate -> Z.
(** [Max(Max(Max(objConv,rbConv),rcConv),rhConv)] at an iterate. *)
Variable relError_at : Iterate -> Real.
(** The KKT solve; [None] when [symm_solve::Overwrite] throws. *)
Variable solve : Iterate -> option Direction.
(** [IPFLineSearch] and the four [Axpy] that take the step. *)
Variable IPFLineSearch : Iterate -> Direction -> Real.
Variable take_step : Real -> Direction -> Iterate -> Iterate.
(** Undoing the outer equilibration after the loop (lines 264-270). *)
Variable rescale_back : Iterate -> Iterate.

Inductive Error : Type :=
| LogicError_cone (sNumNonPos zNumNonPos : Z)
| RuntimeError_maxIts (maxIts : Z) (minTol : Real)
| RuntimeError_minTol (minTol : Real).

Inductive Result : Type :=
| Returned (it : Iterate)
| Failed (e : Error)
| OutOfFuel.

(** How one pass through the body of the loop ends. *)
Inductive Step : Type :=
| Continue (it : Iterate)
| Break (it : Iterate)
| Raise (e : Error).

(** The body of the loop at counter [numIts]; the second component tells
    whether the solver was called. *)
Definition body (ctrl : IPFCtrl) (numIts : Z) (it : Iterate) : Step * bool :=
  let sNumNonPos := NumNonPositive_s it in
  let zNumNonPos := NumNonPositive_z it in
  if (0 <? sNumNonPos) || (0 <? zNumNonPos) then
    (Raise (LogicError_cone sNumNonPos zNumNonPos), false)
  else
    let relError := relError_at it in
    if Rle relError (targetTol ctrl) then (Break it, false)
    else if (numIts =? maxIts ctrl) && Rgt relError (minTol ctrl) then
      (Raise (RuntimeError_maxIts (maxIts ctrl) (minTol ctrl)), false)
    else
      match solve it with
      | None =>
          if Rle relError (minTol ctrl) then (Break it, true)
          else (Raise (RuntimeError_minTol (minTol ctrl)), true)
      | Some d =>
          let alpha := IPFLineSearch it d in
          let it' := take_step alpha d it in
          if is_zero alpha then
            if Rle relError (minTol ctrl) then (Break it', true)
            else (Raise (RuntimeError_minTol (minTol ctrl)), true)
          else (Continue it', true)
      end.

(** [for( Int numIts=0; numIts<=ctrl.maxIts; ++numIts )], from the counter
    [numIts] on; the list holds the counters at which the solver was called,
    latest first. *)
Fixpoint loop (fuel : nat) (ctrl : IPFCtrl) (numIts : Z) (it : Iterate)
  (solves : list Z) : Result * list Z :=
  if numIts <=? maxIts ctrl then
    match fuel with
    | O => (OutOfFuel, solves)
    | S fuel' =>
        let '(step, solved) := body ctrl numIts it in
        let solves := if solved then numIts :: solves else solves in
        match step with
        | Continue it' => loop fuel' ctrl (numIts + 1) it' solves
        | Break it' => (Returned it', solves)
        | Raise e => (Failed e, solves)
        end
    end
  else (Returned it, solves).

(** The routine from its loop on, started at the iterate [Initialize] made. *)
Definition IPF (ctrl : IPFCtrl) (it0 : Iterate) : Result * list Z :=
  let '(res, solves) := loop (Z.to_nat (maxIts ctrl + 1)) ctrl 0 it0 [] in
  match res with
  | Returned it => (Returned (rescale_back it), solves)
  | _ => (res, solves)
  end.

(** The head of the loop is reached with counter [n] and iterate [it]. *)
Inductive Reach (ctrl : IPFCtrl) (it0 : Iterate) : Z -> Iterate -> Prop :=
| Reach_start : Reach ctrl it0 0 it0
| Reach_next (n : Z) (it it' : Iterate) :
    Reach ctrl it0 n it -> n <= maxIts ctrl ->
    fst (body ctrl n it) = Continue it' ->
    Reach ctrl it0 (n + 1) it'.

Definition cone_ok (it : Iterate) : Prop :=
  NumNonPositive_s it <= 0 /\ NumNonPositive_z it <= 0.

Lemma Reach_nonneg ctrl it0 n it : Reach ctrl it0 n it -> 0 <= n.
Proof. induction 1; lia. Qed.




Lemma loop_fst (fuel : nat) ctrl :
  forall n it acc acc',
  fst (loop fuel ctrl n it acc) = fst (loop fuel ctrl n it acc').
Proof.
  induction fuel as [|fuel IH]; intros n it acc acc'; simpl;
    destruct (n <=? maxIts ctrl); try reflexivity.
  destruct (body ctrl n it) as [[it'|it'|e] solved]; try reflexivity.
  apply IH.
Qed.

Lemma loop_S (fuel : nat) ctrl n it acc :
  n <= maxIts ctrl ->
  loop (S fuel) ctrl n it acc =
  let '(step, solved) := body ctrl n it in
  let solves := if solved then n :: acc else acc in
  match step with
  | Continue it' => loop fuel ctrl (n + 1) it' solves
  | Break it' => (Returned it', solves)
  | Raise e => (Failed e, solves)
  end.
Proof. intros H. simpl. apply Z.leb_le in H. rewrite H. reflexivity. Qed.

(** The result of the whole loop is the result of the loop resumed at any
    point it reaches. *)
Lemma loop_reach ctrl it0 n it :
  Reach ctrl it0 n it ->
  forall acc,
  fst (loop (Z.to_nat (maxIts ctrl + 1 - n)) ctrl n it acc) =
  fst (loop (Z.to_nat (maxIts ctrl + 1)) ctrl 0 it0 []).
Proof.
  induction 1 as [|n it it' HR IH Hn Hb]; intros acc.
  - rewrite Z.sub_0_r. apply loop_fst.
  - rewrite <- (IH acc).
    replace (Z.to_nat (maxIts ctrl + 1 - n))
      with (S (Z.to_nat (maxIts ctrl + 1 - (n + 1)))) by lia.
    rewrite loop_S by exact Hn.
    destruct (body ctrl n it) as [step solved]. simpl in Hb. subst step.
    apply loop_fst.
Qed.

Lemma loop_failed (fuel : nat) ctrl it0 :
  forall n it acc e,
  Reach ctrl it0 n it ->
  fst (loop fuel ctrl n it acc) = Failed e ->
  exists n' it', Reach ctrl it0 n' it' /\ n' <= maxIts ctrl /\
                 fst (body ctrl n' it') = Raise e.
Proof.
  induction fuel as [|fuel IH]; intros n it acc e HR; simpl;
    destruct (Z.leb_spec n (maxIts ctrl)) as [Hn|Hn]; try discriminate.
  destruct (body ctrl n it) as [[it'|it'|e'] solved] eqn:Hb; simpl.
  - apply IH. apply Reach_next with it; [exact HR | exact Hn |].
    rewrite Hb. reflexivity.
  - discriminate.
  - intros E. injection E as <-. exists n, it.
    split; [exact HR|]. split; [exact Hn|]. rewrite Hb. reflexivity.
Qed.





(** ** Further properties of the loop *)

Lemma IPF_fst ctrl it0 :
  fst (IPF ctrl it0) =
  match fst (loop (Z.to_nat (maxIts ctrl + 1)) ctrl 0 it0 []) with
  | Returned it => Returned (rescale_back it)
  | res => res
  end.
Proof. unfold IPF. destruct (loop _ ctrl 0 it0 []) as [[it| |] s]; reflexivity. Qed.

Lemma IPF_snd ctrl it0 :
  snd (IPF ctrl it0) = snd (loop (Z.to_nat (maxIts ctrl + 1)) ctrl 0 it0 []).
Proof. unfold IPF. destruct (loop _ ctrl 0 it0 []) as [[it| |] s]; reflexivity. Qed.

(** The result of the loop, read at an iteration it reaches. *)
Lemma loop_at ctrl it0 n it :
  Reach ctrl it0 n it -> n <= maxIts ctrl ->
  fst (loop (Z.to_nat (maxIts ctrl + 1)) ctrl 0 it0 []) =
  match fst (body ctrl n it) with
  | Continue it' =>
      fst (loop (Z.to_nat (maxIts ctrl + 1 - (n + 1))) ctrl (n + 1) it' [])
  | Break it' => Returned it'
  | Raise e => Failed e
  end.
Proof.
  intros HR Hn. rewrite <- (loop_reach HR []).
  replace (Z.to_nat (maxIts ctrl + 1 - n))
    with (S (Z.to_nat (maxIts ctrl + 1 - (n + 1)))) by lia.
  rewrite loop_S by exact Hn.
  destruct (body ctrl n it) as [[it'|it'|e] solved]; simpl; try reflexivity.
  apply loop_fst.
Qed.

(** What each way of leaving the body says of the iterate. *)
Lemma body_spec ctrl n it :
  match fst (body ctrl n it) with
  | Raise (LogicError_cone a b) =>
      (0 < NumNonPositive_s it \/ 0 < NumNonPositive_z it) /\
      a = NumNonPositive_s it /\ b = NumNonPositive_z it
  | Raise (RuntimeError_maxIts m t) =>
      n = maxIts ctrl /\ cone_ok it /\
      Rle (relError_at it) (targetTol ctrl) = false /\
      Rgt (relError_at it) (minTol ctrl) = true /\
      m = maxIts ctrl /\ t = minTol ctrl
  | Raise (RuntimeError_minTol t) =>
      cone_ok it /\
      Rle (relError_at it) (targetTol ctrl) = false /\
      (n = maxIts ctrl -> Rgt (relError_at it) (minTol ctrl) = false) /\
      Rle (relError_at it) (minTol ctrl) = false /\ t = minTol ctrl /\
      (solve it = None \/
       exists d, solve it = Some d /\ is_zero (IPFLineSearch it d) = true)
  | Break r =>
      cone_ok it /\
      ((Rle (relError_at it) (targetTol ctrl) = true /\ r = it) \/
       (Rle (relError_at it) (targetTol ctrl) = false /\
        (n = maxIts ctrl -> Rgt (relError_at it) (minTol ctrl) = false) /\
        Rle (relError_at it) (minTol ctrl) = true /\
        ((solve it = None /\ r = it) \/
         exists d, solve it = Some d /\
           is_zero (IPFLineSearch it d) = true /\
           r = take_step (IPFLineSearch it d) d it)))
  | Continue r =>
      cone_ok it /\
      Rle (relError_at it) (targetTol ctrl) = false /\
      (n = maxIts ctrl -> Rgt (relError_at it) (minTol ctrl) = false) /\
      exists d, solve it = Some d /\
        is_zero (IPFLineSearch it d) = false /\
        r = take_step (IPFLineSearch it d) d it
  end.
Proof.
  unfold body, cone_ok.
  destruct (Z.ltb_spec 0 (NumNonPositive_s it)) as [Hs|Hs];
    [cbn [orb fst]; auto|].
  destruct (Z.ltb_spec 0 (NumNonPositive_z it)) as [Hz|Hz];
    [cbn [orb fst]; auto|].
  cbn [orb].
  destruct (Rle (relError_at it) (targetTol ctrl)) eqn:Ht;
    [cbn [fst]; auto|].
  destruct (Z.eqb_spec n (maxIts ctrl)) as [Hn|Hn]; cbn [andb].
  - destruct (Rgt (relError_at it) (minTol ctrl)) eqn:Hg;
      [cbn [fst]; repeat split; auto|].
    destruct (solve it) as [d|] eqn:Hsol.
    + destruct (is_zero (IPFLineSearch it d)) eqn:Hz0.
      * destruct (Rle (relError_at it) (minTol ctrl)) eqn:Hm; cbn [fst].
        -- split; [auto|]. right. repeat split; auto. right. exists d. auto.
        -- repeat split; auto. right. exists d. auto.
      * cbn [fst]. repeat split; auto. exists d. auto.
    + destruct (Rle (relError_at it) (minTol ctrl)) eqn:Hm; cbn [fst].
      * split; [auto|]. right. repeat split; auto.
      * repeat split; auto.
  - destruct (solve it) as [d|] eqn:Hsol.
    + destruct (is_zero (IPFLineSearch it d)) eqn:Hz0.
      * destruct (Rle (relError_at it) (minTol ctrl)) eqn:Hm; cbn [fst].
        -- split; [auto|]. right. repeat split; auto; try contradiction.
           right. exists d. auto.
        -- repeat split; auto; try contradiction. right. exists d. auto.
      * cbn [fst]. repeat split; auto; try contradiction. exists d. auto.
    + destruct (Rle (relError_at it) (minTol ctrl)) eqn:Hm; cbn [fst].
      * split; [auto|]. right. repeat split; auto; contradiction.
      * repeat split; auto; contradiction.
Qed.

(** X9: the routine fails with the error on the cone exactly when its loop
    reaches an iterate with a nonpositive entry in s or z; the error carries
    the two counts. *)
Theorem IPF_cone_error (ctrl : IPFCtrl) (it0 : Iterate) (a b : Z) :
  fst (IPF ctrl it0) = Failed (LogicError_cone a b) <->
  exists n it,
    Reach ctrl it0 n it /\ n <= maxIts ctrl /\
    (0 < NumNonPositive_s it \/ 0 < NumNonPositive_z it) /\
    a = NumNonPositive_s it /\ b = NumNonPositive_z it.
Proof.
  rewrite IPF_fst. split.
  - intros E.
    destruct (fst (loop _ ctrl 0 it0 [])) as [it| |] eqn:El; try discriminate.
    injection E as ->.
    eapply loop_failed in El; [|apply Reach_start].
    destruct El as (n & it & HR & Hn & Hb).
    pose proof (body_spec ctrl n it) as Hs. rewrite Hb in Hs.
    exists n, it. tauto.
  - intros (n & it & HR & Hn & Hc & -> & ->).
    rewrite (loop_at HR Hn). unfold body.
    assert (Hor : (0 <? NumNonPositive_s it) || (0 <? NumNonPositive_z it)
                  = true).
    { apply orb_true_iff. rewrite !Z.ltb_lt. exact Hc. }
    rewrite Hor. reflexivity.
Qed.

(** X10: what a normal return tells the caller.  When [maxIts] is not
    negative and the routine returns, the last iterate it tested was in the
    cone and its relative error was at most [targetTol], or at most [minTol],
    or, at the counter [maxIts], not above [minTol]; the routine returns
    that iterate or the one a further step gives, scaled back. *)
Theorem IPF_return (ctrl : IPFCtrl) (it0 r : Iterate) :
  0 <= maxIts ctrl ->
  fst (IPF ctrl it0) = Returned r ->
  exists n it,
    Reach ctrl it0 n it /\ n <= maxIts ctrl /\ cone_ok it /\
    (Rle (relError_at it) (targetTol ctrl) = true \/
     Rle (relError_at it) (minTol ctrl) = true \/
     (n = maxIts ctrl /\ Rgt (relError_at it) (minTol ctrl) = false)) /\
    (r = rescale_back it \/
     exists d, solve it = Some d /\
       r = rescale_back (take_step (IPFLineSearch it d) d it)).
Proof.
  intros Hmax. rewrite IPF_fst.
  destruct (fst (loop _ ctrl 0 it0 [])) as [r0| |] eqn:El; try discriminate.
  intros E. injection E as <-.
  assert (Hgen : forall fuel n it acc,
            Reach ctrl it0 n it ->
            fst (loop fuel ctrl n it acc) = Returned r0 ->
            (exists n' it', Reach ctrl it0 n' it' /\ maxIts ctrl < n' /\
                            r0 = it') \/
            exists n' it', Reach ctrl it0 n' it' /\ n' <= maxIts ctrl /\
                           fst (body ctrl n' it') = Break r0).
  { induction fuel as [|fuel IH]; intros n it acc HR; simpl;
      destruct (Z.leb_spec n (maxIts ctrl)) as [Hn|Hn];
      try discriminate;
      try (intros E; injection E as <-; left; exists n, it; auto).
    destruct (body ctrl n it) as [[it'|it'|e] solved] eqn:Hb; simpl.
    - apply IH. apply Reach_next with it; [exact HR | exact Hn |].
      rewrite Hb. reflexivity.
    - intros E. injection E as <-. right. exists n, it.
      rewrite Hb. auto.
    - discriminate. }
  destruct (Hgen _ _ _ _ (Reach_start ctrl it0) El)
    as [(n & it & HR & Hn & ->) | (n & it & HR & Hn & Hb)].
  - inversion HR as [|n' it' it'' HR' Hn' Hb' E1 E2]; subst; [lia|].
    assert (n' = maxIts ctrl) by lia. subst n'.
    pose proof (body_spec ctrl (maxIts ctrl) it') as Hs. rewrite Hb' in Hs.
    destruct Hs as (Hc & Ht & Hg & d & Hd & Hz & ->).
    exists (maxIts ctrl), it'. split; [exact HR'|]. split; [lia|].
    split; [exact Hc|]. split; [auto|]. right. exists d. auto.
  - pose proof (body_spec ctrl n it) as Hs. rewrite Hb in Hs.
    destruct Hs as [Hc [[Ht ->] | (Ht & Hg & Hm & Hsol)]].
    + exists n, it. split; [exact HR|]. split; [exact Hn|].
      split; [exact Hc|]. split; [auto|]. left. reflexivity.
    + exists n, it. split; [exact HR|]. split; [exact Hn|].
      split; [exact Hc|]. split; [auto|].
      destruct Hsol as [[_ ->] | (d & Hd & _ & ->)]; [auto|].
      right. exists d. auto.
Qed.

(** X11: the routine fails with the error on [minTol] exactly when its loop
    reaches an iterate in the cone that passes the tests on [targetTol] and
    on [maxIts], at which the solver fails or the step is null, and whose
    relative error is not at most [minTol]. *)
Theorem IPF_minTol_error (ctrl : IPFCtrl) (it0 : Iterate) (t : Real) :
  fst (IPF ctrl it0) = Failed (RuntimeError_minTol t) <->
  exists n it,
    Reach ctrl it0 n it /\ n <= maxIts ctrl /\ cone_ok it /\
    Rle (relError_at it) (targetTol ctrl) = false /\
    (n = maxIts ctrl -> Rgt (relError_at it) (minTol ctrl) = false) /\
    Rle (relError_at it) (minTol ctrl) = false /\ t = minTol ctrl /\
    (solve it = None \/
     exists d, solve it = Some d /\ is_zero (IPFLineSearch it d) = true).
Proof.
  rewrite IPF_fst. split.
  - intros E.
    destruct (fst (loop _ ctrl 0 it0 [])) as [it| |] eqn:El; try discriminate.
    injection E as ->.
    eapply loop_failed in El; [|apply Reach_start].
    destruct El as (n & it & HR & Hn & Hb).
    pose proof (body_spec ctrl n it) as Hs. rewrite Hb in Hs.
    exists n, it. tauto.
  - intros (n & it & HR & Hn & [Hs Hz] & Ht & Hg & Hm & -> & Hsol).
    rewrite (loop_at HR Hn). unfold body.
    assert (Hor : (0 <? NumNonPositive_s it) || (0 <? NumNonPositive_z it)
                  = false).
    { apply orb_false_iff. rewrite !Z.ltb_ge. auto. }
    assert (Hand : (n =? maxIts ctrl) && Rgt (relError_at it) (minTol ctrl)
                   = false).
    { destruct (Z.eqb_spec n (maxIts ctrl)) as [E|E]; [|reflexivity].
      rewrite (Hg E). reflexivity. }
    rewrite Hor, Ht, Hand.
    destruct Hsol as [-> | (d & -> & Hz0)].
    + rewrite Hm. reflexivity.
    + cbv zeta. rewrite Hz0, Hm. reflexivity.
Qed.

Lemma loop_solves_length (fuel : nat) ctrl :
  forall n it acc,
    (length (snd (loop fuel ctrl n it acc)) <= fuel + length acc)%nat.
Proof.
  induction fuel as [|fuel IH]; intros n it acc; simpl;
    destruct (n <=? maxIts ctrl); simpl; try lia.
  destruct (body ctrl n it) as [[it'|it'|e] [|]]; simpl; try lia.
  - specialize (IH (n + 1) it' (n :: acc)). simpl in IH. lia.
  - specialize (IH (n + 1) it' acc). lia.
Qed.

(** X12: the solver is called at most [maxIts + 1] times, whatever the run
    does. *)
Theorem IPF_solver_calls (ctrl : IPFCtrl) (it0 : Iterate) :
  (length (snd (IPF ctrl it0)) <= Z.to_nat (maxIts ctrl + 1))%nat.
Proof.
  rewrite IPF_snd.
  pose proof (loop_solves_length (Z.to_nat (maxIts ctrl + 1)) ctrl 0 it0 [])
    as H.
  simpl in H. lia.
Qed.

(** X13: with a negative [maxIts] the loop is not entered: the initial
    iterate is returned scaled back, whether or not it lies in the cone,
    and the solver is not called. *)
Theorem IPF_negative_maxIts (ctrl : IPFCtrl) (it0 : Iterate) :
  maxIts ctrl < 0 ->
  IPF ctrl it0 = (Returned (rescale_back it0), []).
Proof.
  intros H. unfold IPF.
  destruct (Z.to_nat (maxIts ctrl + 1)); simpl;
    destruct (Z.leb_spec 0 (maxIts ctrl)); try lia; reflexivity.
Qed.

End Loop.

Arguments Returned {Real Iterate} it.
Arguments Failed {Real Iterate} e.
Arguments OutOfFuel {Real Iterate}.

(** An instance: the iterate is a number of steps taken, the relative error
    falls by ten a step from one hundred, the solver fails at a chosen
    iterate, and no step is ever null. *)
Definition ex_body_parameters (fail_at : Z) :=
  (fun it : Z => 100 - 10 * it, fun it : Z => if it =? fail_at then None else Some tt).

Definition ex_IPF (max target min fail_at : Z) : Result Z Z * list Z :=
  IPF Z.leb Z.gtb (fun a => a =? 0) (fun _ => 0) (fun _ => 0)
    (fst (ex_body_parameters fail_at)) (snd (ex_body_parameters fail_at))
    (fun _ _ => 1) (fun _ (_ : unit) it => it + 1) (fun it => it)
    (mkIPFCtrl max target min) 0.

(** The target is met at the sixth iterate. *)
Example ex_converges : ex_IPF 10 40 60 (-1) = (Returned 6, [5; 4; 3; 2; 1; 0]).
Proof. vm_compute. reflexivity. Qed.

(** The counter reaches [maxIts = 3] with a relative error of 70 above
    [minTol = 60]. *)
Example ex_maxIts_exceeded :
  ex_IPF 3 40 60 (-1) = (Failed (RuntimeError_maxIts 3 60), [2; 1; 0]).
Proof. vm_compute. reflexivity. Qed.

(** The counter reaches [maxIts = 3] with a relative error of 70 at most
    [minTol = 80]: one more step is taken and the routine returns. *)
Example ex_maxIts_within_minTol : ex_IPF 3 40 80 (-1) = (Returned 4, [3; 2; 1; 0]).
Proof. vm_compute. reflexivity. Qed.

(** The solver fails at the third iterate, above [minTol]: the run ends
    there, after one call of the solver per iteration. *)
Example ex_solver_fails :
  ex_IPF 10 40 60 2 = (Failed (RuntimeError_minTol 60), [2; 1; 0]).
Proof. vm_compute. reflexivity. Qed.

(** A negative [maxIts]: the loop is not entered. *)
Example ex_no_iteration : ex_IPF (-1) 40 60 (-1) = (Returned 0, []).
Proof. vm_compute. reflexivity. Qed.


(** The run that meets the target at the sixth iterate, read through the
    postcondition of a normal return. *)
Lemma IPF_return_witness :
  exists n it,
    Reach Z.leb Z.gtb (fun a => a =? 0) (fun _ => 0) (fun _ => 0)
      (fst (ex_body_parameters (-1))) (snd (ex_body_parameters (-1)))
      (fun _ _ => 1) (fun _ (_ : unit) it => it + 1)
      (mkIPFCtrl 10 40 60) 0 n it /\
    n <= 10 /\ cone_ok (fun _ => 0) (fun _ => 0) it /\
    ((100 - 10 * it <=? 40) = true \/ (100 - 10 * it <=? 60) = true \/
     (n = 10 /\ (100 - 10 * it >? 60) = false)) /\
    (6 = it \/
     exists d : unit,
       snd (ex_body_parameters (-1)) it = Some d /\ 6 = it + 1).
Proof.
  apply (@IPF_return Z Z.leb Z.gtb (fun a => a =? 0) Z unit (fun _ => 0)
           (fun _ => 0) (fst (ex_body_parameters (-1)))
           (snd (ex_body_parameters (-1))) (fun _ _ => 1)
           (fun _ (_ : unit) it => it + 1) (fun it => it)
           (mkIPFCtrl 10 40 60) 0 6).
  - simpl. lia.
  - vm_compute. reflexivity.
Defined.

(** An initial iterate outside the cone is returned when [maxIts] is
    negative. *)
Lemma IPF_negative_maxIts_witness :
  IPF Z.leb Z.gtb (fun a => a =? 0) (fun _ => 1) (fun _ => 0)
    (fst (ex_body_parameters (-1))) (snd (ex_body_parameters (-1)))
    (fun _ _ => 1) (fun _ (_ : unit) it => it + 1) (fun it => it)
    (mkIPFCtrl (-1) 40 60) 0 = (Returned 0, []).
Proof.
  apply (@IPF_negative_maxIts Z Z.leb Z.gtb (fun a => a =? 0) Z unit
           (fun _ => 1) (fun _ => 0) (fst (ex_body_parameters (-1)))
           (snd (ex_body_parameters (-1))) (fun _ _ => 1)
           (fun _ (_ : unit) it => it + 1) (fun it => it)
           (mkIPFCtrl (-1) 40 60) 0).
  simpl. lia.
Defined.

(** The same iterate with [maxIts = 0]: the cone is tested and the run
    fails. *)
Example ex_outside_cone :
  IPF Z.leb Z.gtb (fun a => a =? 0) (fun _ => 1) (fun _ => 0)
    (fst (ex_body_parameters (-1))) (snd (ex_body_parameters (-1)))
    (fun _ _ => 1) (fun _ (_ : unit) it => it + 1) (fun it => it)
    (mkIPFCtrl 0 40 60) 0 = (Failed (LogicError_cone Z 1 0), []).
Proof. vm_compute. reflexivity. Qed.


End IPF.

(** * The C wrappers of the matrix gallery (matrices-C.cpp)

    The Cauchy-like wrappers (lines 86-109) and the wrappers that take
    vectors (lines 17-41, 70-85 and 135-146).

    The routines of the library ([CauchyLike], [Circulant], [Diagonal],
    [Cauchy], [Fiedler]), the [ElError] codes, the [EL_CATCH] handlers and
    the range constructor of [std::vector] are not among the verified
    sources.  The routines, the codes and the handlers are parameters.  The
    constructor is given by what the standard library does with the distance
    [size] between its two pointers: a negative distance or one above
    [max_size()] throws [std::length_error], an allocation that fails throws
    [std::bad_alloc], and otherwise the vector holds the first [size]
    entries of the buffer.  Sizes are signed, as [ElInt] is. *)

Module CWrap.

Section Wrappers.

Variable T : Type.
Variable Matrix : Type.          (* El::Matrix<T> behind ElMatrix_SIG *)
Variable DistMatrix : Type.      (* El::DistMatrix<T> behind ElDistMatrix_SIG *)
Variable Exception : Type.
Variable ElError : Type.
Variable EL_SUCCESS : ElError.
(** The code the handlers of [EL_CATCH] return for a caught exception. *)
Variable EL_CATCH : Exception -> ElError.

(** What the constructor of a vector throws. *)
Variables length_error bad_alloc : Exception.
(** [max_size()] of a vector of [T]. *)
Variable max_size : Z.
(** Whether the allocation of so many entries succeeds. *)
Variable allocates : Z -> bool.

(** How a library routine that works on a matrix in place ends. *)
Inductive Run (M : Type) : Type :=
| Done (A : M)
| Thrown (e : Exception) (A : M).

Variable CauchyLike :
  Matrix -> list T -> list T -> list T -> list T -> Run Matrix.
Variable CauchyLikeDist :
  DistMatrix -> list T -> list T -> list T -> list T -> Run DistMatrix.
Variable Circulant : Matrix -> list T -> Run Matrix.
Variable CirculantDist : DistMatrix -> list T -> Run DistMatrix.
Variable Diagonal : Matrix -> list T -> Run Matrix.
Variable DiagonalDist : DistMatrix -> list T -> Run DistMatrix.
Variable Cauchy : Matrix -> list T -> list T -> Run Matrix.
Variable CauchyDist : DistMatrix -> list T -> list T -> Run DistMatrix.
Variable Fiedler : Matrix -> list T -> Run Matrix.
Variable FiedlerDist : DistMatrix -> list T -> Run DistMatrix.

(** The calls of the library a wrapper makes. *)
Inductive Call : Type :=
| Call_CauchyLike (r s x y : list T).

(** The first [size] entries of a buffer. *)
Definition prefix (buf : nat -> T) (size : Z) : list T :=
  map buf (seq 0 (Z.to_nat size)).

(** Whether a vector of [size] entries can be built. *)
Definition fits (size : Z) : bool :=
  (0 <=? size)%Z && (size <=? max_size)%Z &&
  ((size =? 0)%Z || allocates size).

(** [std::vector<T> v( Reinterpret(buf), Reinterpret(buf)+size )]: the
    exception it throws, or the vector. *)
Definition vector (buf : nat -> T) (size : Z) : Exception + list T :=
  if (size <? 0)%Z || (max_size <? size)%Z then inl length_error
  else if (size =? 0)%Z || allocates size then inr (prefix buf size)
  else inl bad_alloc.

(** [try { ... } EL_CATCH; return EL_SUCCESS;] around a call that works on a
    matrix in place. *)
Definition try_catch (M : Type) (run : Run M) : ElError * M :=
  match run with
  | Done A' => (EL_SUCCESS, A')
  | Thrown e A' => (EL_CATCH e, A')
  end.

(** *** The Cauchy-like wrappers (lines 87-109) *)

Definition ElCauchyLike (A : Matrix)
  (rSize : Z) (rBuf : nat -> T) (sSize : Z) (sBuf : nat -> T)
  (xSize : Z) (xBuf : nat -> T) (ySize : Z) (yBuf : nat -> T)
  : ElError * Matrix * list Call :=
  match vector rBuf rSize with
  | inl e => (EL_CATCH e, A, [])
  | inr r =>
  match vector sBuf sSize with
  | inl e => (EL_CATCH e, A, [])
  | inr s =>
  match vector xBuf xSize with
  | inl e => (EL_CATCH e, A, [])
  | inr x =>
  match vector yBuf ySize with
  | inl e => (EL_CATCH e, A, [])
  | inr y => (EL_SUCCESS, A, [])
  end end end end.

Definition ElCauchyLikeDist (A : DistMatrix)
  (rSize : Z) (rBuf : nat -> T) (sSize : Z) (sBuf : nat -> T)
  (xSize : Z) (xBuf : nat -> T) (ySize : Z) (yBuf : nat -> T)
  : ElError * DistMatrix * list Call :=
  match vector rBuf rSize with
  | inl e => (EL_CATCH e, A, [])
  | inr r =>
  match vector sBuf sSize with
  | inl e => (EL_CATCH e, A, [])
  | inr s =>
  match vector xBuf xSize with
  | inl e => (EL_CATCH e, A, [])
  | inr x =>
  match vector yBuf ySize with
  | inl e => (EL_CATCH e, A, [])
  | inr y => (try_catch (CauchyLikeDist A r s x y), [Call_CauchyLike r s x y])
  end end end end.

(** *** The wrappers that take vectors (lines 17-41, 70-85, 135-146) *)

Definition ElCirculant (A : Matrix) (aSize : Z) (aBuf : nat -> T)
  : ElError * Matrix :=
  match vector aBuf aSize with
  | inl e => (EL_CATCH e, A)
  | inr a => try_catch (Circulant A a)
  end.

Definition ElCirculantDist (A : DistMatrix) (aSize : Z) (aBuf : nat -> T)
  : ElError * DistMatrix :=
  match vector aBuf aSize with
  | inl e => (EL_CATCH e, A)
  | inr a => try_catch (CirculantDist A a)
  end.

Definition ElDiagonal (A : Matrix) (dSize : Z) (dBuf : nat -> T)
  : ElError * Matrix :=
  match vector dBuf dSize with
  | inl e => (EL_CATCH e, A)
  | inr d => try_catch (Diagonal A d)
  end.

Definition ElDiagonalDist (A : DistMatrix) (dSize : Z) (dBuf : nat -> T)
  : ElError * DistMatrix :=
  match vector dBuf dSize with
  | inl e => (EL_CATCH e, A)
  | inr d => try_catch (DiagonalDist A d)
  end.

Definition ElCauchy (A : Matrix) (xSize : Z) (xBuf : nat -> T)
  (ySize : Z) (yBuf : nat -> T) : ElError * Matrix :=
  match vector xBuf xSize with
  | inl e => (EL_CATCH e, A)
  | inr x =>
  match vector yBuf ySize with
  | inl e => (EL_CATCH e, A)
  | inr y => try_catch (Cauchy A x y)
  end end.

Definition ElCauchyDist (A : DistMatrix) (xSize : Z) (xBuf : nat -> T)
  (ySize : Z) (yBuf : nat -> T) : ElError * DistMatrix :=
  match vector xBuf xSize with
  | inl e => (EL_CATCH e, A)
  | inr x =>
  match vector yBuf ySize with
  | inl e => (EL_CATCH e, A)
  | inr y => try_catch (CauchyDist A x y)
  end end.

Definition ElFiedler (A : Matrix) (cSize : Z) (cBuf : nat -> T)
  : ElError * Matrix :=
  match vector cBuf cSize with
  | inl e => (EL_CATCH e, A)
  | inr c => try_catch (Fiedler A c)
  end.

Definition ElFiedlerDist (A : DistMatrix) (cSize : Z) (cBuf : nat -> T)
  : ElError * DistMatrix :=
  match vector cBuf cSize with
  | inl e => (EL_CATCH e, A)
  | inr c => try_catch (FiedlerDist A c)
  end.

(** *** The constructor *)

Lemma vector_fits (buf : nat -> T) (size : Z) :
  fits size = true -> vector buf size = inr (prefix buf size).
Proof.
  unfold fits, vector. rewrite !andb_true_iff.
  intros [[H0 Hm] Ha].
  apply Z.leb_le in H0. apply Z.leb_le in Hm.
  destruct (Z.ltb_spec size 0); [lia|].
  destruct (Z.ltb_spec max_size size); [lia|].
  cbn [orb]. rewrite Ha. reflexivity.
Qed.

Lemma vector_negative (buf : nat -> T) (size : Z) :
  (size < 0)%Z -> vector buf size = inl length_error.
Proof.
  intros H. unfold vector. destruct (Z.ltb_spec size 0); [reflexivity | lia].
Qed.

Lemma vector_built (buf : nat -> T) (size : Z) (v : list T) :
  vector buf size = inr v -> fits size = true /\ v = prefix buf size.
Proof.
  unfold vector, fits.
  destruct (Z.ltb_spec size 0); [discriminate|].
  destruct (Z.ltb_spec max_size size); [discriminate|]. cbn [orb].
  destruct ((size =? 0)%Z || allocates size); [|discriminate].
  intros E. injection E as <-.
  split; [|reflexivity].
  rewrite !andb_true_iff, !Z.leb_le. lia.
Qed.

Lemma prefix_length (buf : nat -> T) (size : Z) :
  length (prefix buf size) = Z.to_nat size.
Proof. unfold prefix. rewrite length_map, length_seq. reflexivity. Qed.

Lemma prefix_ext (buf buf' : nat -> T) (size : Z) :
  (forall i, i < Z.to_nat size -> buf i = buf' i) ->
  prefix buf size = prefix buf' size.
Proof.
  intros H. unfold prefix. apply map_ext_in.
  intros i Hi. apply in_seq in Hi. apply H. lia.
Qed.

Lemma vector_ext (buf buf' : nat -> T) (size : Z) :
  (forall i, i < Z.to_nat size -> buf i = buf' i) ->
  vector buf size = vector buf' size.
Proof.
  intros H. unfold vector. rewrite (prefix_ext _ _ _ H). reflexivity.
Qed.

(** C9 (as amended): [ElCauchyLike] never changes A and never calls
    [CauchyLike], whatever its input.  It returns [EL_SUCCESS] when the four
    vectors can be built, as it does for sizes that are not negative and can
    be allocated; for a negative size the constructor throws and the code is
    the one of the handler, not [EL_SUCCESS].  [ElCauchyLikeDist] calls
    [CauchyLike] once when the four vectors can be built, on the vectors
    read from the buffers, and A is what that call leaves; otherwise it
    makes no call and leaves A. *)
Theorem C9_ElCauchyLike_leaves_A
  (A : Matrix) (AD : DistMatrix)
  (rSize : Z) (rBuf : nat -> T) (sSize : Z) (sBuf : nat -> T)
  (xSize : Z) (xBuf : nat -> T) (ySize : Z) (yBuf : nat -> T) :
  (snd (fst (ElCauchyLike A rSize rBuf sSize sBuf xSize xBuf ySize yBuf)) = A /\
   snd (ElCauchyLike A rSize rBuf sSize sBuf xSize xBuf ySize yBuf) = []) /\
  (fits rSize && fits sSize && fits xSize && fits ySize = true ->
   ElCauchyLike A rSize rBuf sSize sBuf xSize xBuf ySize yBuf
     = (EL_SUCCESS, A, []) /\
   ElCauchyLikeDist AD rSize rBuf sSize sBuf xSize xBuf ySize yBuf
     = (try_catch (CauchyLikeDist AD (prefix rBuf rSize) (prefix sBuf sSize)
                     (prefix xBuf xSize) (prefix yBuf ySize)),
        [Call_CauchyLike (prefix rBuf rSize) (prefix sBuf sSize)
           (prefix xBuf xSize) (prefix yBuf ySize)])) /\
  (fits rSize && fits sSize && fits xSize && fits ySize = false ->
   exists e,
     ElCauchyLike A rSize rBuf sSize sBuf xSize xBuf ySize yBuf
       = (EL_CATCH e, A, []) /\
     ElCauchyLikeDist AD rSize rBuf sSize sBuf xSize xBuf ySize yBuf
       = (EL_CATCH e, AD, [])) /\
  ((rSize < 0)%Z ->
   ElCauchyLike A rSize rBuf sSize sBuf xSize xBuf ySize yBuf
     = (EL_CATCH length_error, A, [])).
Proof.
  unfold ElCauchyLike, ElCauchyLikeDist.
  split; [|split; [|split]].
  - destruct (vector rBuf rSize); [split; reflexivity|].
    destruct (vector sBuf sSize); [split; reflexivity|].
    destruct (vector xBuf xSize); [split; reflexivity|].
    destruct (vector yBuf ySize); split; reflexivity.
  - rewrite !andb_true_iff. intros [[[Hr Hs] Hx] Hy].
    rewrite !vector_fits by assumption. split; reflexivity.
  - intros Hf.
    destruct (vector rBuf rSize) as [e|r] eqn:Er; [exists e; auto|].
    destruct (vector sBuf sSize) as [e|s] eqn:Es; [exists e; auto|].
    destruct (vector xBuf xSize) as [e|x] eqn:Ex; [exists e; auto|].
    destruct (vector yBuf ySize) as [e|y] eqn:Ey; [exists e; auto|].
    apply vector_built in Er, Es, Ex, Ey.
    destruct Er as [Er _], Es as [Es _], Ex as [Ex _], Ey as [Ey _].
    rewrite Er, Es, Ex, Ey in Hf. discriminate.
  - intros Hneg. rewrite vector_negative by exact Hneg. reflexivity.
Qed.

(** X17: the wrappers that take vectors read a buffer below its size only:
    two calls whose buffers agree there end alike, with the same code and
    the same matrix. *)
Theorem vector_wrappers_read_prefix (A : Matrix) (AD : DistMatrix)
  (xSize ySize : Z) (xBuf xBuf' yBuf yBuf' : nat -> T) :
  (forall i, i < Z.to_nat xSize -> xBuf i = xBuf' i) ->
  (forall i, i < Z.to_nat ySize -> yBuf i = yBuf' i) ->
  ElCirculant A xSize xBuf = ElCirculant A xSize xBuf' /\
  ElCirculantDist AD xSize xBuf = ElCirculantDist AD xSize xBuf' /\
  ElDiagonal A xSize xBuf = ElDiagonal A xSize xBuf' /\
  ElDiagonalDist AD xSize xBuf = ElDiagonalDist AD xSize xBuf' /\
  ElFiedler A xSize xBuf = ElFiedler A xSize xBuf' /\
  ElFiedlerDist AD xSize xBuf = ElFiedlerDist AD xSize xBuf' /\
  ElCauchy A xSize xBuf ySize yBuf = ElCauchy A xSize xBuf' ySize yBuf' /\
  ElCauchyDist AD xSize xBuf ySize yBuf
    = ElCauchyDist AD xSize xBuf' ySize yBuf'.
Proof.
  intros Hx Hy.
  unfold ElCirculant, ElCirculantDist, ElDiagonal, ElDiagonalDist, ElFiedler,
    ElFiedlerDist, ElCauchy, ElCauchyDist.
  rewrite (vector_ext xBuf xBuf' xSize Hx), (vector_ext yBuf yBuf' ySize Hy).
  repeat split.
Qed.

End Wrappers.

(** ** An instance

    The codes [EL_CATCH] gives to the two exceptions of the constructor; a
    matrix is the list of its rows, an entry of the Cauchy-like matrix is
    kept as its four operands (r_i, s_j, x_i, y_j); vectors of up to 1000
    entries can be allocated. *)
Inductive ex_Exception : Type := ex_length_error | ex_bad_alloc.

Inductive ex_ElError : Type :=
| ex_EL_SUCCESS
| ex_EL_ALLOC_ERROR
| ex_EL_LOGIC_ERROR.

Definition ex_EL_CATCH (e : ex_Exception) : ex_ElError :=
  match e with
  | ex_length_error => ex_EL_LOGIC_ERROR
  | ex_bad_alloc => ex_EL_ALLOC_ERROR
  end.

Definition ex_CauchyLike (A : list (list (Z * Z * Z * Z)))
  (r s x y : list Z) : Run ex_Exception (list (list (Z * Z * Z * Z))) :=
  Done _ (map (fun rx => map (fun sy => (fst rx, fst sy, snd rx, snd sy))
                 (combine s y)) (combine r x)).

Definition ex_A0 : list (list (Z * Z * Z * Z)) := [[(0, 0, 0, 0)%Z]].

Definition ex_ElCauchyLike (rSize sSize xSize ySize : Z) :=
  ElCauchyLike ex_EL_SUCCESS ex_EL_CATCH ex_length_error ex_bad_alloc
    (2 ^ 60)%Z (fun n => (n <=? 1000)%Z)
    ex_A0 rSize Z.of_nat sSize Z.of_nat xSize Z.of_nat ySize Z.of_nat.

Definition ex_ElCauchyLikeDist (rSize sSize xSize ySize : Z) :=
  ElCauchyLikeDist ex_EL_SUCCESS ex_EL_CATCH ex_length_error ex_bad_alloc
    (2 ^ 60)%Z (fun n => (n <=? 1000)%Z) ex_CauchyLike
    ex_A0 rSize Z.of_nat sSize (fun i => Z.of_nat (i + 5))
    xSize (fun i => Z.of_nat (i + 7)) ySize (fun i => Z.of_nat (i + 9)).

Example ex_ElCauchyLike_returns :
  ex_ElCauchyLike 2 1 2 1 = (ex_EL_SUCCESS, ex_A0, []).
Proof. reflexivity. Qed.

Example ex_ElCauchyLikeDist_fills :
  fst (ex_ElCauchyLikeDist 2 1 2 1)
  = (ex_EL_SUCCESS, [[(0, 5, 7, 9)%Z]; [(1, 5, 8, 9)%Z]]).
Proof. reflexivity. Qed.

(** A size that cannot be allocated. *)
Example ex_ElCauchyLike_alloc :
  ex_ElCauchyLike 2 1 2000 1 = (ex_EL_ALLOC_ERROR, ex_A0, []).
Proof. reflexivity. Qed.

Lemma C9_witness :
  ex_ElCauchyLike 2 1 2 1 = (ex_EL_SUCCESS, ex_A0, []) /\
  ex_ElCauchyLikeDist 2 1 2 1
    = (ex_EL_SUCCESS, [[(0, 5, 7, 9)%Z]; [(1, 5, 8, 9)%Z]],
       [Call_CauchyLike [0; 1]%Z [5]%Z [7; 8]%Z [9]%Z]).
Proof.
  pose proof (C9_ElCauchyLike_leaves_A ex_EL_SUCCESS ex_EL_CATCH
                ex_length_error ex_bad_alloc (2 ^ 60)%Z
                (fun n => (n <=? 1000)%Z) ex_CauchyLike ex_A0 ex_A0
                2 Z.of_nat 1 (fun i => Z.of_nat (i + 5))
                2 (fun i => Z.of_nat (i + 7)) 1 (fun i => Z.of_nat (i + 9)))
    as (_ & H & _).
  destruct H as [H1 H2]; [reflexivity|].
  split; [reflexivity | exact H2].
Defined.

(** C9, as stated, fails for a negative size: the constructor of the first
    vector throws, the handler returns its code, which is not
    [EL_SUCCESS]; A is left as it was all the same. *)
Lemma C9_counterexample :
  ex_ElCauchyLike (-1) 1 2 1 = (ex_EL_LOGIC_ERROR, ex_A0, []) /\
  ex_EL_LOGIC_ERROR <> ex_EL_SUCCESS.
Proof. split; [reflexivity | discriminate]. Qed.

(** The diagonal matrix of a vector, as the list of its rows; the buffers
    differ from index 2 on. *)
Definition ex_Diagonal (A : list (list Z)) (d : list Z)
  : Run ex_Exception (list (list Z)) :=
  Done _ (map (fun i => map (fun j => if i =? j then nth i d 0%Z else 0%Z)
                         (seq 0 (length d))) (seq 0 (length d))).

Definition ex_ElDiagonal (dSize : Z) (dBuf : nat -> Z) :=
  ElDiagonal ex_EL_SUCCESS ex_EL_CATCH ex_length_error ex_bad_alloc
    (2 ^ 60)%Z (fun n => (n <=? 1000)%Z) ex_Diagonal [] dSize dBuf.

Example ex_ElDiagonal_fills :
  ex_ElDiagonal 2 (fun i => Z.of_nat (i + 5))
  = (ex_EL_SUCCESS, [[5; 0]; [0; 6]]%Z).
Proof. reflexivity. Qed.

Lemma vector_wrappers_read_prefix_witness :
  ex_ElDiagonal 2 (fun i => Z.of_nat (i + 5))
  = ex_ElDiagonal 2 (fun i => if i <? 2 then Z.of_nat (i + 5) else 0%Z).
Proof.
  pose proof (@vector_wrappers_read_prefix Z (list (list Z)) (list (list Z))
                ex_Exception ex_ElError ex_EL_SUCCESS ex_EL_CATCH
                ex_length_error ex_bad_alloc (2 ^ 60)%Z
                (fun n => (n <=? 1000)%Z)
                ex_Diagonal ex_Diagonal ex_Diagonal ex_Diagonal
                (fun A x y => ex_Diagonal A x) (fun A x y => ex_Diagonal A x)
                ex_Diagonal ex_Diagonal [] [] 2%Z 0%Z
                (fun i => Z.of_nat (i + 5))
                (fun i => if i <? 2 then Z.of_nat (i + 5) else 0%Z)
                (fun _ => 0%Z) (fun _ => 0%Z)) as H.
  destruct H as (_ & _ & H & _).
  - intros i Hi. simpl in Hi. destruct (Nat.ltb_spec i 2); [reflexivity | lia].
  - intros i Hi. reflexivity.
  - exact H.
Defined.

End CWrap.

(** * adjoint::PartialColFilter (PartialColFilter.cpp, lines 14-30)

    [transpose::PartialColFilter] is not among the verified sources: it is a
    parameter, once for [DistMatrix] and once for [BlockDistMatrix]. *)

Module Adjoint.

Section PartialColFilter.

Variables MatA MatB : Type.            (* DistMatrix<T,V,Partial<U>()>, DistMatrix<T,U,V> *)
Variables BlockMatA BlockMatB : Type.  (* the BlockDistMatrix counterparts *)

(** [transpose::PartialColFilter( A, B, conjugate )]: what [B] holds after. *)
Variable transpose_PartialColFilter : MatA -> MatB -> bool -> MatB.
Variable transpose_PartialColFilter_block :
  BlockMatA -> BlockMatB -> bool -> BlockMatB.

Definition PartialColFilter (A : MatA) (B : MatB) (conjugate : bool) : MatB :=
  transpose_PartialColFilter A B true.

Definition PartialColFilter_block (A : BlockMatA) (B : BlockMatB)
  (conjugate : bool) : BlockMatB :=
  transpose_PartialColFilter_block A B true.

(** C10: what [adjoint::PartialColFilter] writes into B does not depend on
    its argument [conjugate]: both overloads discard it and call
    [transpose::PartialColFilter] with conjugation on. *)
Theorem C10_conjugate_ignored (A : MatA) (B : MatB) (A' : BlockMatA)
  (B' : BlockMatB) (conjugate : bool) :
  PartialColFilter A B true = PartialColFilter A B false /\
  PartialColFilter A B conjugate = transpose_PartialColFilter A B true /\
  PartialColFilter_block A' B' true = PartialColFilter_block A' B' false /\
  PartialColFilter_block A' B' conjugate =
    transpose_PartialColFilter_block A' B' true.
Proof. repeat split. Qed.

End PartialColFilter.

(** An instance over the Gaussian integers, where the filter keeps every
    second entry and transposing a vector is the identity: asked not to
    conjugate, the adjoint filter conjugates all the same. *)
Definition ex_transpose_filter (A B : list Gauss.G) (conjugate : bool)
  : list Gauss.G :=
  map (fun a => if conjugate then Gauss.Conj a else a)
    (map snd (filter (fun p => Nat.even (fst p)) (combine (seq 0 (length A)) A))).

Example ex_adjoint_filter :
  PartialColFilter ex_transpose_filter [(1, 2); (3, 4); (5, 6)]%Z [] false
    = [(1, -2); (5, -6)]%Z /\
  ex_transpose_filter [(1, 2); (3, 4); (5, 6)]%Z [] false
    = [(1, 2); (5, 6)]%Z.
Proof. split; reflexivity. Qed.

End Adjoint.

(** * trr2k::Trr2kTNTT (TNTT.hpp, lines 16-87)

    E := alpha A' B + beta C' D' + E on one triangle of E, a panel of rows
    of A, B and C (and of columns of D) at a time.  [LocalTrr2k], the
    redistributions and [Transpose] are not among the verified sources: the
    model records the calls of [LocalTrr2k] with the panels they are made
    on.  Dimensions and the block size are natural numbers. *)

Module Trr2k.

Section TNTT.

Variable T : Type.
Variable one : T.              (* T(1) *)
Variable Store : Type.         (* what a matrix holds *)
Variable DEBUG : bool.         (* whether EL_DEBUG_ONLY keeps its argument *)
Variable Blocksize : nat.

Inductive UpperOrLower : Type := LOWER | UPPER.
Inductive Orientation : Type := NORMAL | TRANSPOSE | ADJOINT.

Inductive Error : Type := LogicError_Nonconformal_Trr2kNNTT.

Inductive Result (A : Type) : Type :=
| Returned (a : A)
| Failed (e : Error)
| OutOfFuel.

Arguments Failed {A} e.
Arguments OutOfFuel {A}.

(** A temporary handed to [LocalTrr2k]: the panel it was filled from, and
    whether by assignment or by [Transpose] (with its conjugation flag). *)
Inductive Operand : Type :=
| Assigned (X1 : DistMatrix Store)
| Transposed (X1 : DistMatrix Store) (conjugate : bool).

(** One call [LocalTrr2k( uplo, orientA, orientB, orientC, orientD, alpha, A,
    B, beta, C, D, gamma, E )]. *)
Record Call : Type := mkCall {
  call_uplo : UpperOrLower;
  call_orientA : Orientation;
  call_orientB : Orientation;
  call_orientC : Orientation;
  call_orientD : Orientation;
  call_alpha : T;
  call_A : Operand;
  call_B : Operand;
  call_beta : T;
  call_C : Operand;
  call_D : Operand;
  call_gamma : T;
  call_E : DistMatrix Store
}.

Definition is_ADJOINT (o : Orientation) : bool :=
  match o with ADJOINT => true | _ => false end.

(** The condition of the debug check (lines 32-35). *)
Definition nonconformal (A B C D E : DistMatrix Store) : bool :=
  negb (Height E =? Width E) || negb (Height A =? Height C) ||
  negb (Width A =? Height E) || negb (Width C =? Height E) ||
  negb (Width B =? Width E) || negb (Height D =? Width E) ||
  negb (Height A =? Height B) || negb (Height C =? Width D).

(** The body of the loop at [k] (lines 68-85). *)
Definition panel (uplo : UpperOrLower) (orientA orientC orientD : Orientation)
  (alpha : T) (A B : DistMatrix Store) (beta : T) (C D E : DistMatrix Store)
  (r bsize k : nat) : Call :=
  let nb := Nat.min bsize (r - k) in
  let A1 := View A k 0 nb (Width A) in
  let B1 := View B k 0 nb (Width B) in
  let C1 := View C k 0 nb (Width C) in
  let D1 := View D 0 k (Height D) nb in
  mkCall uplo orientA TRANSPOSE orientC NORMAL
    alpha (Assigned A1) (Transposed B1 false)
    beta (Assigned C1) (Transposed D1 (is_ADJOINT orientD)) one E.

(** [for( Int k=0; k<r; k+=bsize )], from [k] on. *)
Fixpoint loop (fuel : nat) (uplo : UpperOrLower)
  (orientA orientC orientD : Orientation)
  (alpha : T) (A B : DistMatrix Store) (beta : T) (C D E : DistMatrix Store)
  (r bsize k : nat) : Result (list Call) :=
  if k <? r then
    match fuel with
    | O => OutOfFuel
    | S fuel' =>
        match loop fuel' uplo orientA orientC orientD alpha A B beta C D E
                r bsize (k + bsize) with
        | Returned calls =>
            Returned (panel uplo orientA orientC orientD alpha A B beta C D E
                        r bsize k :: calls)
        | res => res
        end
    end
  else Returned [].

Definition Trr2kTNTT (fuel : nat) (uplo : UpperOrLower)
  (orientA orientC orientD : Orientation)
  (alpha : T) (APre BPre : DistMatrix Store) (beta : T)
  (CPre DPre EPre : DistMatrix Store) : Result (list Call) :=
  if DEBUG && nonconformal APre BPre CPre DPre EPre then
    Failed LogicError_Nonconformal_Trr2kNNTT
  else
    let r := Height APre in
    let bsize := Blocksize in
    loop fuel uplo orientA orientC orientD alpha APre BPre beta CPre DPre EPre
      r bsize 0.

(** The rows of [A] a call works on. *)
Definition rows_of (c : Call) : list nat :=
  match call_A c with
  | Assigned A1 | Transposed A1 _ => seq (RowOff A1) (Height A1)
  end.

(** The columns of [D] a call works on. *)
Definition columns_of (c : Call) : list nat :=
  match call_D c with
  | Assigned D1 | Transposed D1 _ => seq (ColOff D1) (Width D1)
  end.

Lemma ceil_div_step (x b : nat) :
  0 < b -> 0 < x -> (x + b - 1) / b = Datatypes.S ((x - b + b - 1) / b).
Proof.
  intros Hb Hx. destruct (Nat.le_gt_cases x b) as [H|H].
  - replace (x - b) with 0 by lia. simpl (0 + b - 1).
    rewrite (Nat.div_small (b - 1) b) by lia.
    replace (x + b - 1) with ((x - 1) + 1 * b) by lia.
    rewrite Nat.div_add by lia. rewrite Nat.div_small by lia. reflexivity.
  - replace (x + b - 1) with ((x - b + b - 1) + 1 * b) by lia.
    rewrite Nat.div_add by lia. lia.
Qed.

Lemma panel_loop_spec uplo orientA orientC orientD alpha A B beta C D E r :
  0 < Blocksize ->
  forall fuel k, r - k <= fuel ->
    exists calls,
      loop fuel uplo orientA orientC orientD alpha A B beta C D E
        r Blocksize k = Returned calls /\
      length calls = (r - k + Blocksize - 1) / Blocksize /\
      flat_map rows_of calls = seq (RowOff A + k) (r - k) /\
      flat_map columns_of calls = seq (ColOff D + k) (r - k) /\
      Forall (fun c => exists k',
                c = panel uplo orientA orientC orientD alpha A B beta C D E
                      r Blocksize k' /\ k <= k' < r) calls.
Proof.
  intros Hb. induction fuel as [|fuel IH]; intros k Hk.
  - exists []. simpl. destruct (Nat.ltb_spec k r); [lia|].
    replace (r - k) with 0 by lia. simpl.
    rewrite Nat.div_small by lia. auto.
  - simpl. destruct (Nat.ltb_spec k r) as [Hlt|Hge].
    + destruct (IH (k + Blocksize)) as (calls & E1 & L & R1 & C1 & F);
        [lia|].
      rewrite E1. eexists. split; [reflexivity|]. split; [|split; [|split]].
      * simpl. rewrite L. rewrite (@ceil_div_step (r - k)) by lia.
        f_equal. f_equal. lia.
      * cbn [flat_map]. rewrite R1. unfold rows_of, panel. cbn.
        destruct (Nat.le_gt_cases Blocksize (r - k)) as [H|H].
        -- rewrite Nat.min_l by exact H.
           replace (r - k) with (Blocksize + (r - (k + Blocksize))) by lia.
           rewrite seq_app. f_equal. f_equal. lia.
        -- rewrite Nat.min_r by lia.
           replace (r - (k + Blocksize)) with 0 by lia. simpl.
           rewrite app_nil_r. reflexivity.
      * cbn [flat_map]. rewrite C1. unfold columns_of, panel. cbn.
        destruct (Nat.le_gt_cases Blocksize (r - k)) as [H|H].
        -- rewrite Nat.min_l by exact H.
           replace (r - k) with (Blocksize + (r - (k + Blocksize))) by lia.
           rewrite seq_app. f_equal. f_equal. lia.
        -- rewrite Nat.min_r by lia.
           replace (r - (k + Blocksize)) with 0 by lia. simpl.
           rewrite app_nil_r. reflexivity.
      * constructor.
        -- exists k. split; [reflexivity | lia].
        -- eapply Forall_impl; [|exact F]. simpl.
           intros c (k' & -> & Hk'). exists k'. split; [reflexivity | lia].
    + exists []. replace (r - k) with 0 by lia. simpl.
      rewrite Nat.div_small by lia. auto.
Qed.


(** X14: for a positive block size, in a release build or on operands that
    pass the check, [Trr2kTNTT] returns after [ceil(r / bsize)] calls of
    [LocalTrr2k], with r the height of A; the panels of the calls tile the
    rows of A and as many columns of D, in order, each exactly once; every
    call hands B and D over transposed, D conjugated exactly for an adjoint
    orientation, and accumulates into E with the factor one. *)
Theorem Trr2kTNTT_panels (fuel : nat) (uplo : UpperOrLower)
  (orientA orientC orientD : Orientation)
  (alpha : T) (A B : DistMatrix Store) (beta : T) (C D E : DistMatrix Store) :
  0 < Blocksize -> Height A <= fuel ->
  DEBUG = false \/ nonconformal A B C D E = false ->
  exists calls,
    Trr2kTNTT fuel uplo orientA orientC orientD alpha A B beta C D E
      = Returned calls /\
    length calls = (Height A + Blocksize - 1) / Blocksize /\
    flat_map rows_of calls = seq (RowOff A) (Height A) /\
    flat_map columns_of calls = seq (ColOff D) (Height A) /\
    Forall (fun c =>
              call_orientB c = TRANSPOSE /\ call_orientD c = NORMAL /\
              call_gamma c = one /\ call_E c = E /\
              (exists B1, call_B c = Transposed B1 false) /\
              (exists D1, call_D c = Transposed D1 (is_ADJOINT orientD)))
      calls.
Proof.
  intros Hb Hf Hc.
  destruct (@panel_loop_spec uplo orientA orientC orientD alpha A B beta C D E
              (Height A) Hb fuel 0) as (calls & E1 & L & R1 & C1 & F);
    [lia|].
  exists calls. unfold Trr2kTNTT.
  assert (Hif : DEBUG && nonconformal A B C D E = false).
  { destruct Hc as [HD | HN]; [rewrite HD; reflexivity |].
    rewrite HN. apply andb_false_r. }
  rewrite Hif. cbv zeta. rewrite E1.
  rewrite Nat.sub_0_r, !Nat.add_0_r in *.
  repeat (split; [assumption|]). split; [reflexivity|].
  split; [exact L|]. split; [exact R1|]. split; [exact C1|].
  eapply Forall_impl; [|exact F]. simpl.
  intros c (k' & -> & _). unfold panel. cbn.
  repeat split; eauto.
Qed.


(** X16: with a block size of zero and a matrix A that has a row, the loop
    never advances: whatever the fuel, the call does not return. *)
Theorem Trr2kTNTT_zero_blocksize (fuel : nat) (uplo : UpperOrLower)
  (orientA orientC orientD : Orientation)
  (alpha : T) (A B : DistMatrix Store) (beta : T) (C D E : DistMatrix Store) :
  Blocksize = 0 -> 0 < Height A ->
  DEBUG = false \/ nonconformal A B C D E = false ->
  Trr2kTNTT fuel uplo orientA orientC orientD alpha A B beta C D E
    = OutOfFuel.
Proof.
  intros Hb Hr Hc. unfold Trr2kTNTT.
  assert (Hif : DEBUG && nonconformal A B C D E = false).
  { destruct Hc as [HD | HN]; [rewrite HD; reflexivity |].
    rewrite HN. apply andb_false_r. }
  rewrite Hif. cbv zeta. rewrite Hb.
  induction fuel as [|fuel IH]; simpl;
    destruct (Nat.ltb_spec 0 (Height A)); try lia; [reflexivity|].
  simpl in IH. rewrite IH. reflexivity.
Qed.

End TNTT.

Arguments Failed {A} e.
Arguments OutOfFuel {A}.

(** An instance: integer matrices on the 2 x 2 grid, A, B and C 5 x 3,
    D 3 x 5 and E 3 x 3, with a block size of two. *)
Definition ex_mat (h w : nat) : DistMatrix unit :=
  mkDistMatrix MC MR ex_grid h w 0 0 0 0 tt.

Definition ex_Trr2kTNTT (DEBUG : bool) (Blocksize : nat) (D : DistMatrix unit)
  : Result (list (Call Z unit)) :=
  Trr2kTNTT 1%Z DEBUG Blocksize 5 LOWER ADJOINT TRANSPOSE ADJOINT
    2%Z (ex_mat 5 3) (ex_mat 5 3) 3%Z (ex_mat 5 3) D (ex_mat 3 3).

(** Three panels, of rows 0-1, 2-3 and 4. *)
Example ex_panels :
  match ex_Trr2kTNTT true 2 (ex_mat 3 5) with
  | Returned calls => map (@rows_of Z unit) calls
  | _ => []
  end = [[0; 1]; [2; 3]; [4]].
Proof. vm_compute. reflexivity. Qed.

Lemma Trr2kTNTT_panels_witness :
  exists calls,
    ex_Trr2kTNTT true 2 (ex_mat 3 5) = Returned calls /\
    length calls = 3 /\
    flat_map (@rows_of Z unit) calls = [0; 1; 2; 3; 4] /\
    flat_map (@columns_of Z unit) calls = [0; 1; 2; 3; 4] /\
    Forall (fun c =>
              call_orientB c = TRANSPOSE /\ call_orientD c = NORMAL /\
              call_gamma c = 1%Z /\ call_E c = ex_mat 3 3 /\
              (exists B1, call_B c = Transposed B1 false) /\
              (exists D1, call_D c = Transposed D1 true))
      calls.
Proof.
  apply (@Trr2kTNTT_panels Z 1%Z unit true 2 5 LOWER ADJOINT TRANSPOSE ADJOINT
           2%Z (ex_mat 5 3) (ex_mat 5 3) 3%Z (ex_mat 5 3) (ex_mat 3 5)
           (ex_mat 3 3)).
  - lia.
  - simpl. lia.
  - right. reflexivity.
Defined.


Lemma Trr2kTNTT_zero_blocksize_witness :
  ex_Trr2kTNTT false 0 (ex_mat 3 5) = OutOfFuel.
Proof.
  apply (@Trr2kTNTT_zero_blocksize Z 1%Z unit false 0 5 LOWER ADJOINT
           TRANSPOSE ADJOINT 2%Z (ex_mat 5 3) (ex_mat 5 3) 3%Z (ex_mat 5 3)
           (ex_mat 3 5) (ex_mat 3 3)).
  - reflexivity.
  - simpl. lia.
  - left. reflexivity.
Defined.

End Trr2k.

(** * Inertia (Inertia.hpp, lines 15-40)

    [LDL], [GetRealPartOfDiagonal] and [ldl::Inertia] are not among the
    verified sources: they are parameters.  The two overloads differ in the
    matrix type and in the types of the temporaries [dSub] and [pPerm]
    only, so one definition over a matrix type [M] stands for both. *)

Module InertiaProps.

Section Inertia.

Variable M : Type.             (* Matrix<F> or DistMatrix<F> *)
Variable DSub : Type.          (* Matrix<F> or DistMatrix<F,MD,STAR> *)
Variable PPerm : Type.         (* Matrix<Int> or DistMatrix<Int,VC,STAR> *)
Variable Diagonal : Type.
Variable InertiaType : Type.
Variable LDLPivotType : Type.
Variable Exception : Type.

Inductive UpperOrLower : Type := LOWER | UPPER.

Inductive Error : Type :=
| LogicError_not_supported       (* "This option not yet supported" *)
| Propagated (e : Exception).

(** How [LDL( A, dSub, pPerm, conjugate, pivotType )] ends, with what it
    leaves in its first three arguments. *)
Inductive LDLRun : Type :=
| LDL_done (A : M) (dSub : DSub) (pPerm : PPerm)
| LDL_thrown (e : Exception) (A : M).

Variable LDL : M -> bool -> LDLPivotType -> LDLRun.
Variable GetRealPartOfDiagonal : M -> Diagonal.
Variable ldl_Inertia : Diagonal -> DSub -> InertiaType.

Inductive Call : Type :=
| Call_LDL (A : M) (conjugate : bool) (pivotType : LDLPivotType).

(** The result, the matrix [A] after the call, and the calls of [LDL]. *)
Definition Inertia (uplo : UpperOrLower) (A : M) (pivotType : LDLPivotType)
  : (InertiaType + Error) * M * list Call :=
  match uplo with
  | UPPER => (inr LogicError_not_supported, A, [])
  | LOWER =>
      match LDL A true pivotType with
      | LDL_done A' dSub pPerm =>
          (inl (ldl_Inertia (GetRealPartOfDiagonal A') dSub), A',
           [Call_LDL A true pivotType])
      | LDL_thrown e A' =>
          (inr (Propagated e), A', [Call_LDL A true pivotType])
      end
  end.

(** X18: [Inertia] returns exactly when it is asked for the lower triangle
    and the factorisation succeeds; the value is [ldl::Inertia] of the
    diagonal the factorisation leaves and of its subdiagonal, and A holds the
    factored matrix afterwards.  For the upper triangle the call fails
    before the factorisation, with A as it was. *)
Theorem Inertia_returns (uplo : UpperOrLower) (A : M)
  (pivotType : LDLPivotType) (t : InertiaType) (A1 : M) (calls : list Call) :
  (Inertia uplo A pivotType = (inl t, A1, calls) <->
   uplo = LOWER /\ calls = [Call_LDL A true pivotType] /\
   exists dSub pPerm,
     LDL A true pivotType = LDL_done A1 dSub pPerm /\
     t = ldl_Inertia (GetRealPartOfDiagonal A1) dSub) /\
  Inertia UPPER A pivotType = (inr LogicError_not_supported, A, []).
Proof.
  split; [|reflexivity]. unfold Inertia. split.
  - destruct uplo; [|discriminate].
    destruct (LDL A true pivotType) as [A' dSub pPerm | e A'];
      [|discriminate].
    intros E. injection E as <- <- <-.
    split; [reflexivity|]. split; [reflexivity|].
    exists dSub, pPerm. split; reflexivity.
  - intros (-> & -> & dSub & pPerm & -> & ->). reflexivity.
Qed.

End Inertia.

End InertiaProps.

(** * The driver of the Her2k test (tests/blas-like/Her2k.cpp, lines 91-169)

    [Grid::FindFactor], the parsing of the arguments, the constructor of
    [Grid] and what follows it (lines 120-154) are not among the verified
    sources: they are parameters.  [int] is modelled without overflow; [%]
    and [/] truncate towards zero.  Without [RELEASE] the block of lines
    126-133 is compiled; its test names [rank], which nothing declares, so
    that build yields no program. *)

Module Her2kTest.

Local Open Scope Z_scope.

Section Main.

Variable RELEASE : bool.
Variable FindFactor : Z -> Z.
(** The options other than [--r]. *)
Variable Options : Type.
(** What a standard exception reports through [what()]. *)
Variable What : Type.
Variable Invalid_process_grid_height : What.
(** [const Grid g( comm, r, c )]: what it throws, if it throws. *)
Variable Grid_constructor : Z -> Z -> option What.
(** Lines 120-154 on the grid of the given height and width: what they
    throw, if they throw a standard exception. *)
Variable tests : Z -> Z -> Options -> option What.

Inductive Event : Type :=
| EvGridCall (r c : Z)         (* the constructor of [Grid] is called *)
| EvGrid (r c : Z)             (* it returned: the grid is built *)
| EvCerr (what : What).        (* the message of the second handler *)

(** The exit code and the events of a run, undefined behaviour, or no
    program at all. *)
Inductive Run : Type :=
| Exit (code : Z) (events : list Event)
| Undefined
| Ill_formed.

(** [args] is [None] when the parsing throws [ArgException]. *)
Definition main (commSize : Z) (args : option (Z * Options)) : Run :=
  if negb RELEASE then Ill_formed
  else
    match args with
    | None => Exit 0 []
    | Some (r, options) =>
        let r := if r =? 0 then FindFactor commSize else r in
        if r =? 0 then Undefined
        else if negb (Z.rem commSize r =? 0) then
          Exit 0 [EvCerr Invalid_process_grid_height]
        else
          let c := Z.quot commSize r in
          match Grid_constructor r c with
          | Some what => Exit 0 [EvGridCall r c; EvCerr what]
          | None =>
              match tests r c options with
              | None => Exit 0 [EvGridCall r c; EvGrid r c]
              | Some what => Exit 0 [EvGridCall r c; EvGrid r c; EvCerr what]
              end
          end
    end.

(** The height of the grid the driver settles on. *)
Definition grid_height (commSize r : Z) : Z :=
  if r =? 0 then FindFactor commSize else r.

(** X19: in a build with [RELEASE], on a positive number of processes and
    with a grid height other than zero, the driver calls the constructor of
    [Grid] exactly when the height divides the number of processes; the
    height and the width it passes multiply to the number of processes, the
    width having the sign of the height, and the grid is built when the
    constructor returns.  Otherwise the driver reports the invalid height
    and never calls the constructor. *)
Theorem main_grid (commSize r : Z) (options : Options) :
  RELEASE = true ->
  0 < commSize -> grid_height commSize r <> 0 ->
  exists events,
    main commSize (Some (r, options)) = Exit 0 events /\
    ((Z.rem commSize (grid_height commSize r) <> 0 /\
      events = [EvCerr Invalid_process_grid_height]) \/
     (Z.rem commSize (grid_height commSize r) = 0 /\
      exists c rest,
        events = EvGridCall (grid_height commSize r) c :: rest /\
        grid_height commSize r * c = commSize /\
        (0 < c <-> 0 < grid_height commSize r) /\
        (Grid_constructor (grid_height commSize r) c = None ->
         exists rest', rest = EvGrid (grid_height commSize r) c :: rest') /\
        (forall what,
           Grid_constructor (grid_height commSize r) c = Some what ->
           rest = [EvCerr what]))).
Proof.
  intros Hrel Hs Hr. unfold main. rewrite Hrel. cbn [negb].
  fold (grid_height commSize r).
  set (h := grid_height commSize r) in *.
  destruct (Z.eqb_spec h 0) as [E|_]; [contradiction|].
  destruct (Z.eqb_spec (Z.rem commSize h) 0) as [E|E]; cbn [negb].
  - assert (Hmul : h * Z.quot commSize h = commSize).
    { pose proof (Z.quot_rem' commSize h) as Hq. lia. }
    assert (Hsign : 0 < Z.quot commSize h <-> 0 < h) by nia.
    destruct (Grid_constructor h (Z.quot commSize h)) as [what|] eqn:G.
    + eexists. split; [reflexivity|]. right. split; [exact E|].
      exists (Z.quot commSize h). eexists. split; [reflexivity|].
      split; [exact Hmul|]. split; [exact Hsign|].
      split; [rewrite G; discriminate|].
      intros w Hw. rewrite G in Hw. injection Hw as <-. reflexivity.
    + destruct (tests h (Z.quot commSize h) options) as [what|];
        (eexists; split; [reflexivity|]; right; split; [exact E|];
         exists (Z.quot commSize h); eexists; split; [reflexivity|];
         split; [exact Hmul|]; split; [exact Hsign|];
         split; [intros _; eexists; reflexivity
                | intros w Hw; rewrite G in Hw; discriminate]).
  - eexists. split; [reflexivity|]. left. split; [exact E | reflexivity].
Qed.

End Main.

(** An instance where [FindFactor] is the largest divisor not above the
    square root, found by trial, the constructor of [Grid] refuses a height
    or a width that is not positive (message 1; message 0 is the invalid
    height), and the tests do not throw. *)
Definition ex_FindFactor (p : Z) : Z :=
  fold_left (fun best d => if (d * d <=? p) && (Z.rem p d =? 0) then d else best)
    (map Z.of_nat (seq 1 (Z.to_nat p))) 1.

Definition ex_Grid_constructor (r c : Z) : option nat :=
  if (r <=? 0) || (c <=? 0) then Some 1%nat else None.

Definition ex_main (RELEASE : bool) (commSize r : Z) : Run nat :=
  main RELEASE ex_FindFactor 0%nat ex_Grid_constructor
    (fun _ _ (_ : unit) => None) commSize (Some (r, tt)).

Example ex_main_default :
  ex_main true 12 0 = Exit 0 [EvGridCall _ 3 4; EvGrid _ 3 4].
Proof. vm_compute. reflexivity. Qed.

Example ex_main_invalid : ex_main true 12 5 = Exit 0 [EvCerr 0%nat].
Proof. vm_compute. reflexivity. Qed.

(** A negative height that divides the number of processes passes the test
    of the driver and reaches the constructor. *)
Example ex_main_negative :
  ex_main true 12 (-3) = Exit 0 [EvGridCall _ (-3) (-4); EvCerr 1%nat].
Proof. vm_compute. reflexivity. Qed.

Example ex_main_debug : ex_main false 12 0 = Ill_formed _.
Proof. reflexivity. Qed.

Lemma main_grid_witness :
  exists events,
    ex_main true 12 (-3) = Exit 0 events /\
    ((Z.rem 12 (-3) <> 0 /\ events = [EvCerr 0%nat]) \/
     (Z.rem 12 (-3) = 0 /\
      exists c rest,
        events = EvGridCall _ (-3) c :: rest /\ -3 * c = 12 /\
        (0 < c <-> 0 < -3) /\
        (ex_Grid_constructor (-3) c = None ->
         exists rest', rest = EvGrid _ (-3) c :: rest') /\
        (forall what,
           ex_Grid_constructor (-3) c = Some what -> rest = [EvCerr what]))).
Proof.
  apply (@main_grid true ex_FindFactor unit nat 0%nat ex_Grid_constructor
           (fun _ _ _ => None) 12 (-3) tt).
  - reflexivity.
  - lia.
  - vm_compute. discriminate.
Defined.

End Her2kTest.
